(** * Orchestration of event and montage imports (submission/automation.py)

    A shallow embedding of the [Importer] work-unit handle and of the
    [Automator] orchestrator, with the statements of their specification
    settled against it.

    Python objects are mutable; here every method takes the object and
    returns its new state next to its return value.  The collaborators
    that automation.py imports (pipeline builders, pipelines and their
    transferers, the JSON index reader) are parameters of the model. *)

From Stdlib Require Import ZArith String Ascii List Sorted Permutation Lia.
From stdpp Require Import gmap strings list fin_maps pretty.

Set Default Proof Using "Type".
Local Open Scope Z_scope.

(** ** Python values *)

(** The values that occur in keyword arguments and in sort keys. *)
Inductive value :=
  | VNone
  | VBool (b : bool)
  | VInt (z : Z)
  | VStr (s : string).

(** Keyword arguments ([**kwargs]) and the dictionaries built with [dict(...)]. *)
Abbreviation dict := (gmap string value).

(** Truth value of the result of [check()], which is [None] or a boolean. *)
Definition truthy (v : option bool) : bool :=
  match v with
  | Some b => b
  | None => false
  end.

(** ** Exceptions *)

(** Every exception modelled derives from [Exception], so that a clause
    [except Exception] catches all of them.  [UnTransferrableException] comes
    from the transferer module; the others are builtins; [OtherException]
    stands for any class that is none of those named. *)
Inductive exn_class :=
  | UnTransferrableException
  | KeyError
  | AttributeError
  | IndexError
  | ValueError
  | OtherException.

Record exn := Exn { exn_kind : exn_class; exn_message : string }.

(** [isinstance(e, UnTransferrableException)]. *)
Definition is_UnTransferrable (e : exn) : bool :=
  match exn_kind e with
  | UnTransferrableException => true
  | _ => false
  end.

(** [isinstance(e, KeyError)]. *)
Definition is_KeyError (e : exn) : bool :=
  match exn_kind e with
  | KeyError => true
  | _ => false
  end.

(** ** Pipelines *)

(** A pipeline is an external, stateful object.  Its two operations used here
    are [pipeline.transferer.check_checksums()] and [pipeline.run()]; what each
    answers may depend on everything the object was asked before.  The object
    is therefore represented by the calls it has received so far (oldest
    first) and by its answer to the next call after any such history.  A
    checksum comparison that returns, returns a boolean; a call that raises,
    raises an instance of [Exception]. *)
Inductive call :=
  | CheckChecksums
  | Run.

Record Pipeline := mkPipeline {
  calls : list call;
  on_check_checksums : list call -> exn + bool;
  on_run : list call -> exn + unit
}.

(** [pipeline.transferer.check_checksums()]: the answer and the object afterwards. *)
Definition check_checksums (p : Pipeline) : (exn + bool) * Pipeline :=
  (on_check_checksums p (calls p),
   mkPipeline (calls p ++ [CheckChecksums]) (on_check_checksums p) (on_run p)).

(** [pipeline.run()]. *)
Definition pipeline_run (p : Pipeline) : (exn + unit) * Pipeline :=
  (on_run p (calls p),
   mkPipeline (calls p ++ [Run]) (on_check_checksums p) (on_run p)).

(** How many times the checksum computation, respectively the pipeline's
    run, has been invoked on a pipeline. *)
Definition is_check (c : call) : bool :=
  match c with CheckChecksums => true | Run => false end.

Definition is_run (c : call) : bool :=
  match c with Run => true | CheckChecksums => false end.

Definition count_calls (f : call -> bool) (p : option Pipeline) : nat :=
  match p with
  | Some q => length (List.filter f (calls q))
  | None => O
  end.

(** A pipeline builder takes the keyword arguments and returns a pipeline or raises. *)
Definition builder := dict -> exn + Pipeline.

(** The five builders imported from [pipelines]. *)
Record Builders := mkBuilders {
  build_import_montage_pipeline : builder;
  build_events_pipeline : builder;
  build_split_pipeline : builder;
  build_convert_events_pipeline : builder;
  build_convert_eeg_pipeline : builder
}.

(** ** class Importer *)

Module Importer.

Definition MONTAGE : Z := 1.
Definition BUILD_EVENTS : Z := 2.
Definition BUILD_EPHYS : Z := 3.
Definition CONVERT_EVENTS : Z := 4.
Definition CONVERT_EPHYS : Z := 5.

Definition PIPELINE_BUILDERS (B : Builders) : gmap Z builder :=
  {[ MONTAGE := build_import_montage_pipeline B;
     BUILD_EVENTS := build_events_pipeline B;
     BUILD_EPHYS := build_split_pipeline B;
     CONVERT_EVENTS := build_convert_events_pipeline B;
     CONVERT_EPHYS := build_convert_eeg_pipeline B ]}.

Definition LABELS : gmap Z string :=
  {[ MONTAGE := "Montage Importer"%string;
     BUILD_EVENTS := "Events Builder"%string;
     BUILD_EPHYS := "Ephys Builder"%string;
     CONVERT_EVENTS := "Events Converter"%string;
     CONVERT_EPHYS := "Ephys Converter"%string ]}.

(** The keys of [self.errors].  The dictionary is created with these four
    keys and [set_error] is only ever called with one of them. *)
Inductive error_type := init | check_error | transfer | processing.

(** [self.errors]: one slot per key, [None] until an error is stored. *)
Record Errors := mkErrors {
  err_init : option exn;
  err_check : option exn;
  err_transfer : option exn;
  err_processing : option exn
}.

Definition no_errors : Errors := mkErrors None None None None.

Definition errors_set (k : error_type) (e : exn) (es : Errors) : Errors :=
  match k with
  | init => mkErrors (Some e) (err_check es) (err_transfer es) (err_processing es)
  | check_error => mkErrors (err_init es) (Some e) (err_transfer es) (err_processing es)
  | transfer => mkErrors (err_init es) (err_check es) (Some e) (err_processing es)
  | processing => mkErrors (err_init es) (err_check es) (err_transfer es) (Some e)
  end.

(** The attributes of an instance.  [self.args] is left out: every call in
    the module passes keyword arguments only.  [self.transferer] is the
    transferer of [self.pipeline], set together with it and never
    reassigned; it is [None] exactly when the pipeline is. *)
Record t := mk {
  label : string;
  kwargs : dict;
  subject : value;
  errors : Errors;
  _should_transfer : option bool;
  errored : bool;
  processed : bool;
  transferred : bool;
  pipeline : option Pipeline;
  initialized : bool
}.

Definition transferer (self : t) : option Pipeline := pipeline self.

(** [def set_error(self, error_type, error)] *)
Definition set_error (k : error_type) (e : exn) (self : t) : t :=
  mk (label self) (kwargs self) (subject self)
     (errors_set k e (errors self))
     (_should_transfer self)
     true
     (processed self) (transferred self) (pipeline self) (initialized self).

(** Assignment to [self._should_transfer]. *)
Definition set_should_transfer (v : option bool) (self : t) : t :=
  mk (label self) (kwargs self) (subject self) (errors self)
     v
     (errored self) (processed self) (transferred self) (pipeline self)
     (initialized self).

(** The pipeline object after it served a call. *)
Definition set_pipeline (p : option Pipeline) (self : t) : t :=
  mk (label self) (kwargs self) (subject self) (errors self)
     (_should_transfer self) (errored self) (processed self)
     (transferred self) p (initialized self).

(** [self.processed = True; self.transferred = True] *)
Definition set_done (self : t) : t :=
  mk (label self) (kwargs self) (subject self) (errors self)
     (_should_transfer self) (errored self) true true (pipeline self)
     (initialized self).

(** Attribute access on [None]. *)
Definition none_has_no_attribute (name : string) : exn :=
  Exn AttributeError ("'NoneType' object has no attribute '" +:+ name +:+ "'").

(** [def __init__(self, type, *args, **kwargs)].  The constructor raises for
    a type that is not registered and for keyword arguments without
    ['subject']; a failure of the builder is stored on the new object. *)
Definition __init__ (B : Builders) (type : Z) (kw : dict) : exn + t :=
  match PIPELINE_BUILDERS B !! type, LABELS !! type with
  | Some build, Some lbl =>
      match kw !! "subject"%string with
      | None => inl (Exn KeyError "'subject'")
      | Some subj =>
          let self := mk lbl kw subj no_errors None false false false None false in
          match build kw with
          | inr p =>
              inr (mk lbl kw subj no_errors None false false false (Some p) true)
          | inl e =>
              inr (set_error init e self)
          end
      end
  | _, _ =>
      inl (Exn UnTransferrableException
             ("Cannot build importer for type " +:+ pretty type))
  end.

(** [def check(self)] *)
Definition check (self : t) : option bool * t :=
  match transferer self with
  | Some p =>
      match check_checksums p with
      | (inr b, p') =>
          let self := set_should_transfer (Some b) (set_pipeline (Some p') self) in
          (_should_transfer self, self)
      | (inl e, p') =>
          let self := set_error check_error e (set_pipeline (Some p') self) in
          let self := set_should_transfer (Some false) self in
          (_should_transfer self, self)
      end
  | None =>
      let self := set_error check_error (none_has_no_attribute "check_checksums") self in
      let self := set_should_transfer (Some false) self in
      (_should_transfer self, self)
  end.

(** [@property def should_transfer(self)] *)
Definition should_transfer (self : t) : option bool * t :=
  if initialized self && bool_decide (_should_transfer self = None)
  then let self := snd (check self) in (_should_transfer self, self)
  else (_should_transfer self, self).

(** [def run(self)] *)
Definition run (self : t) : t :=
  match pipeline self with
  | Some p =>
      match pipeline_run p with
      | (inr _, p') => set_done (set_pipeline (Some p') self)
      | (inl e, p') =>
          if is_UnTransferrable e
          then set_error transfer e (set_pipeline (Some p') self)
          else set_error processing e (set_pipeline (Some p') self)
      end
  | None => set_error processing (none_has_no_attribute "run") self
  end.

End Importer.

(** ** Ordering of values (Python 2) *)

(** The module is Python 2 (it uses the [print] statement), where values of
    different types can be compared.  [cmp] on the values above: [None] is
    smaller than everything else, numbers come before strings, a boolean
    counts as the number 0 or 1, and strings are compared lexicographically
    by character code. *)
Definition py_cmp (a b : value) : comparison :=
  match a, b with
  | VNone, VNone => Eq
  | VNone, _ => Lt
  | _, VNone => Gt
  | VStr s, VStr u => String.compare s u
  | VStr _, _ => Gt
  | _, VStr _ => Lt
  | VBool x, VBool y => Z.compare (Z.b2z x) (Z.b2z y)
  | VBool x, VInt y => Z.compare (Z.b2z x) y
  | VInt x, VBool y => Z.compare x (Z.b2z y)
  | VInt x, VInt y => Z.compare x y
  end.

(** [cmp] on lists: the first position where the elements differ decides;
    a proper prefix is smaller. *)
Fixpoint list_cmp (k1 k2 : list value) : comparison :=
  match k1, k2 with
  | [], [] => Eq
  | [], _ :: _ => Lt
  | _ :: _, [] => Gt
  | a :: k1', b :: k2' =>
      match py_cmp a b with
      | Eq => list_cmp k1' k2'
      | c => c
      end
  end.

Definition key_lt (k1 k2 : list value) : bool :=
  match list_cmp k1 k2 with Lt => true | _ => false end.

Definition key_le (k1 k2 : list value) : bool := negb (key_lt k2 k1).

Definition key_equiv (k1 k2 : list value) : bool :=
  match list_cmp k1 k2 with Eq => true | _ => false end.

(** [sorted(iterable, key=...)]: an ascending, stable sort.  An element
    is placed after the elements whose key is strictly smaller and before all
    others, so elements with equal keys keep their order. *)
Fixpoint insert_by {A} (key : A -> list value) (x : A) (l : list A) : list A :=
  match l with
  | [] => [x]
  | y :: l' =>
      if key_lt (key y) (key x) then y :: insert_by key x l' else x :: y :: l'
  end.

Fixpoint sorted {A} (l : list A) (key : A -> list value) : list A :=
  match l with
  | [] => []
  | x :: l' => insert_by key x (sorted l' key)
  end.

(** ** Builtins used by the orchestrator *)

(** [s.split(sep)] for a one-character separator. *)
Fixpoint split (sep : ascii) (s : string) : list string :=
  match s with
  | EmptyString => [EmptyString]
  | String c s' =>
      if Ascii.eqb c sep then EmptyString :: split sep s'
      else match split sep s' with
           | w :: ws => String c w :: ws
           | [] => [String c EmptyString]
           end
  end.

(** [l[i]] *)
Definition getitem {A} (l : list A) (i : nat) : exn + A :=
  match nth_error l i with
  | Some x => inr x
  | None => inl (Exn IndexError "list index out of range")
  end.

(** [max(l)] on strings and on integers; the first maximal element wins. *)
Definition max_str (l : list string) : exn + string :=
  match l with
  | [] => inl (Exn ValueError "max() arg is an empty sequence")
  | x :: l' =>
      inr (fold_left (fun m y => if String.ltb m y then y else m) l' x)
  end.

Definition max_int (l : list Z) : exn + Z :=
  match l with
  | [] => inl (Exn ValueError "max() arg is an empty sequence")
  | x :: l' => inr (fold_left (fun m y => if Z.ltb m y then y else m) l' x)
  end.

(** [try: v = r  except KeyError: v = default]; any other exception propagates. *)
Definition except_KeyError {A} (r : exn + A) (default : A) : exn + A :=
  match r with
  | inr a => inr a
  | inl e => if is_KeyError e then inr default else inl e
  end.

(** ** The index reader *)

(** [JsonIndexReader] as this module uses it.  Every query takes keyword
    arguments that restrict it.  Session numbers and the recorded
    [original_session] are integers (the code adds 1 to them, and [int()] is
    the identity on them); subjects, experiments, montages and the other
    recorded values are strings.  [get_value] raises when the value is
    absent. *)
Record IndexReader (I : Type) := mkIndexReader {
  subjects : I -> dict -> list string;
  experiments : I -> dict -> list string;
  sessions : I -> dict -> list Z;
  montages : I -> dict -> list string;
  filtered : I -> dict -> I;
  get_value : I -> string -> dict -> exn + string;
  get_value_int : I -> string -> dict -> exn + Z
}.

Arguments subjects {I} _ _ _.
Arguments experiments {I} _ _ _.
Arguments sessions {I} _ _ _.
Arguments montages {I} _ _ _.
Arguments filtered {I} _ _ _.
Arguments get_value {I} _ _ _ _.
Arguments get_value_int {I} _ _ _ _.

(** ** class Automator *)

Module Automator.
Section Automator.

Context {I : Type} (R : IndexReader I) (B : Builders).

(** Iterating over this dictionary, as [add_future_events_importers] does,
    yields its keys. *)
Definition EXPERIMENTS : gmap string (list string) :=
  {[ "r1"%string :=
       [ "FR1"; "FR2"; "FR3"; "catFR1"; "catFR2"; "catFR3";
         "PAL1"; "PAL2"; "PAL3"; "TH1"; "TH2"; "TH3";
         "PS1"; "PS2"; "PS3" ]%string ]}.

Definition MATH_TASKS : list string :=
  [ "FR1"; "FR2"; "FR3"; "catFR1"; "catFR2"; "catFR3";
    "PAL1"; "PAL2"; "PAL3"; "ltpFR"; "ltpFR2" ]%string.

Definition INCLUDE_TRANSFERRED : bool := false.

(** The attributes of an instance; [index] is the reader's view of the
    protocol's index file. *)
Record t := mk {
  protocol : string;
  index : I;
  importers : list Importer.t
}.

(** [def __init__(self, protocol)], given the index that the file holds. *)
Definition __init__ (protocol : string) (index : I) : t := mk protocol index [].

(** A method either returns or raises, and leaves the object in a new state. *)
Definition M (A : Type) : Type := t -> (exn + A) * t.

Definition ret {A} (a : A) : M A := fun self => (inr a, self).

Definition bind {A C} (m : M A) (k : A -> M C) : M C :=
  fun self =>
    match m self with
    | (inr a, self') => k a self'
    | (inl e, self') => (inl e, self')
    end.

(** A computation that reads the object but does not change it. *)
Definition lift {A} (r : exn + A) : M A := fun self => (r, self).

(** [self.importers.append(importer)] *)
Definition append (importer : Importer.t) : M unit :=
  fun self =>
    (inr tt, mk (protocol self) (index self) (importers self ++ [importer])).

(** [for x in l: body(x)] *)
Fixpoint for_each {X} (l : list X) (body : X -> M unit) : M unit :=
  match l with
  | [] => ret tt
  | x :: l' => bind (body x) (fun _ => for_each l' body)
  end.

Notation "'let*' x ':=' m 'in' k" := (bind m (fun x => k))
  (at level 10, x name, m at level 100, k at level 200).

(** [def add_existing_montage_importers(self)] *)
Definition add_existing_montage_importers : M unit :=
  fun self =>
    for_each (subjects R (index self) ∅) (fun subject =>
      for_each (montages R (index self) {[ "subject"%string := VStr subject ]})
        (fun montage =>
           let* num := lift (getitem (split "."%char montage) 1) in
           let* code := lift (get_value R (index self) "subject_alias"
                                {[ "subject"%string := VStr subject;
                                   "montage"%string := VStr num ]}) in
           let* importer := lift (Importer.__init__ B Importer.MONTAGE
                                    {[ "subject"%string := VStr subject;
                                       "montage"%string := VStr montage;
                                       "protocol"%string := VStr (protocol self);
                                       "code"%string := VStr code ]}) in
           let (r, importer) := Importer.check importer in
           if truthy r || Importer.errored importer || INCLUDE_TRANSFERRED
           then append importer
           else ret tt)) self.

(** [def session_indexes(self)]: the tuples that the generator yields, in order. *)
Definition session_indexes (self : t) : list (string * string * Z * I) :=
  flat_map (fun experiment =>
    let exp_index :=
      filtered R (index self) {[ "experiment"%string := VStr experiment ]} in
    flat_map (fun subject =>
      let subj_index :=
        filtered R exp_index {[ "subject"%string := VStr subject ]} in
      List.map (fun session =>
        let sess_index :=
          filtered R subj_index {[ "session"%string := VInt session ]} in
        (subject, experiment, session, sess_index))
        (sessions R subj_index ∅))
      (subjects R exp_index ∅))
    (experiments R (index self) ∅).

(** [def build_existing_event_importer_kwargs(self, subject, experiment,
    session, index, do_compare=True)] *)
Definition build_existing_event_importer_kwargs (self : t)
    (subject experiment : string) (session : Z) (index : I)
    (do_compare : bool) : exn + dict :=
  match getitem (montages R index ∅) 0 with
  | inl e => inl e
  | inr montage =>
      let do_math := bool_decide (experiment ∈ MATH_TASKS) in
      match get_value R index "subject_alias" ∅ with
      | inl e => inl e
      | inr code =>
          match except_KeyError (get_value_int R index "original_session" ∅)
                  session with
          | inl e => inl e
          | inr original_session =>
              match except_KeyError
                      (get_value R index "original_experiment" ∅) experiment with
              | inl e => inl e
              | inr original_experiment =>
                  inr ({[ "subject"%string := VStr subject;
                          "montage"%string := VStr montage;
                          "experiment"%string := VStr original_experiment;
                          "session"%string := VInt session;
                          "new_experiment"%string := VStr experiment;
                          "original_session"%string := VInt original_session;
                          "do_math"%string := VBool do_math;
                          "protocol"%string := VStr (protocol self);
                          "code"%string := VStr code;
                          "do_compare"%string := VBool do_compare ]} : dict)
              end
          end
      end
  end.

(** The body of the loop of [add_existing_events_importers] once [kwargs]
    is known: the primary strategy, and the fallback when it errored. *)
Definition existing_events_importer (kw : dict) : M unit :=
  let* importer := lift (Importer.__init__ B Importer.BUILD_EVENTS kw) in
  let (r, importer) := Importer.check importer in
  if negb (truthy r) && negb (Importer.errored importer) then ret tt
  else if negb (Importer.errored importer) then append importer
  else
    let* importer2 := lift (Importer.__init__ B Importer.CONVERT_EVENTS kw) in
    let (r2, importer2) := Importer.check importer2 in
    if negb (truthy r2) && negb (Importer.errored importer2) then ret tt
    else if negb (Importer.errored importer) then append importer
    else if negb (Importer.errored importer2) then append importer2
    else append importer.

(** [def add_existing_events_importers(self)] *)
Definition add_existing_events_importers : M unit :=
  fun self =>
    for_each (session_indexes self)
      (fun '(subject, experiment, session, index) =>
         let* kw := lift (build_existing_event_importer_kwargs self subject
                       experiment session index true) in
         existing_events_importer kw) self.

(** The keyword arguments that [add_future_events_importers] computes for
    one subject and one experiment (the body of its inner loop up to
    [kwargs = dict(...)]). *)
Definition future_events_importer_kwargs (self : t) (subj_index : I)
    (subject max_montage experiment : string) : exn + dict :=
  let exp_index :=
    filtered R subj_index {[ "montage"%string := VStr max_montage;
                             "experiment"%string := VStr experiment ]} in
  let sessions := sessions R exp_index ∅ in
  match
    match sessions with
    | _ :: _ =>
        match max_int sessions with
        | inl e => inl e
        | inr max_session =>
            match except_KeyError
                    (match get_value_int R exp_index "original_session"
                             {[ "session"%string := VInt max_session ]} with
                     | inr v => inr (v + 1)
                     | inl e => inl e
                     end)
                    (max_session + 1) with
            | inl e => inl e
            | inr original_session =>
                match except_KeyError
                        (get_value R exp_index "original_experiment"
                           {[ "session"%string := VInt max_session ]})
                        experiment with
                | inl e => inl e
                | inr original_experiment =>
                    inr (max_session + 1, original_session, original_experiment)
                end
            end
        end
    | [] => inr (0, 0, experiment)
    end
  with
  | inl e => inl e
  | inr (session, original_session, original_experiment) =>
      let do_math := bool_decide (experiment ∈ MATH_TASKS) in
      match getitem (split "."%char max_montage) 1 with
      | inl e => inl e
      | inr num =>
          match get_value R subj_index "subject_alias"
                  {[ "montage"%string := VStr num ]} with
          | inl e => inl e
          | inr code =>
              inr ({[ "subject"%string := VStr subject;
                      "montage"%string := VStr max_montage;
                      "experiment"%string := VStr original_experiment;
                      "session"%string := VInt session;
                      "new_experiment"%string := VStr experiment;
                      "original_session"%string := VInt original_session;
                      "do_math"%string := VBool do_math;
                      "protocol"%string := VStr (protocol self);
                      "code"%string := VStr code;
                      "do_compare"%string := VBool false ]} : dict)
          end
      end
  end.

(** [def add_future_events_importers(self)] *)
Definition add_future_events_importers : M unit :=
  fun self =>
    for_each (subjects R (index self) ∅) (fun subject =>
      let subj_index :=
        filtered R (index self) {[ "subject"%string := VStr subject ]} in
      let* max_montage := lift (max_str (montages R subj_index ∅)) in
      for_each (map_to_list EXPERIMENTS).*1 (fun experiment =>
        let* kw := lift (future_events_importer_kwargs self subj_index
                           subject max_montage experiment) in
        let* importer := lift (Importer.__init__ B Importer.BUILD_EVENTS kw) in
        let (r, importer) := Importer.check importer in
        if truthy r then append importer else ret tt)) self.

(** [def populate_importers(self)] *)
Definition populate_importers : M unit :=
  let* _ := add_existing_events_importers in
  let* _ := add_existing_montage_importers in
  add_future_events_importers.

(** [def run_all_imports(self)] *)
Definition run_all_imports (self : t) : t :=
  mk (protocol self) (index self) (List.map Importer.run (importers self)).

(** The list that [sorted_importers] builds for one importer from the
    attributes named in [order]. *)
Definition sort_key (imp : Importer.t) : list value :=
  [ VBool (Importer.initialized imp);
    VBool (Importer.errored imp);
    match Importer._should_transfer imp with
    | Some b => VBool b
    | None => VNone
    end;
    VBool (Importer.transferred imp);
    VBool (Importer.processed imp);
    Importer.subject imp ].

(** [def sorted_importers(self)] *)
Definition sorted_importers (self : t) : list Importer.t :=
  sorted (importers self) sort_key.

End Automator.
End Automator.

(** ** Sequences of method calls on one handle *)

(** What a caller can do with a handle: call [check()], read the
    [should_transfer] property, call [run()]. *)
Inductive op :=
  | OpCheck
  | OpShouldTransfer
  | OpRun.

Definition step (h : Importer.t) (o : op) : Importer.t :=
  match o with
  | OpCheck => snd (Importer.check h)
  | OpShouldTransfer => snd (Importer.should_transfer h)
  | OpRun => Importer.run h
  end.

(** The handle after the calls [ops], made in order. *)
Definition exec (ops : list op) (h : Importer.t) : Importer.t :=
  fold_left step ops h.

(** The answer that the next checksum computation of a pipeline gives to
    [check()]: its boolean, or [False] when it raises. *)
Definition next_check_answer (p : Pipeline) : bool :=
  match on_check_checksums p (calls p) with
  | inr b => b
  | inl _ => false
  end.

(** ** Readings of the specification that the code is compared with *)



(** "[run()] on a handle that is not initialized changes no field". *)
Definition run_is_noop (h : Importer.t) : Prop := Importer.run h = h.

(** In the list [l], every handle that satisfies [first] stands before every
    handle that satisfies [later]. *)
Definition all_before (first later : Importer.t -> bool)
    (l : list Importer.t) : Prop :=
  forall (i j : nat) (a b : Importer.t),
    l !! i = Some a -> l !! j = Some b ->
    first a = true -> later b = true -> (i < j)%nat.

(** "Handles that errored sort first". *)
Definition errored_sort_first (l : list Importer.t) : Prop :=
  all_before Importer.errored (fun b => negb (Importer.errored b)) l.

(** The orchestrator with its list of handles emptied. *)
Definition restart {I} (self : Automator.t (I:=I)) : Automator.t (I:=I) :=
  Automator.mk (Automator.protocol self) (Automator.index self) [].

(** The handles that one phase retains when it starts from an empty list. *)
Definition survivors {I} (phase : Automator.M (I:=I) unit)
    (self : Automator.t (I:=I)) : list Importer.t :=
  Automator.importers (snd (phase (restart self))).

(** A method that only ever appends to [self.importers], and whose result
    and appended handles do not depend on the handles already in the list. *)
Definition appends_only {I A} (m : Automator.M (I:=I) A) : Prop :=
  forall self : Automator.t (I:=I),
    m self =
    (fst (m (restart self)),
     Automator.mk (Automator.protocol self) (Automator.index self)
       (Automator.importers self ++ Automator.importers (snd (m (restart self))))).

(** What the fallback between the two event strategies keeps of one session,
    given the keyword arguments [kw] built for it: [kept] is the list of
    handles that the session adds to [self.importers].  The BuildEvents
    handle is constructed and checked; when it errored, so is the
    ConvertEvents handle, from the same keyword arguments. *)
Definition cascade_retains (B : Builders) (kw : dict)
    (kept : list Importer.t) : Prop :=
  exists (build0 build : Importer.t) (r : option bool),
    Importer.__init__ B Importer.BUILD_EVENTS kw = inr build0 /\
    Importer.label build0 = "Events Builder"%string /\
    Importer.check build0 = (r, build) /\
    (truthy r = false -> Importer.errored build = false -> kept = []) /\
    (truthy r = true -> Importer.errored build = false -> kept = [build]) /\
    (Importer.errored build = true ->
     exists (convert0 convert : Importer.t) (r2 : option bool),
       Importer.__init__ B Importer.CONVERT_EVENTS kw = inr convert0 /\
       Importer.label convert0 = "Events Converter"%string /\
       Importer.kwargs convert0 = Importer.kwargs build0 /\
       Importer.check convert0 = (r2, convert) /\
       (truthy r2 = false -> Importer.errored convert = false -> kept = []) /\
       (truthy r2 = true -> Importer.errored convert = false ->
        kept = [convert]) /\
       (Importer.errored convert = true -> kept = [build])).

(** "The phase-(a) survivors followed by the phase-(b) survivors followed by
    the phase-(c) survivors", (a) being the montage imports, (b) the imports
    for existing sessions and (c) those for future sessions. *)
Definition montage_first_order {I} (R : IndexReader I) (B : Builders)
    (self : Automator.t (I:=I)) : list Importer.t :=
  survivors (Automator.add_existing_montage_importers R B) self ++
  survivors (Automator.add_existing_events_importers R B) self ++
  survivors (Automator.add_future_events_importers R B) self.

(** ** Concrete collaborators *)

(** Pipelines, builders and a small in-memory index on which the model is
    run in the examples below. *)
Module Sample.

#[global] Instance value_eq_dec : EqDecision value.
Proof. solve_decision. Defined.

Definition io_error : exn := Exn OtherException "IOError".

(** A pipeline whose checksum comparison always answers [answer] and whose
    run always succeeds. *)
Definition steady (answer : bool) : Pipeline :=
  mkPipeline [] (fun _ => inr answer) (fun _ => inr tt).

(** A pipeline whose checksum computation raises the first time and answers
    [True] from then on. *)
Definition flaky_check : Pipeline :=
  mkPipeline []
    (fun h => match List.filter is_check h with
              | [] => inl io_error
              | _ :: _ => inr true
              end)
    (fun _ => inr tt).

(** A pipeline whose run raises the first time and succeeds from then on. *)
Definition flaky_run : Pipeline :=
  mkPipeline []
    (fun _ => inr true)
    (fun h => match List.filter is_run h with
              | [] => inl io_error
              | _ :: _ => inr tt
              end).

(** Builders that all return the same pipeline. *)
Definition builders_of (p : Pipeline) : Builders :=
  mkBuilders (fun _ => inr p) (fun _ => inr p) (fun _ => inr p)
             (fun _ => inr p) (fun _ => inr p).

(** Builders that all raise. *)
Definition builders_raising : Builders :=
  mkBuilders (fun _ => inl io_error) (fun _ => inl io_error)
             (fun _ => inl io_error) (fun _ => inl io_error)
             (fun _ => inl io_error).

Definition kw_subject : dict := {[ "subject"%string := VStr "R1001P" ]}.

(** The handle that [Importer(BUILD_EVENTS, subject='R1001P')] returns when
    the builder returns the pipeline [p], and the one it returns when the
    builder raises [io_error]. *)
Definition handle_of (p : Pipeline) : Importer.t :=
  Importer.mk "Events Builder" kw_subject (VStr "R1001P") Importer.no_errors
    None false false false (Some p) true.

Definition failed_handle : Importer.t :=
  Importer.mk "Events Builder" kw_subject (VStr "R1001P")
    (Importer.mkErrors (Some io_error) None None None)
    None true false false None false.

(** Two initialized handles after their first [check()]: one whose checksum
    computation raised, one whose pipeline asks for a transfer. *)
Definition check_failed_handle : Importer.t :=
  snd (Importer.check (handle_of flaky_check)).

Definition clean_handle : Importer.t :=
  snd (Importer.check (handle_of (steady true))).

(** One recorded session. *)
Record row := mkRow {
  r_subject : string;
  r_experiment : string;
  r_session : Z;
  r_montage : string;
  r_alias : string;
  r_original_session : option Z;
  r_original_experiment : option string
}.

Definition field_matches (kw : dict) (k : string) (vs : list value) : bool :=
  match kw !! k with
  | None => true
  | Some v => bool_decide (v ∈ vs)
  end.

(** A montage is matched by its full name or by its number after the dot. *)
Definition matches (kw : dict) (r : row) : bool :=
  field_matches kw "subject" [VStr (r_subject r)]
  && field_matches kw "experiment" [VStr (r_experiment r)]
  && field_matches kw "session" [VInt (r_session r)]
  && field_matches kw "montage"
       (VStr (r_montage r) ::
        match getitem (split "."%char (r_montage r)) 1 with
        | inr num => [VStr num]
        | inl _ => []
        end).

Definition select (rows : list row) (kw : dict) : list row :=
  List.filter (matches kw) rows.

Definition missing (field : string) : exn := Exn KeyError field.

Definition reader : IndexReader (list row) :=
  mkIndexReader (list row)
    (fun rows kw => remove_dups (List.map r_subject (select rows kw)))
    (fun rows kw => remove_dups (List.map r_experiment (select rows kw)))
    (fun rows kw => remove_dups (List.map r_session (select rows kw)))
    (fun rows kw => remove_dups (List.map r_montage (select rows kw)))
    select
    (fun rows field kw =>
       match select rows kw with
       | [] => inl (missing field)
       | r :: _ =>
           if String.eqb field "subject_alias" then inr (r_alias r)
           else if String.eqb field "original_experiment" then
             match r_original_experiment r with
             | Some x => inr x
             | None => inl (missing field)
             end
           else inl (missing field)
       end)
    (fun rows field kw =>
       match select rows kw with
       | [] => inl (missing field)
       | r :: _ =>
           if String.eqb field "original_session" then
             match r_original_session r with
             | Some x => inr x
             | None => inl (missing field)
             end
           else inl (missing field)
       end).

(** Subject R1001P, montage 0.0: two sessions of FR1, and two sessions of an
    experiment named r1, the one name that the loop over [EXPERIMENTS] asks
    for; the second of these was renumbered from session 4 of catFR1. *)
Definition rows : list row :=
  [ mkRow "R1001P" "FR1" 0 "0.0" "R1001P" None None;
    mkRow "R1001P" "FR1" 1 "0.0" "R1001P" None None;
    mkRow "R1001P" "r1" 0 "0.0" "R1001P" None None;
    mkRow "R1001P" "r1" 1 "0.0" "R1001P" (Some 4) (Some "catFR1"%string) ].

Definition automator : Automator.t := Automator.__init__ "r1" rows.

(** Builders of which only the one for BuildEvents raises. *)
Definition builders_fallback : Builders :=
  mkBuilders (fun _ => inr (steady true)) (fun _ => inl io_error)
             (fun _ => inr (steady true)) (fun _ => inr (steady true))
             (fun _ => inr (steady true)).

(** The view of the index for session 0 of FR1, and the keyword arguments
    built for that session. *)
Definition index_FR1_0 : list row :=
  [ mkRow "R1001P" "FR1" 0 "0.0" "R1001P" None None ].

Definition kw_FR1_0 : dict :=
  {[ "subject"%string := VStr "R1001P";
     "montage"%string := VStr "0.0";
     "experiment"%string := VStr "FR1";
     "session"%string := VInt 0;
     "new_experiment"%string := VStr "FR1";
     "original_session"%string := VInt 0;
     "do_math"%string := VBool true;
     "protocol"%string := VStr "r1";
     "code"%string := VStr "R1001P";
     "do_compare"%string := VBool true ]}.

(** The view of the index for subject R1001P, and the keyword arguments
    computed for the next session of the experiment named r1. *)
Definition index_R1001P : list row := rows.

Definition kw_next_r1 : dict :=
  {[ "subject"%string := VStr "R1001P";
     "montage"%string := VStr "0.0";
     "experiment"%string := VStr "catFR1";
     "session"%string := VInt 2;
     "new_experiment"%string := VStr "r1";
     "original_session"%string := VInt 5;
     "do_math"%string := VBool false;
     "protocol"%string := VStr "r1";
     "code"%string := VStr "R1001P";
     "do_compare"%string := VBool false ]}.

(** An index of protocol r1 as the repository holds them: subject R1001P,
    montage 0.0, with sessions 0 and 1 of FR1 and nothing else; and the
    keyword arguments that the future-session phase computes on it. *)
Definition rows_FR1 : list row :=
  [ mkRow "R1001P" "FR1" 0 "0.0" "R1001P" None None;
    mkRow "R1001P" "FR1" 1 "0.0" "R1001P" None None ].

Definition automator_FR1 : Automator.t := Automator.__init__ "r1" rows_FR1.

Definition kw_future_r1 : dict :=
  {[ "subject"%string := VStr "R1001P";
     "montage"%string := VStr "0.0";
     "experiment"%string := VStr "r1";
     "session"%string := VInt 0;
     "new_experiment"%string := VStr "r1";
     "original_session"%string := VInt 0;
     "do_math"%string := VBool false;
     "protocol"%string := VStr "r1";
     "code"%string := VStr "R1001P";
     "do_compare"%string := VBool false ]}.

(** A reader over the same rows whose lookups of integers fail with an
    error that is not a [KeyError]. *)
Definition failing_reader : IndexReader (list row) :=
  mkIndexReader (list row)
    (subjects reader) (experiments reader) (sessions reader) (montages reader)
    (filtered reader) (get_value reader)
    (fun _ _ _ => inl io_error).

End Sample.

(** ** Reports *)

(** [str(v)] for the values that occur in keyword arguments. *)
Definition str (v : value) : string :=
  match v with
  | VNone => "None"
  | VBool true => "True"
  | VBool false => "False"
  | VInt z => pretty z
  | VStr s => s
  end.

(** [sep.join(l)] *)
Fixpoint join (sep : string) (l : list string) : string :=
  match l with
  | [] => ""
  | [x] => x
  | x :: l' => x +:+ sep +:+ join sep l'
  end.

(** The string ['\n']. *)
Definition newline : string := String "010"%char "".

(** Whether a text has more than one line. *)
Fixpoint has_newline (s : string) : bool :=
  match s with
  | EmptyString => false
  | String c s' => Ascii.eqb c "010" || has_newline s'
  end.

(** Truth value of an error slot: an exception object is true, [None] is not. *)
Definition slot_set (e : option exn) : bool :=
  match e with
  | Some _ => true
  | None => false
  end.

Module ImporterReport.
Section ImporterReport.

(** The order in which [self.kwargs.items()] lists a dictionary, which
    Python 2 leaves to the interpreter. *)
Variable items : dict -> list (string * value).

(** The lines that one slot contributes to [describe_errors]:
    [if self.errors[k]: errors.append(prefix.format(self.errors[k]))], the
    text of an exception being its message. *)
Definition error_line (prefix : string) (e : option exn) : list string :=
  match e with
  | Some e => [prefix +:+ exn_message e]
  | None => []
  end.

(** [def describe_errors(self)] *)
Definition describe_errors (self : Importer.t) : string :=
  join newline
    (error_line "Initialization error: "
       (Importer.err_init (Importer.errors self)) ++
     error_line "Checksum calculation error: "
       (Importer.err_check (Importer.errors self)) ++
     error_line "Transfer error: "
       (Importer.err_transfer (Importer.errors self)) ++
     error_line "Processing error: "
       (Importer.err_processing (Importer.errors self))).

(** [def describe(self)]: the text, and the handle after the read of the
    [should_transfer] property that the method makes. *)
Definition describe (self : Importer.t) : string * Importer.t :=
  let label :=
    Importer.label self +:+ ":: " +:+
    join ", " (List.map (fun '(k, v) => k +:+ ": " +:+ str v)
                 (items (Importer.kwargs self))) in
  let initialization_status :=
    "Initialization status: " +:+
    (if Importer.initialized self then "success" else "failure") in
  let (should_transfer, self) := Importer.should_transfer self in
  let transfer_status :=
    "Transfer status: " +:+
    (if truthy should_transfer then
       if slot_set (Importer.err_transfer (Importer.errors self))
       then "necessary, failed"
       else if negb (Importer.transferred self) then "necessary, incomplete"
       else "complete"
     else if slot_set (Importer.err_check (Importer.errors self))
       then "failed to compute checksum"
     else "not necessary") in
  let processed_status :=
    if Importer.transferred self then
      [ "Processed status: " +:+
        (if slot_set (Importer.err_processing (Importer.errors self))
         then "necessary, failed"
         else if negb (Importer.processed self) then "necessary, incomplete"
         else "complete") ]
    else [] in
  let error_status :=
    if Importer.errored self then [describe_errors self] else [] in
  (join newline
     ([label; initialization_status; transfer_status] ++ processed_status ++
      error_status),
   self).

End ImporterReport.
End ImporterReport.

Module AutomatorReport.
Section AutomatorReport.

Context {I : Type}.
Variable items : dict -> list (string * value).

(** [def describe(self)] of the orchestrator: the text, and the orchestrator
    afterwards.  The list is sorted first; describing a handle then changes
    that handle where it stands in [self.importers]. *)
Definition describe (self : Automator.t (I:=I)) : string * Automator.t (I:=I) :=
  match Automator.importers self with
  | [] => ("No Importers"%string, self)
  | _ :: _ =>
      (join (newline +:+ "---------------" +:+ newline)
         (List.map (fun importer => fst (ImporterReport.describe items importer))
            (Automator.sorted_importers self)),
       Automator.mk (Automator.protocol self) (Automator.index self)
         (List.map (fun importer => snd (ImporterReport.describe items importer))
            (Automator.importers self)))
  end.

End AutomatorReport.
End AutomatorReport.

(** ** Conditions on the handles of the list *)

(** A method under which the handles of [self.importers] keep the property
    [P]: those it finds satisfy [P], so do those it leaves. *)
Definition retains {I A} (P : Importer.t -> Prop)
    (m : Automator.M (I:=I) A) : Prop :=
  forall self : Automator.t (I:=I),
    Forall P (Automator.importers self) ->
    Forall P (Automator.importers (snd (m self))).

(** Whether some slot of [self.errors] holds an exception. *)
Definition any_error (es : Importer.Errors) : bool :=
  slot_set (Importer.err_init es) || slot_set (Importer.err_check es) ||
  slot_set (Importer.err_transfer es) || slot_set (Importer.err_processing es).

(** * vox_mother_converter.py *)

(** ** Builtins on strings *)

(** The characters that [str.split()] and [str.strip()] treat as white
    space: tab, line feed, vertical tab, form feed, carriage return, space. *)
Definition is_space (c : ascii) : bool :=
  let n := nat_of_ascii c in
  ((9 <=? n)%nat && (n <=? 13)%nat) || (n =? 32)%nat.

(** [\d] in a pattern on byte strings: the characters 0 to 9. *)
Definition is_digit (c : ascii) : bool :=
  let n := nat_of_ascii c in (48 <=? n)%nat && (n <=? 57)%nat.

Definition is_newline (c : ascii) : bool := Ascii.eqb c "010".

(** The run of characters other than white space at the start of a string,
    and the words that follow it. *)
Fixpoint split_ws_go (s : string) : string * list string :=
  match s with
  | EmptyString => (EmptyString, [])
  | String c s' =>
      let (w, ws) := split_ws_go s' in
      if is_space c
      then (EmptyString, match w with EmptyString => ws | _ => w :: ws end)
      else (String c w, ws)
  end.

(** [s.split()] *)
Definition split_ws (s : string) : list string :=
  let (w, ws) := split_ws_go s in
  match w with EmptyString => ws | _ => w :: ws end.

Fixpoint lstrip (s : string) : string :=
  match s with
  | EmptyString => EmptyString
  | String c s' => if is_space c then lstrip s' else s
  end.

Fixpoint rstrip (s : string) : string :=
  match s with
  | EmptyString => EmptyString
  | String c s' =>
      match rstrip s' with
      | EmptyString => if is_space c then EmptyString else String c EmptyString
      | r => String c r
      end
  end.

(** [s.strip()] *)
Definition strip (s : string) : string := rstrip (lstrip s).

Fixpoint all_digits (s : string) : bool :=
  match s with
  | EmptyString => true
  | String c s' => is_digit c && all_digits s'
  end.

(** The number that a string of decimal digits denotes, read after the
    digits [acc] already seen. *)
Fixpoint int_of_digits (acc : Z) (s : string) : Z :=
  match s with
  | EmptyString => acc
  | String c s' => int_of_digits (10 * acc + (Z.of_nat (nat_of_ascii c) - 48)) s'
  end.

(** [int(s)] for a string without white space: an optional sign and at
    least one digit, or [ValueError]. *)
Definition int (s : string) : exn + Z :=
  let invalid :=
    inl (Exn ValueError
           ("invalid literal for int() with base 10: '" +:+ s +:+ "'")) in
  let digits (ds : string) (sign : Z) :=
    match ds with
    | EmptyString => invalid
    | _ => if all_digits ds then inr (sign * int_of_digits 0 ds) else invalid
    end in
  match s with
  | String "-" ds => digits ds (-1)
  | String "+" ds => digits ds 1
  | _ => digits s 1
  end.

(** [[int(x) for x in l]]: the first element that is no integer raises. *)
Fixpoint ints (l : list string) : exn + list Z :=
  match l with
  | [] => inr []
  | x :: l' =>
      match int x with
      | inl e => inl e
      | inr z =>
          match ints l' with
          | inl e => inl e
          | inr zs => inr (z :: zs)
          end
      end
  end.

(** Whether a string has a line feed in it. *)
Fixpoint has_line_feed (s : string) : bool :=
  match s with
  | EmptyString => false
  | String c s' => is_newline c || has_line_feed s'
  end.

(** The last character of a string. *)
Fixpoint last_char (s : string) : option ascii :=
  match s with
  | EmptyString => None
  | String c EmptyString => Some c
  | String _ s' => last_char s'
  end.

(** Whether a line is blank: nothing in it but white space. *)
Fixpoint all_space (s : string) : bool :=
  match s with
  | EmptyString => true
  | String c s' => is_space c && all_space s'
  end.

(** ** The pattern for contact names *)

(** What [\d+$] matches at the start of a string: one or more digits that
    reach the end of the string or the line feed that ends it.  The result
    is the digits. *)
Fixpoint digits_to_end (s : string) : option string :=
  match s with
  | EmptyString => None
  | String c s' =>
      if is_digit c then
        match s' with
        | EmptyString => Some (String c EmptyString)
        | String c' EmptyString =>
            if is_newline c' then Some (String c EmptyString)
            else match digits_to_end s' with
                 | Some ds => Some (String c ds)
                 | None => None
                 end
        | _ =>
            match digits_to_end s' with
            | Some ds => Some (String c ds)
            | None => None
            end
        end
      else None
  end.

(** [re.match(r'(.+?)(\d+$)', s)]: the two groups, or [None].  The first
    group is the shortest non-empty start of the string, free of line feeds,
    after which only digits follow to the end. *)
Fixpoint match_contact_name (s : string) : option (string * string) :=
  match s with
  | EmptyString => None
  | String c s' =>
      if is_newline c then None
      else
        match digits_to_end s' with
        | Some ds => Some (String c EmptyString, ds)
        | None =>
            match match_contact_name s' with
            | Some (lead, ds) => Some (String c lead, ds)
            | None => None
            end
        end
  end.

Module VoxMother.

(** [class Contact]: the attributes, with the types of the values that
    [read_mother] gives them.  [grid_size] is a tuple of at most two
    integers, [grid_loc] a pair once it is set. *)
Record Contact := mkContact {
  name : string;
  coords : list Z;
  num : Z;
  type : string;
  grid_size : list Z;
  grid_group : option Z;
  jack_num : option string;
  grid_loc : option (Z * Z)
}.

(** [Contact(contact_name, contact_num, coords, type, size)] *)
Definition Contact_init (contact_name : string) (contact_num : Z)
    (coords : list Z) (type : string) (size : list Z) : Contact :=
  mkContact contact_name coords contact_num type size None None None.

(** The values of the dictionary that [to_dict] returns. *)
Inductive jvalue :=
  | JNone
  | JInt (z : Z)
  | JStr (s : string)
  | JList (l : list Z)
  | JTuple (l : list Z).

(** [def to_dict(self)] *)
Definition to_dict (self : Contact) : gmap string jvalue :=
  {[ "type"%string := JStr (type self);
     "grid_size"%string := JTuple (grid_size self);
     "grid_group"%string :=
       match grid_group self with Some g => JInt g | None => JNone end;
     "grid_loc"%string :=
       match grid_loc self with
       | Some (x, y) => JTuple [x; y]
       | None => JNone
       end;
     "coordinates"%string := JList (coords self) ]}.

(** A dictionary that a function only reads and whose values it changes in
    place is given by its items in the order of iteration; the keys of such
    a list are distinct.  A lead maps contact numbers to contacts, and the
    leads map lead names to leads. *)
Definition lead_t := list (Z * Contact).
Definition leads_t := list (string * lead_t).

(** [d[k]] and [k in d] *)
Fixpoint alookup {K V} `{EqDecision K} (k : K) (d : list (K * V)) : option V :=
  match d with
  | [] => None
  | (k', v) :: d' => if decide (k = k') then Some v else alookup k d'
  end.

(** A change made to the object stored under the key [k]. *)
Definition amodify {K V} `{EqDecision K} (k : K) (f : V -> V)
    (d : list (K * V)) : list (K * V) :=
  List.map (fun '(k', v) => if decide (k = k') then (k', f v) else (k', v)) d.

(** [def leads_to_dict(leads)] *)
Definition leads_to_dict (leads : leads_t) : gmap string (gmap string jvalue) :=
  fold_left
    (fun out_dict '(lead_name, contacts) =>
       fold_left
         (fun out_dict '(_, contact) =>
            <[name contact := to_dict contact]> out_dict)
         contacts out_dict)
    leads ∅.

(** The body of the loop of [read_mother]: the lead name, the contact
    number and the contact that one line of the file gives. *)
Definition read_mother_line (line : string) : exn + (string * Z * Contact) :=
  let split_line := split_ws (strip line) in
  match getitem split_line 0 with
  | inl e => inl e
  | inr contact_name =>
      match ints (take 3 (drop 1 split_line)) with
      | inl e => inl e
      | inr coords =>
          match getitem split_line 4 with
          | inl e => inl e
          | inr type =>
              match ints (take 2 (drop 5 split_line)) with
              | inl e => inl e
              | inr size =>
                  match match_contact_name contact_name with
                  | None => inl (Exn AttributeError
                                   "'NoneType' object has no attribute 'group'")
                  | Some (lead_name, digits) =>
                      match int digits with
                      | inl e => inl e
                      | inr contact_num =>
                          inr (lead_name, contact_num,
                               Contact_init contact_name contact_num coords
                                 type size)
                      end
                  end
              end
          end
      end
  end.

(** [def read_mother(mother_file)], given the lines of the file.  The
    dictionary of leads is built here, so it is a finite map; a lead that is
    not there yet is created empty on access. *)
Fixpoint read_mother_lines (lines : list string)
    (leads : gmap string (gmap Z Contact)) :
    exn + gmap string (gmap Z Contact) :=
  match lines with
  | [] => inr leads
  | line :: lines' =>
      match read_mother_line line with
      | inl e => inl e
      | inr (lead_name, contact_num, contact) =>
          read_mother_lines lines'
            (<[lead_name :=
                 <[contact_num := contact]> (default ∅ (leads !! lead_name))]>
               leads)
      end
  end.

Definition read_mother (lines : list string) :
    exn + gmap string (gmap Z Contact) :=
  read_mother_lines lines ∅.

Definition set_jack_num (jack_num : string) (c : Contact) : Contact :=
  mkContact (name c) (coords c) (num c) (type c) (grid_size c) (grid_group c)
    (Some jack_num) (grid_loc c).

Definition set_grid_loc (loc : Z * Z) (c : Contact) : Contact :=
  mkContact (name c) (coords c) (num c) (type c) (grid_size c) (grid_group c)
    (jack_num c) (Some loc).

Definition set_grid_group (group : Z) (c : Contact) : Contact :=
  mkContact (name c) (coords c) (num c) (type c) (grid_size c) (Some group)
    (jack_num c) (grid_loc c).

(** What [add_jacksheet] works on: the leads, its list [skipped_leads] and
    the lines it has printed. *)
Record jack_state := mkJack {
  j_leads : leads_t;
  j_skipped : list string;
  j_printed : list string
}.

(** The body of the loop of [add_jacksheet]. *)
Definition add_jacksheet_line (line : string) (st : jack_state) :
    (exn + unit) * jack_state :=
  let split_line := split_ws line in
  match getitem split_line 0 with
  | inl e => (inl e, st)
  | inr jack_num =>
      match getitem split_line 1 with
      | inl e => (inl e, st)
      | inr contact_name =>
          match match_contact_name contact_name with
          | None =>
              (inr tt,
               mkJack (j_leads st) (j_skipped st)
                 (j_printed st ++
                  ["Warning: cannot parse contact " +:+ contact_name +:+
                   ". Skipping"]))
          | Some (lead_name, digits) =>
              match int digits with
              | inl e => (inl e, st)
              | inr contact_num =>
                  match alookup lead_name (j_leads st) with
                  | None =>
                      if bool_decide (lead_name ∈ j_skipped st)
                      then (inr tt, st)
                      else
                        (inr tt,
                         mkJack (j_leads st) (j_skipped st ++ [lead_name])
                           (j_printed st ++
                            ["Warning: skipping lead " +:+ lead_name]))
                  | Some contacts =>
                      match alookup contact_num contacts with
                      | None =>
                          (inr tt,
                           mkJack (j_leads st) (j_skipped st)
                             (j_printed st ++
                              ["Error: neural lead " +:+ lead_name +:+
                               " missing contact " +:+ pretty contact_num]))
                      | Some _ =>
                          (inr tt,
                           mkJack
                             (amodify lead_name
                                (amodify contact_num (set_jack_num jack_num))
                                (j_leads st))
                             (j_skipped st) (j_printed st))
                      end
                  end
              end
          end
      end
  end.

Fixpoint add_jacksheet_lines (lines : list string) (st : jack_state) :
    (exn + unit) * jack_state :=
  match lines with
  | [] => (inr tt, st)
  | line :: lines' =>
      match add_jacksheet_line line st with
      | (inr _, st') => add_jacksheet_lines lines' st'
      | (inl e, st') => (inl e, st')
      end
  end.

(** [def add_jacksheet(leads, jacksheet_file)], given the lines of the file:
    the outcome, the leads afterwards and what was printed. *)
Definition add_jacksheet (leads : leads_t) (lines : list string) :
    (exn + unit) * jack_state :=
  add_jacksheet_lines lines (mkJack leads [] []).

(** The second loop of [add_grid_loc] over the sorted contact numbers of one
    lead, from the group and start number reached so far. *)
Fixpoint assign_grid (previous_grid_size : list Z) (nums : list Z)
    (group start_num : Z) (lead : lead_t) : (exn + unit) * lead_t :=
  match nums with
  | [] => (inr tt, lead)
  | num :: nums' =>
      match alookup num lead with
      | None => (inl (Exn KeyError (pretty num)), lead)
      | Some contact =>
          let '(group, start_num) :=
            if bool_decide (grid_size contact <> previous_grid_size)
            then (group + 1, num) else (group, start_num) in
          match getitem (grid_size contact) 0 with
          | inl _ => (inl (Exn IndexError "tuple index out of range"), lead)
          | inr w =>
              match getitem (grid_size contact) 1 with
              | inl _ => (inl (Exn IndexError "tuple index out of range"), lead)
              | inr h =>
                  let '(group, start_num) :=
                    if (w * h <=? num - start_num)
                    then (group + 1, num) else (group, start_num) in
                  if (w =? 0)
                  then (inl (Exn OtherException
                               "integer division or modulo by zero"), lead)
                  else
                    assign_grid previous_grid_size nums' group start_num
                      (amodify num
                         (fun c =>
                            set_grid_group group
                              (set_grid_loc
                                 ((num - start_num) mod w,
                                  (num - start_num) / w) c))
                         lead)
              end
          end
      end
  end.

(** The body of the outer loop of [add_grid_loc], for one lead. *)
Definition add_grid_loc_lead (lead : lead_t) : (exn + unit) * lead_t :=
  match remove_dups (List.map (fun '(_, contact) => type contact) lead) with
  | _ :: _ :: _ =>
      (inl (Exn OtherException "Cannot convert lead with multiple types"), lead)
  | [] => (inl (Exn KeyError "'pop from an empty set'"), lead)
  | [ty] =>
      let lead :=
        if negb (String.eqb ty "G")
        then List.map (fun '(k, contact) =>
                         (k, set_grid_loc (1, num contact) contact)) lead
        else lead in
      let sorted_contact_nums :=
        sorted (List.map fst lead) (fun n => [VInt n]) in
      match getitem sorted_contact_nums 0 with
      | inl e => (inl e, lead)
      | inr first =>
          match alookup first lead with
          | None => (inl (Exn KeyError (pretty first)), lead)
          | Some contact =>
              assign_grid (grid_size contact) sorted_contact_nums 0 1 lead
          end
      end
  end.

(** [def add_grid_loc(leads)]: the outcome and the leads afterwards. *)
Fixpoint add_grid_loc (leads : leads_t) : (exn + unit) * leads_t :=
  match leads with
  | [] => (inr tt, [])
  | (lead_name, lead) :: rest =>
      match add_grid_loc_lead lead with
      | (inl e, lead') => (inl e, (lead_name, lead') :: rest)
      | (inr _, lead') =>
          let (r, rest') := add_grid_loc rest in
          (r, (lead_name, lead') :: rest')
      end
  end.

(** A contact without the attributes that [add_jacksheet] and
    [add_grid_loc] write. *)
Definition located (c : Contact) : string * list Z * Z * string * list Z :=
  (name c, coords c, num c, type c, grid_size c).

(** The line that [add_jacksheet] prints for a lead that it skips. *)
Definition skipping_lead (lead_name : string) : string :=
  "Warning: skipping lead " +:+ lead_name.

(** A contact that the second loop of [add_grid_loc] has passed, under a
    group number of at least [g]: its grid size has a width other than zero
    and a height, it has a grid location and a group, and the location lies
    within the grid when width and height are positive. *)
Definition placed (g : Z) (c : Contact) : Prop :=
  exists (w h : Z) (rest : list Z) (x y gr : Z),
    grid_size c = w :: h :: rest /\ w <> 0 /\
    grid_loc c = Some (x, y) /\ grid_group c = Some gr /\ g <= gr /\
    (0 < w -> 0 < h -> 0 <= x < w /\ 0 <= y < h).

(** A lead as a dictionary has: distinct contact numbers; here they are
    also at least 1. *)
Definition numbered (l : lead_t) : Prop :=
  NoDup (List.map fst l) /\ forall k, In k (List.map fst l) -> 1 <= k.

(** A lead in which every contact is placed and the group numbers do not
    decrease as the contact numbers grow. *)
Definition grid_ok (l : lead_t) : Prop :=
  (forall n c, alookup n l = Some c -> placed 0 c) /\
  (forall n1 n2 c1 c2 g1 g2,
     alookup n1 l = Some c1 -> alookup n2 l = Some c2 -> n1 <= n2 ->
     grid_group c1 = Some g1 -> grid_group c2 = Some g2 -> g1 <= g2).

(** The leads as seen through [view]: the same keys in the same order,
    each contact replaced by what [view] shows of it. *)
Definition viewmap {V} (view : Contact -> V) (leads : leads_t) :
    list (string * list (Z * V)) :=
  List.map (fun '(lead_name, contacts) =>
              (lead_name, List.map (fun '(k, c) => (k, view c)) contacts))
    leads.

(** The assignments [out_dict[contact.name] = contact.to_dict()] that
    [leads_to_dict] makes, in order. *)
Definition entries (leads : leads_t) : list (string * gmap string jvalue) :=
  flat_map (fun '(_, contacts) =>
              List.map (fun '(_, c) => (name c, to_dict c)) contacts)
    leads.

End VoxMother.

(** Leads on which the functions are run in the examples below. *)
Module VoxSample.
Import VoxMother.

(** One lead of three contacts on grids of two by one, as [read_mother]
    would return it, and the same lead after [add_grid_loc]. *)
Definition la : leads_t :=
  [("LA"%string,
    [(2, Contact_init "LA2" 2 [11; 21; 31] "G" [2; 1]);
     (1, Contact_init "LA1" 1 [10; 20; 30] "G" [2; 1]);
     (3, Contact_init "LA3" 3 [12; 22; 32] "G" [2; 1])])].

Definition la_located : leads_t :=
  [("LA"%string,
    [(2, mkContact "LA2" [11; 21; 31] 2 "G" [2; 1] (Some 0) None (Some (1, 0)));
     (1, mkContact "LA1" [10; 20; 30] 1 "G" [2; 1] (Some 0) None (Some (0, 0)));
     (3, mkContact "LA3" [12; 22; 32] 3 "G" [2; 1] (Some 1) None (Some (0, 0)))])].

(** A lead whose two contacts differ in type, and a lead with a grid of
    width zero. *)
Definition mixed : lead_t :=
  [(1, Contact_init "LB1" 1 [1; 2; 3] "S" [1; 4]);
   (2, Contact_init "LB2" 2 [1; 2; 4] "D" [1; 4])].

Definition flat : lead_t :=
  [(1, Contact_init "LC1" 1 [1; 2; 3] "S" [1; 4]);
   (2, Contact_init "LC2" 2 [1; 2; 4] "S" [0; 4])].

(** A lead whose grid size changes after the second contact, before and
    after [add_grid_loc]. *)
Definition resized : lead_t :=
  [(1, Contact_init "LD1" 1 [1; 2; 3] "G" [2; 1]);
   (2, Contact_init "LD2" 2 [1; 2; 4] "G" [2; 1]);
   (3, Contact_init "LD3" 3 [1; 2; 5] "G" [1; 3]);
   (4, Contact_init "LD4" 4 [1; 2; 6] "G" [1; 3])].

Definition resized_located : lead_t :=
  [(1, mkContact "LD1" [1; 2; 3] 1 "G" [2; 1] (Some 0) None (Some (0, 0)));
   (2, mkContact "LD2" [1; 2; 4] 2 "G" [2; 1] (Some 0) None (Some (1, 0)));
   (3, mkContact "LD3" [1; 2; 5] 3 "G" [1; 3] (Some 1) None (Some (0, 0)));
   (4, mkContact "LD4" [1; 2; 6] 4 "G" [1; 3] (Some 2) None (Some (0, 0)))].

End VoxSample.

(** ** What holds of a handle however it is used *)

(** [handle_inv c r h]: the state [h] of a handle whose pipeline had served
    [c] checksum computations and [r] runs when the handle was constructed. *)
Record handle_inv (c r : nat) (h : Importer.t) : Prop := mk_handle_inv {
  inv_pipeline :
    Importer.pipeline h = None <-> Importer.initialized h = false;
  inv_uninit :
    Importer.initialized h = false ->
    Importer._should_transfer h <> Some true /\ Importer.processed h = false;
  inv_both : Importer.processed h = Importer.transferred h;
  inv_ge :
    (c <= count_calls is_check (Importer.pipeline h))%nat /\
    (r <= count_calls is_run (Importer.pipeline h))%nat;
  inv_unchecked :
    Importer._should_transfer h = None ->
    count_calls is_check (Importer.pipeline h) = c;
  inv_checked :
    Importer.initialized h = true ->
    count_calls is_check (Importer.pipeline h) = c ->
    Importer._should_transfer h = None /\
    Importer.err_check (Importer.errors h) = None;
  inv_recheck :
    Importer._should_transfer h = Some true ->
    Importer.err_check (Importer.errors h) <> None ->
    (c + 2 <= count_calls is_check (Importer.pipeline h))%nat;
  inv_unrun :
    Importer.initialized h = true ->
    count_calls is_run (Importer.pipeline h) = r ->
    Importer.processed h = false /\
    Importer.err_transfer (Importer.errors h) = None /\
    Importer.err_processing (Importer.errors h) = None;
  inv_rerun :
    Importer.processed h = true ->
    Importer.err_transfer (Importer.errors h) <> None \/
    Importer.err_processing (Importer.errors h) <> None ->
    (r + 2 <= count_calls is_run (Importer.pipeline h))%nat
}.

(** * Properties *)

(** ** Call counts of a pipeline *)

Lemma count_calls_check (f : call -> bool) (p : Pipeline) :
  count_calls f (Some (snd (check_checksums p))) =
  (count_calls f (Some p) + (if f CheckChecksums then 1 else 0))%nat.
Proof.
  unfold count_calls, check_checksums; simpl.
  rewrite List.filter_app, List.length_app; simpl.
  destruct (f CheckChecksums); reflexivity.
Qed.

Lemma count_calls_run (f : call -> bool) (p : Pipeline) :
  count_calls f (Some (snd (pipeline_run p))) =
  (count_calls f (Some p) + (if f Run then 1 else 0))%nat.
Proof.
  unfold count_calls, pipeline_run; simpl.
  rewrite List.filter_app, List.length_app; simpl.
  destruct (f Run); reflexivity.
Qed.

(** ** The state of a handle after construction *)

Section ImporterFacts.
Import Importer.

(** What the constructor returns when it returns: a handle on the builder's
    pipeline with every attribute at its initial value, or, when the
    builder raised, a handle without pipeline whose [init] slot holds the
    builder's exception. *)
Lemma init_inv (B : Builders) (type : Z) (kw : dict) (h : t) :
  __init__ B type kw = inr h ->
  exists lbl subj,
    LABELS !! type = Some lbl /\ kw !! "subject"%string = Some subj /\
    ((exists p, h = mk lbl kw subj no_errors None false false false (Some p) true)
     \/ (exists e, h = mk lbl kw subj (mkErrors (Some e) None None None)
                       None true false false None false)).
Proof.
  unfold __init__.
  destruct (PIPELINE_BUILDERS B !! type) as [build|]; [|discriminate].
  destruct (LABELS !! type) as [lbl|]; [|discriminate].
  destruct (kw !! "subject"%string) as [subj|]; [|discriminate].
  intros H. exists lbl, subj. split; [reflexivity|]. split; [reflexivity|].
  destruct (build kw) as [e|p]; inversion H; subst; clear H.
  - right. exists e. reflexivity.
  - left. exists p. reflexivity.
Qed.

(** The constructor raises exactly for an unregistered type or for keyword
    arguments without a subject. *)
Lemma init_returns (B : Builders) (type : Z) (kw : dict) (subj : value) :
  (1 <= type <= 5)%Z -> kw !! "subject"%string = Some subj ->
  exists h, __init__ B type kw = inr h.
Proof.
  intros Hty Hs. unfold __init__. rewrite Hs.
  assert (type = 1 \/ type = 2 \/ type = 3 \/ type = 4 \/ type = 5)%Z
    as Hc by lia.
  destruct Hc as [->|[->|[->|[->| ->]]]]; vm_compute;
    match goal with
    | |- context [match ?b kw with _ => _ end] => destruct (b kw)
    end; eexists; reflexivity.
Qed.

End ImporterFacts.

(** ** Preservation of the invariant *)

Section Invariant.
Import Importer.

Variables c r : nat.

Lemma handle_inv_init (B : Builders) (type : Z) (kw : dict) (h : t) :
  __init__ B type kw = inr h ->
  handle_inv (count_calls is_check (pipeline h))
             (count_calls is_run (pipeline h)) h.
Proof.
  intros H. apply init_inv in H as (lbl & subj & _ & _ & [[p ->]|[e ->]]).
  - constructor; simpl; try (intuition (congruence || lia)).
  - constructor; simpl; try (intuition (congruence || lia)).
Qed.

Lemma handle_inv_check (h : t) :
  handle_inv c r h -> handle_inv c r (snd (check h)).
Proof.
  intros [Hp Hu Hb Hge Huc Hc Hrc Hur Hrr].
  destruct h as [lbl kw subj es st err pr tr [p|] ini];
    unfold check, transferer, check_checksums; simpl in *.
  - destruct (on_check_checksums p (calls p)) as [e|b]; simpl;
      constructor; simpl;
      rewrite ?List.filter_app, ?List.length_app; simpl;
      rewrite ?Nat.add_0_r;
      try (intuition (congruence || lia)).
    intros [= ->] Hne.
    destruct ini; [|intuition congruence].
    destruct (Nat.eq_dec (length (List.filter is_check (calls p))) c)
      as [Heq|Hneq]; [|lia].
    destruct (Hc eq_refl Heq) as [_ Hn]. congruence.
  - constructor; simpl; try (intuition (congruence || lia)).
Qed.

Lemma handle_inv_run (h : t) :
  handle_inv c r h -> handle_inv c r (run h).
Proof.
  intros [Hp Hu Hb Hge Huc Hc Hrc Hur Hrr].
  destruct h as [lbl kw subj es st err pr tr [p|] ini];
    unfold run, pipeline_run; simpl in *.
  - destruct (on_run p (calls p)) as [e|[]]; simpl;
      [destruct (is_UnTransferrable e)|];
      constructor; simpl;
      rewrite ?List.filter_app, ?List.length_app; simpl;
      rewrite ?Nat.add_0_r;
      try (intuition (congruence || lia)).
    all: destruct ini; [|intuition congruence].
    all: intros Hpr Herr;
      destruct (Nat.eq_dec (length (List.filter is_run (calls p))) r)
        as [Heq|Hneq]; [|lia];
      destruct (Hur eq_refl Heq) as (? & ? & ?); intuition congruence.
  - constructor; simpl; try (intuition (congruence || lia)).
Qed.

Lemma handle_inv_should_transfer (h : t) :
  handle_inv c r h -> handle_inv c r (snd (should_transfer h)).
Proof.
  intros H. unfold should_transfer.
  destruct (initialized h && bool_decide (_should_transfer h = None));
    [apply handle_inv_check|]; exact H.
Qed.

Lemma handle_inv_step (h : t) (o : op) :
  handle_inv c r h -> handle_inv c r (step h o).
Proof.
  destruct o; simpl;
    auto using handle_inv_check, handle_inv_should_transfer, handle_inv_run.
Qed.

Lemma handle_inv_exec (ops : list op) (h : t) :
  handle_inv c r h -> handle_inv c r (exec ops h).
Proof.
  unfold exec. revert h.
  induction ops as [|o ops IH]; simpl; intros h H; [exact H|].
  apply IH, handle_inv_step, H.
Qed.

End Invariant.

(** ** run() *)

Section Run.
Import Importer.

(** C2.  On a handle that the constructor has just returned initialized,
    [run()] has one of three outcomes, decided by the pipeline's run: when
    it raises [UnTransferrableException], [processed] and [transferred]
    stay false and the transfer slot is the only slot populated; when it
    raises anything else, they stay false and the processing slot is the
    only slot populated; when it returns, both become true and every slot,
    the transfer and processing slots among them, is null. *)
Theorem run_fresh_outcomes (B : Builders) (type : Z) (kw : dict) (h : t) :
  __init__ B type kw = inr h ->
  initialized h = true ->
  exists p, pipeline h = Some p /\
    match on_run p (calls p) with
    | inl e =>
        processed (run h) = false /\ transferred (run h) = false /\
        errored (run h) = true /\
        errors (run h) =
          (if is_UnTransferrable e
           then mkErrors None None (Some e) None
           else mkErrors None None None (Some e))
    | inr _ =>
        processed (run h) = true /\ transferred (run h) = true /\
        errored (run h) = false /\
        err_transfer (errors (run h)) = None /\
        err_processing (errors (run h)) = None /\
        errors (run h) = no_errors
    end.
Proof.
  intros H Hini.
  apply init_inv in H as (lbl & subj & _ & _ & [[p ->]|[e ->]]);
    [|discriminate Hini].
  exists p. split; [reflexivity|].
  unfold run, pipeline_run; simpl.
  destruct (on_run p (calls p)) as [e|[]]; simpl.
  - destruct (is_UnTransferrable e); simpl; auto.
  - repeat split.
Qed.

Lemma run_fresh_outcomes_witness :
  __init__ (Sample.builders_of Sample.flaky_run) BUILD_EVENTS
    Sample.kw_subject = inr (Sample.handle_of Sample.flaky_run) /\
  initialized (Sample.handle_of Sample.flaky_run) = true /\
  exists p, pipeline (Sample.handle_of Sample.flaky_run) = Some p /\
    match on_run p (calls p) with
    | inl e =>
        processed (run (Sample.handle_of Sample.flaky_run)) = false /\
        transferred (run (Sample.handle_of Sample.flaky_run)) = false /\
        errored (run (Sample.handle_of Sample.flaky_run)) = true /\
        errors (run (Sample.handle_of Sample.flaky_run)) =
          (if is_UnTransferrable e
           then mkErrors None None (Some e) None
           else mkErrors None None None (Some e))
    | inr _ =>
        processed (run (Sample.handle_of Sample.flaky_run)) = true /\
        transferred (run (Sample.handle_of Sample.flaky_run)) = true /\
        errored (run (Sample.handle_of Sample.flaky_run)) = false /\
        err_transfer (errors (run (Sample.handle_of Sample.flaky_run))) = None /\
        err_processing (errors (run (Sample.handle_of Sample.flaky_run))) = None /\
        errors (run (Sample.handle_of Sample.flaky_run)) = no_errors
    end.
Proof.
  split; [reflexivity|]. split; [reflexivity|].
  exact (run_fresh_outcomes (Sample.builders_of Sample.flaky_run) BUILD_EVENTS
           Sample.kw_subject (Sample.handle_of Sample.flaky_run)
           eq_refl eq_refl).
Defined.

(** C3, evaluated where it fails.  A handle whose builder raised has no
    pipeline; [run()] on it stores the [AttributeError] of the call on
    [None] in the processing slot, which was null before, so the handle is
    not left as it was.  [errored], [processed] and [transferred] keep
    their values. *)
Theorem run_uninitialized_sets_processing :
  __init__ Sample.builders_raising BUILD_EVENTS Sample.kw_subject =
    inr Sample.failed_handle /\
  initialized Sample.failed_handle = false /\
  err_processing (errors Sample.failed_handle) = None /\
  err_processing (errors (run Sample.failed_handle)) =
    Some (none_has_no_attribute "run") /\
  errored (run Sample.failed_handle) = errored Sample.failed_handle /\
  processed (run Sample.failed_handle) = processed Sample.failed_handle /\
  transferred (run Sample.failed_handle) = transferred Sample.failed_handle /\
  ~ run_is_noop Sample.failed_handle.
Proof.
  repeat split. unfold run_is_noop. simpl. discriminate.
Qed.

End Run.

(** ** check() and the should_transfer property *)

Section Check.
Import Importer.

Lemma step_initialized (h : t) (o : op) : initialized (step h o) = initialized h.
Proof.
  destruct o; simpl; unfold should_transfer, check, run, transferer.
  - destruct (pipeline h) as [p|]; [destruct (check_checksums p) as [[e|b] p']|];
      reflexivity.
  - destruct (initialized h && bool_decide (_should_transfer h = None));
      [|reflexivity].
    destruct (pipeline h) as [p|]; [destruct (check_checksums p) as [[e|b] p']|];
      reflexivity.
  - destruct (pipeline h) as [p|]; [|reflexivity].
    destruct (pipeline_run p) as [[e|u] p']; [destruct (is_UnTransferrable e)|];
      reflexivity.
Qed.

Lemma exec_initialized (ops : list op) (h : t) :
  initialized (exec ops h) = initialized h.
Proof.
  unfold exec. revert h. induction ops as [|o ops IH]; simpl; intros h;
    [reflexivity|].
  rewrite IH. apply step_initialized.
Qed.

(** A handle reached from the constructor has a pipeline exactly when it is
    initialized. *)
Lemma exec_pipeline (B : Builders) (type : Z) (kw : dict) (h0 : t)
    (ops : list op) :
  __init__ B type kw = inr h0 ->
  initialized h0 = true ->
  exists p, pipeline (exec ops h0) = Some p.
Proof.
  intros H Hini.
  pose proof (handle_inv_exec _ _ ops h0 (handle_inv_init B type kw h0 H))
    as [Hp _ _ _ _ _ _ _ _].
  rewrite exec_initialized, Hini in Hp.
  destruct (pipeline (exec ops h0)) as [p|]; [eauto|].
  destruct Hp as [Hp _]. discriminate (Hp eq_refl).
Qed.

(** What [check()] does on a handle that has a pipeline, in any state. *)
Lemma check_with_pipeline (h : t) (p : Pipeline) :
  pipeline h = Some p ->
  fst (check h) = Some (next_check_answer p) /\
  _should_transfer (snd (check h)) = Some (next_check_answer p) /\
  count_calls is_check (pipeline (snd (check h))) =
    S (count_calls is_check (pipeline h)) /\
  (forall e, on_check_checksums p (calls p) = inl e ->
     errored (snd (check h)) = true /\
     err_check (errors (snd (check h))) = Some e) /\
  (forall b, on_check_checksums p (calls p) = inr b ->
     errored (snd (check h)) = errored h /\
     errors (snd (check h)) = errors h).
Proof.
  intros Hp. unfold check, transferer, next_check_answer, check_checksums.
  rewrite Hp; simpl.
  destruct (on_check_checksums p (calls p)) as [e|b]; simpl;
    rewrite List.filter_app, List.length_app; simpl.
  - split; [reflexivity|]. split; [reflexivity|]. split; [lia|].
    split; [intros ? [= <-]; auto|intros ? [=]].
  - split; [reflexivity|]. split; [reflexivity|]. split; [lia|].
    split; [intros ? [=]|intros ? [= <-]; auto].
Qed.

(** A read of the property when a value is memoized, or when the handle is
    not initialized, returns the stored value and changes nothing. *)
Lemma should_transfer_stored (h : t) :
  initialized h = false \/ _should_transfer h <> None ->
  should_transfer h = (_should_transfer h, h).
Proof.
  intros H. unfold should_transfer.
  destruct (initialized h); simpl.
  - destruct H as [H|H]; [discriminate|].
    rewrite bool_decide_eq_false_2; [reflexivity|exact H].
  - reflexivity.
Qed.

Lemma reads_stored (h : t) (n : nat) :
  initialized h = false \/ _should_transfer h <> None ->
  exec (repeat OpShouldTransfer n) h = h.
Proof.
  intros H. induction n as [|n IH]; [reflexivity|].
  unfold exec in *. simpl. rewrite should_transfer_stored by exact H. exact IH.
Qed.

(** C10.  On a handle whose builder raised, the property returns [None] and
    leaves the handle as it is, however often it is read: there is no
    pipeline whose checksums could be computed, no slot is written and
    [errored] keeps its value, whereas a call of [check()] would have stored
    a value. *)
Theorem should_transfer_uninitialized (B : Builders) (type : Z) (kw : dict)
    (h : t) :
  __init__ B type kw = inr h ->
  initialized h = false ->
  pipeline h = None /\
  _should_transfer (snd (check h)) <> None /\
  forall n : nat,
    exec (repeat OpShouldTransfer n) h = h /\
    should_transfer (exec (repeat OpShouldTransfer n) h) = (None, h).
Proof.
  intros H Hini.
  apply init_inv in H as (lbl & subj & _ & _ & [[p ->]|[e ->]]);
    [discriminate Hini|].
  split; [reflexivity|]. split; [discriminate|].
  intros n. rewrite reads_stored by (left; reflexivity).
  split; reflexivity.
Qed.

Lemma should_transfer_uninitialized_witness :
  __init__ Sample.builders_raising BUILD_EVENTS Sample.kw_subject =
    inr Sample.failed_handle /\
  initialized Sample.failed_handle = false /\
  pipeline Sample.failed_handle = None /\
  _should_transfer (snd (check Sample.failed_handle)) <> None /\
  forall n : nat,
    exec (repeat OpShouldTransfer n) Sample.failed_handle =
      Sample.failed_handle /\
    should_transfer (exec (repeat OpShouldTransfer n) Sample.failed_handle) =
      (None, Sample.failed_handle).
Proof.
  split; [reflexivity|]. split; [reflexivity|].
  exact (should_transfer_uninitialized Sample.builders_raising BUILD_EVENTS
           Sample.kw_subject Sample.failed_handle eq_refl eq_refl).
Defined.

End Check.

(** ** Memoization *)

Section Memo.
Import Importer.

(** C5.  On an initialized handle just constructed, the first read of the
    property does what [check()] does: one checksum computation, whose answer
    is returned and stored.  Every later read returns the stored value and
    leaves the handle, and so the pipeline, untouched; reads alone therefore
    compute the checksums at most once.  A call of [check()], in whatever
    state the handle is, computes the checksums once more and stores the new
    answer over the old one. *)
Theorem should_transfer_memoized (B : Builders) (type : Z) (kw : dict)
    (h0 : t) :
  __init__ B type kw = inr h0 ->
  initialized h0 = true ->
  (exists p, pipeline h0 = Some p /\
     should_transfer h0 = check h0 /\
     fst (should_transfer h0) = Some (next_check_answer p) /\
     _should_transfer (snd (should_transfer h0)) = Some (next_check_answer p) /\
     count_calls is_check (pipeline (snd (should_transfer h0))) =
       S (count_calls is_check (pipeline h0))) /\
  (forall n : nat,
     exec (repeat OpShouldTransfer n) (snd (should_transfer h0)) =
       snd (should_transfer h0) /\
     should_transfer (exec (repeat OpShouldTransfer n) (snd (should_transfer h0))) =
       should_transfer h0) /\
  (forall n : nat,
     (count_calls is_check (pipeline (exec (repeat OpShouldTransfer n) h0)) <=
      S (count_calls is_check (pipeline h0)))%nat) /\
  (forall ops : list op,
     _should_transfer (exec ops h0) <> None ->
     should_transfer (exec ops h0) =
       (_should_transfer (exec ops h0), exec ops h0)) /\
  (forall ops : list op,
     exists p, pipeline (exec ops h0) = Some p /\
       fst (check (exec ops h0)) = Some (next_check_answer p) /\
       _should_transfer (snd (check (exec ops h0))) =
         Some (next_check_answer p) /\
       count_calls is_check (pipeline (snd (check (exec ops h0)))) =
         S (count_calls is_check (pipeline (exec ops h0)))).
Proof.
  intros H Hini.
  pose proof H as H'.
  apply init_inv in H' as (lbl & subj & _ & _ & [[p Eh]|[e ->]]);
    [|discriminate Hini].
  assert (pipeline h0 = Some p) as Hp by (rewrite Eh; reflexivity).
  assert (should_transfer h0 = check h0) as Hfirst.
  { rewrite Eh. unfold should_transfer, check, transferer, check_checksums.
    simpl. destruct (on_check_checksums p (calls p)); reflexivity. }
  destruct (check_with_pipeline h0 p Hp) as (Hr & Hst & Hcount & _).
  assert (_should_transfer (snd (should_transfer h0)) <> None) as Hmemo
    by (rewrite Hfirst, Hst; discriminate).
  split; [|split; [|split; [|split]]].
  - exists p. rewrite Hfirst. auto.
  - intros n. rewrite reads_stored by (right; exact Hmemo).
    split; [reflexivity|].
    rewrite should_transfer_stored by (right; exact Hmemo).
    rewrite Hfirst in *. rewrite Hst, <- Hr. symmetry. apply surjective_pairing.
  - intros [|n]; [simpl; lia|].
    change (exec (repeat OpShouldTransfer (S n)) h0)
      with (exec (repeat OpShouldTransfer n) (snd (should_transfer h0))).
    rewrite reads_stored by (right; exact Hmemo).
    rewrite Hfirst, Hcount. lia.
  - intros ops Hne. apply should_transfer_stored. right. exact Hne.
  - intros ops.
    destruct (exec_pipeline B type kw h0 ops H Hini) as [q Hq].
    exists q. split; [exact Hq|].
    destruct (check_with_pipeline _ q Hq) as (? & ? & ? & _). auto.
Qed.

Lemma should_transfer_memoized_witness :
  __init__ (Sample.builders_of Sample.flaky_check) BUILD_EVENTS
    Sample.kw_subject = inr (Sample.handle_of Sample.flaky_check) /\
  initialized (Sample.handle_of Sample.flaky_check) = true /\
  fst (should_transfer (Sample.handle_of Sample.flaky_check)) = Some false /\
  fst (should_transfer (snd (should_transfer
         (Sample.handle_of Sample.flaky_check)))) = Some false /\
  fst (check (snd (should_transfer
         (Sample.handle_of Sample.flaky_check)))) = Some true /\
  forall n : nat,
    (count_calls is_check
       (pipeline (exec (repeat OpShouldTransfer n)
                    (Sample.handle_of Sample.flaky_check))) <=
     S (count_calls is_check (pipeline (Sample.handle_of Sample.flaky_check))))%nat.
Proof.
  split; [reflexivity|]. split; [reflexivity|].
  split; [reflexivity|]. split; [reflexivity|]. split; [reflexivity|].
  exact (proj1 (proj2 (proj2
    (should_transfer_memoized (Sample.builders_of Sample.flaky_check)
       BUILD_EVENTS Sample.kw_subject (Sample.handle_of Sample.flaky_check)
       eq_refl eq_refl)))).
Defined.

End Memo.

(** ** Error slots across repeated calls *)

Section Retries.
Import Importer.










End Retries.

(** ** The fallback between the two event strategies *)

Section Cascade.
Import Importer.
Context {I : Type} (R : IndexReader I) (B : Builders).

Lemma existing_kwargs_subject (self : Automator.t) (subject experiment : string)
    (session : Z) (index : I) (do_compare : bool) (kw : dict) :
  Automator.build_existing_event_importer_kwargs R self subject experiment
    session index do_compare = inr kw ->
  kw !! "subject"%string = Some (VStr subject).
Proof.
  unfold Automator.build_existing_event_importer_kwargs.
  destruct (getitem _ _) as [?|montage]; [discriminate|].
  destruct (get_value R index "subject_alias" ∅) as [?|code]; [discriminate|].
  destruct (except_KeyError (get_value_int _ _ _ _) _) as [?|os]; [discriminate|].
  destruct (except_KeyError (get_value _ _ _ _) _) as [?|oe]; [discriminate|].
  intros [= <-]. apply lookup_insert_eq.
Qed.

(** One pass through the body of the loop, from any state of the list. *)
Lemma cascade_step (kw : dict) (subj : value) (s : Automator.t (I:=I)) :
  kw !! "subject"%string = Some subj ->
  exists kept : list t,
    Automator.existing_events_importer B kw s =
      (inr tt,
       Automator.mk (Automator.protocol s) (Automator.index s)
         (Automator.importers s ++ kept)) /\
    cascade_retains B kw kept.
Proof.
  intros Hs.
  destruct (init_returns B BUILD_EVENTS kw _ ltac:(vm_compute; intuition discriminate) Hs)
    as [build0 E0].
  destruct (init_returns B CONVERT_EVENTS kw _ ltac:(vm_compute; intuition discriminate) Hs)
    as [convert0 E1].
  destruct (check build0) as [r build] eqn:Ec0.
  destruct (check convert0) as [r2 convert] eqn:Ec1.
  pose proof (init_inv _ _ _ _ E0) as (lbl0 & s0 & L0 & _ & K0).
  pose proof (init_inv _ _ _ _ E1) as (lbl1 & s1 & L1 & _ & K1).
  assert (label build0 = lbl0 /\ kwargs build0 = kw) as [Hl0 Hk0]
    by (destruct K0 as [[? ->]|[? ->]]; split; reflexivity).
  assert (label convert0 = lbl1 /\ kwargs convert0 = kw) as [Hl1 Hk1]
    by (destruct K1 as [[? ->]|[? ->]]; split; reflexivity).
  vm_compute in L0, L1. injection L0 as <-. injection L1 as <-.
  exists (if negb (truthy r) && negb (errored build) then []
          else if negb (errored build) then [build]
          else if negb (truthy r2) && negb (errored convert) then []
          else if negb (errored convert) then [convert]
          else [build]).
  split.
  - unfold Automator.existing_events_importer, Automator.bind, Automator.lift,
      Automator.ret, Automator.append.
    rewrite E0, Ec0. destruct s as [proto ix imps].
    destruct (truthy r), (errored build); simpl;
      rewrite ?E1, ?Ec1, ?app_nil_r; try reflexivity;
      destruct (truthy r2), (errored convert); simpl;
      rewrite ?app_nil_r; reflexivity.
  - exists build0, build, r.
    split; [exact E0|]. split; [exact Hl0|]. split; [exact Ec0|].
    split; [intros -> ->; reflexivity|].
    split; [intros -> ->; reflexivity|].
    intros ->. exists convert0, convert, r2.
    split; [exact E1|]. split; [exact Hl1|].
    split; [congruence|]. split; [exact Ec1|].
    rewrite andb_false_r. simpl.
    split; [intros -> ->; reflexivity|].
    split; [intros -> ->; reflexivity|].
    intros ->. rewrite andb_false_r. reflexivity.
Qed.

(** The loop of [add_existing_events_importers] over any list of tuples,
    from any state of the list of handles. *)
Lemma existing_events_loop (self : Automator.t (I:=I))
    (l : list (string * string * Z * I)) (s : Automator.t (I:=I)) :
  exists (reached : nat) (retained : list (list t)),
    Forall2
      (fun '(subject, experiment, session, index) kept =>
         exists kw : dict,
           Automator.build_existing_event_importer_kwargs R self subject
             experiment session index true = inr kw /\
           cascade_retains B kw kept)
      (take reached l) retained /\
    snd (Automator.for_each l
           (fun '(subject, experiment, session, index) =>
              Automator.bind
                (Automator.lift
                   (Automator.build_existing_event_importer_kwargs R self
                      subject experiment session index true))
                (fun kw => Automator.existing_events_importer B kw)) s) =
      Automator.mk (Automator.protocol s) (Automator.index s)
        (Automator.importers s ++ concat retained) /\
    match
      fst (Automator.for_each l
             (fun '(subject, experiment, session, index) =>
                Automator.bind
                  (Automator.lift
                     (Automator.build_existing_event_importer_kwargs R self
                        subject experiment session index true))
                  (fun kw => Automator.existing_events_importer B kw)) s)
    with
    | inr _ => reached = length l
    | inl e =>
        exists subject experiment session index,
          l !! reached = Some (subject, experiment, session, index) /\
          Automator.build_existing_event_importer_kwargs R self subject
            experiment session index true = inl e
    end.
Proof.
  set (body := fun '(subject, experiment, session, index) =>
                 Automator.bind _ _).
  revert s.
  induction l as [|[[[subject experiment] session] index] l IH]; intros s.
  - exists 0%nat, []. split; [constructor|].
    split; [|reflexivity].
    destruct s; simpl. rewrite app_nil_r. reflexivity.
  - assert (body (subject, experiment, session, index) s =
            match Automator.build_existing_event_importer_kwargs R self
                    subject experiment session index true with
            | inl e => (inl e, s)
            | inr kw => Automator.existing_events_importer B kw s
            end) as Hb by reflexivity.
    cbn [Automator.for_each]. unfold Automator.bind. rewrite Hb. clear Hb.
    destruct (Automator.build_existing_event_importer_kwargs R self subject
                experiment session index true) as [e|kw] eqn:Ekw.
    + exists 0%nat, []. split; [constructor|].
      split; [destruct s; simpl; rewrite app_nil_r; reflexivity|].
      simpl. exists subject, experiment, session, index.
      split; [reflexivity|exact Ekw].
    + destruct (cascade_step kw _ s (existing_kwargs_subject _ _ _ _ _ _ _ Ekw))
        as (kept & Estep & Hkept).
      rewrite Estep.
      destruct (IH (Automator.mk (Automator.protocol s) (Automator.index s)
                      (Automator.importers s ++ kept)))
        as (reached & retained & HF & Hs & Hr).
      exists (S reached), (kept :: retained).
      split; [constructor; [exists kw; split; assumption|exact HF]|].
      split; [rewrite Hs; simpl; rewrite <- app_assoc; reflexivity|].
      destruct (fst (Automator.for_each l body _)) as [e|[]].
      * exact Hr.
      * simpl. f_equal. exact Hr.
Qed.

(** C1.  The phase for existing sessions goes through the triples that
    [session_indexes] yields, in order, and what it appends to the list of
    handles is, triple after triple, what the fallback keeps of that
    session.  For each triple the BuildEvents handle is constructed on the
    session's keyword arguments and checked.  When its check is negative and
    it is error-free, nothing is kept; when it is error-free with a positive
    check, exactly that handle is kept.  When the handle errored, a
    ConvertEvents handle is constructed from the same keyword arguments and
    checked: nothing is kept when its check is negative and it is
    error-free, the ConvertEvents handle alone when it is error-free with a
    positive check, and the BuildEvents handle alone when both errored.  The
    phase reaches every triple when it returns; it raises only what building
    the keyword arguments of a triple raises, and then it has dealt with the
    triples before that one in the same way. *)
Theorem existing_events_cascade (self : Automator.t (I:=I)) :
  exists (reached : nat) (retained : list (list t)),
    Forall2
      (fun '(subject, experiment, session, index) kept =>
         exists kw : dict,
           Automator.build_existing_event_importer_kwargs R self subject
             experiment session index true = inr kw /\
           cascade_retains B kw kept)
      (take reached (Automator.session_indexes R self)) retained /\
    snd (Automator.add_existing_events_importers R B self) =
      Automator.mk (Automator.protocol self) (Automator.index self)
        (Automator.importers self ++ concat retained) /\
    match fst (Automator.add_existing_events_importers R B self) with
    | inr _ => reached = length (Automator.session_indexes R self)
    | inl e =>
        exists subject experiment session index,
          Automator.session_indexes R self !! reached =
            Some (subject, experiment, session, index) /\
          Automator.build_existing_event_importer_kwargs R self subject
            experiment session index true = inl e
    end.
Proof.
  unfold Automator.add_existing_events_importers.
  exact (existing_events_loop self (Automator.session_indexes R self) self).
Qed.

End Cascade.

Lemma existing_events_cascade_witness :
  fst (Automator.add_existing_events_importers Sample.reader
         Sample.builders_fallback Sample.automator) = inr tt /\
  List.map Importer.label
    (Automator.importers
       (snd (Automator.add_existing_events_importers Sample.reader
               Sample.builders_fallback Sample.automator))) =
    ["Events Converter"; "Events Converter";
     "Events Converter"; "Events Converter"]%string /\
  exists retained : list (list Importer.t),
    length retained =
      length (Automator.session_indexes Sample.reader Sample.automator) /\
    Automator.importers
      (snd (Automator.add_existing_events_importers Sample.reader
              Sample.builders_fallback Sample.automator)) =
      concat retained.
Proof.
  assert (fst (Automator.add_existing_events_importers Sample.reader
                 Sample.builders_fallback Sample.automator) = inr tt) as Hret
    by (vm_compute; reflexivity).
  split; [exact Hret|]. split; [vm_compute; reflexivity|].
  destruct (existing_events_cascade Sample.reader Sample.builders_fallback
              Sample.automator) as (reached & retained & HF & Hs & Hr).
  rewrite Hret in Hr. exists retained. split.
  - rewrite <- (Forall2_length _ _ _ HF), Hr, firstn_all. reflexivity.
  - rewrite Hs. reflexivity.
Defined.

(** ** Session numbers for future sessions *)

Lemma fold_max_spec (l : list Z) (m : Z) :
  let r := fold_left (fun m y => if Z.ltb m y then y else m) l m in
  (r = m \/ In r l) /\ m <= r /\ forall x, In x l -> x <= r.
Proof.
  revert m. induction l as [|y l IH]; simpl; intros m.
  - split; [left; reflexivity|]. split; [lia|]. intros x [].
  - specialize (IH (if m <? y then y else m)).
    destruct IH as (Hin & Hge & Hall).
    destruct (Z.ltb_spec m y) as [Hlt|Hle].
    + split; [right; destruct Hin as [->|Hin]; auto|].
      split; [lia|]. intros x [<-|Hx]; auto.
    + split; [destruct Hin as [->|Hin]; auto|].
      split; [lia|]. intros x [<-|Hx]; [lia|auto].
Qed.

(** [max(l)] is the greatest element of a non-empty list. *)
Lemma max_int_greatest (l : list Z) (N : Z) :
  In N l -> (forall x, In x l -> x <= N) -> max_int l = inr N.
Proof.
  destruct l as [|y l]; [intros []|].
  intros HN Hall. unfold max_int. f_equal.
  destruct (fold_max_spec l y) as (Hin & Hge & Hle).
  set (r := fold_left _ l y) in *.
  assert (In r (y :: l)) as Hr by (destruct Hin as [->|Hin]; simpl; auto).
  assert (N <= r) by (destruct HN as [<-|HN]; [exact Hge|auto]).
  specialize (Hall r Hr). lia.
Qed.

(** The future-session loop iterates over the keys of [EXPERIMENTS]. *)
Lemma future_phase_experiments :
  (map_to_list Automator.EXPERIMENTS).*1 = ["r1"%string].
Proof. reflexivity. Qed.

Section Future.
Import Importer.
Context {I : Type} (R : IndexReader I) (B : Builders).

(** The keyword arguments of one pass through the inner loop of the
    future-session phase, for the value that the loop variable [experiment]
    has in that pass.  The handle built on them is a BuildEvents handle.
    Without a session for the subject, that value and the latest montage,
    they hold session 0, original session 0 and the value itself as original
    experiment.  With sessions of which N is the greatest they hold session
    N+1; as original session the recorded one plus one, or N+1 when looking
    it up raises [KeyError]; as original experiment the recorded one, or the
    value itself when looking it up raises [KeyError]. *)
Lemma future_kwargs_session_numbers (self : Automator.t (I:=I)) (subj_index : I)
    (subject max_montage experiment : string) (kw : dict) :
  Automator.future_events_importer_kwargs R self subj_index subject
    max_montage experiment = inr kw ->
  (exists imp : t,
     __init__ B BUILD_EVENTS kw = inr imp /\
     label imp = "Events Builder"%string /\ kwargs imp = kw) /\
  kw !! "new_experiment"%string = Some (VStr experiment) /\
  (sessions R
     (filtered R subj_index {[ "montage"%string := VStr max_montage;
                               "experiment"%string := VStr experiment ]}) ∅ = [] ->
   kw !! "session"%string = Some (VInt 0) /\
   kw !! "original_session"%string = Some (VInt 0) /\
   kw !! "experiment"%string = Some (VStr experiment)) /\
  (forall N : Z,
     In N (sessions R
             (filtered R subj_index {[ "montage"%string := VStr max_montage;
                                       "experiment"%string := VStr experiment ]}) ∅) ->
     (forall x : Z,
        In x (sessions R
                (filtered R subj_index {[ "montage"%string := VStr max_montage;
                                          "experiment"%string := VStr experiment ]}) ∅) ->
        x <= N) ->
     kw !! "session"%string = Some (VInt (N + 1)) /\
     (forall v : Z,
        get_value_int R
          (filtered R subj_index {[ "montage"%string := VStr max_montage;
                                    "experiment"%string := VStr experiment ]})
          "original_session" {[ "session"%string := VInt N ]} = inr v ->
        kw !! "original_session"%string = Some (VInt (v + 1))) /\
     (forall e : exn,
        get_value_int R
          (filtered R subj_index {[ "montage"%string := VStr max_montage;
                                    "experiment"%string := VStr experiment ]})
          "original_session" {[ "session"%string := VInt N ]} = inl e ->
        is_KeyError e = true ->
        kw !! "original_session"%string = Some (VInt (N + 1))) /\
     (forall x : string,
        get_value R
          (filtered R subj_index {[ "montage"%string := VStr max_montage;
                                    "experiment"%string := VStr experiment ]})
          "original_experiment" {[ "session"%string := VInt N ]} = inr x ->
        kw !! "experiment"%string = Some (VStr x)) /\
     (forall e : exn,
        get_value R
          (filtered R subj_index {[ "montage"%string := VStr max_montage;
                                    "experiment"%string := VStr experiment ]})
          "original_experiment" {[ "session"%string := VInt N ]} = inl e ->
        is_KeyError e = true ->
        kw !! "experiment"%string = Some (VStr experiment))).
Proof.
  unfold Automator.future_events_importer_kwargs.
  set (exp_index := filtered R subj_index _).
  intros H.
  assert (kw !! "subject"%string = Some (VStr subject) /\
          kw !! "new_experiment"%string = Some (VStr experiment)) as [Hs Hn].
  { destruct (sessions R exp_index ∅) as [|s0 ss];
      [|destruct (max_int (s0 :: ss)) as [?|N]; [discriminate|];
        destruct (except_KeyError _ (N + 1)) as [?|os]; [discriminate|];
        destruct (except_KeyError _ experiment) as [?|oe]; [discriminate|]];
      destruct (getitem _ 1) as [?|num]; try discriminate;
      destruct (get_value R subj_index _ _) as [?|code]; try discriminate;
      injection H as <-; split; reflexivity. }
  split; [|split; [exact Hn|split]].
  - destruct (init_returns B BUILD_EVENTS kw _
                ltac:(vm_compute; intuition discriminate) Hs) as [imp E].
    exists imp. split; [exact E|].
    apply init_inv in E as (lbl & s & L & _ & K).
    vm_compute in L. injection L as <-.
    destruct K as [[? ->]|[? ->]]; split; reflexivity.
  - intros Hnil. rewrite Hnil in H.
    destruct (getitem _ 1) as [?|num]; [discriminate|].
    destruct (get_value R subj_index _ _) as [?|code]; [discriminate|].
    injection H as <-. repeat split.
  - intros N HN Hmax.
    pose proof (max_int_greatest _ N HN Hmax) as Em.
    destruct (sessions R exp_index ∅) as [|s0 ss]; [destruct HN|].
    rewrite Em in H.
    destruct (get_value_int R exp_index "original_session" _) as [e1|v] eqn:E1;
      simpl in H;
      [destruct (is_KeyError e1) eqn:K1; [|discriminate]|];
      (destruct (get_value R exp_index "original_experiment" _) as [e2|x] eqn:E2;
       simpl in H;
       [destruct (is_KeyError e2) eqn:K2; [|discriminate]|]);
      (destruct (getitem _ 1) as [?|num]; [discriminate|]);
      (destruct (get_value R subj_index _ _) as [?|code]; [discriminate|]);
      injection H as <-;
      (split; [reflexivity|]);
      (split; [intros ? [= <-]; reflexivity || intros ? [=]|]);
      (split; [intros ? [= <-] _; reflexivity || intros ? [=]|]);
      (split; [intros ? [= <-]; reflexivity || intros ? [=]
              |intros ? [= <-] _; reflexivity || intros ? [=]]).
Qed.

End Future.

Lemma future_kwargs_session_numbers_witness :
  Automator.future_events_importer_kwargs Sample.reader Sample.automator
    Sample.index_R1001P "R1001P" "0.0" "r1" = inr Sample.kw_next_r1 /\
  Sample.kw_next_r1 !! "session"%string = Some (VInt (1 + 1)) /\
  Sample.kw_next_r1 !! "original_session"%string = Some (VInt (4 + 1)) /\
  Sample.kw_next_r1 !! "experiment"%string = Some (VStr "catFR1").
Proof.
  assert (Automator.future_events_importer_kwargs Sample.reader
            Sample.automator Sample.index_R1001P "R1001P" "0.0" "r1" =
          inr Sample.kw_next_r1) as Hkw by (vm_compute; reflexivity).
  split; [exact Hkw|].
  destruct (future_kwargs_session_numbers Sample.reader
              (Sample.builders_of (Sample.steady true)) Sample.automator
              Sample.index_R1001P "R1001P" "0.0" "r1" Sample.kw_next_r1 Hkw)
    as (_ & _ & _ & Hmax).
  destruct (Hmax 1) as (Hsess & Hos & _ & Hoe & _).
  - vm_compute. right. left. reflexivity.
  - vm_compute. intros x [<-|[<-|[]]]; discriminate.
  - split; [exact Hsess|]. split.
    + apply Hos. vm_compute. reflexivity.
    + apply Hoe. vm_compute. reflexivity.
Defined.

(** ** The order of the phases *)

Section Phases.
Import Automator.
Context {I : Type} (R : IndexReader I) (B : Builders).

Lemma appends_ret {A} (a : A) : appends_only (I:=I) (ret a).
Proof.
  intros [proto ix imps]. unfold ret, restart; simpl.
  rewrite app_nil_r. reflexivity.
Qed.

Lemma appends_lift {A} (r : exn + A) : appends_only (I:=I) (lift r).
Proof.
  intros [proto ix imps]. unfold lift, restart; simpl.
  rewrite app_nil_r. reflexivity.
Qed.

Lemma appends_append (imp : Importer.t) : appends_only (I:=I) (append imp).
Proof. intros [proto ix imps]. reflexivity. Qed.

Lemma appends_bind {A C} (m : M (I:=I) A) (k : A -> M (I:=I) C) :
  appends_only m -> (forall a, appends_only (k a)) -> appends_only (bind m k).
Proof.
  intros Hm Hk self. unfold bind.
  rewrite (Hm self). rewrite (Hm (restart self)).
  change (restart (restart self)) with (restart self).
  destruct (m (restart self)) as [[e|a] s0]; simpl.
  - reflexivity.
  - rewrite (Hk a (mk _ _ (importers self ++ importers s0))).
    rewrite (Hk a (mk _ _ (importers s0))).
    unfold restart; simpl. rewrite app_assoc. reflexivity.
Qed.

Lemma appends_for_each {X} (l : list X) (body : X -> M (I:=I) unit) :
  (forall x, appends_only (body x)) -> appends_only (for_each l body).
Proof.
  intros Hb. induction l as [|x l IH]; simpl.
  - apply appends_ret.
  - apply appends_bind; [apply Hb|intros _; exact IH].
Qed.

Lemma appends_existing_events_importer (kw : dict) :
  appends_only (I:=I) (existing_events_importer B kw).
Proof.
  unfold existing_events_importer.
  apply appends_bind; [apply appends_lift|]. intros importer.
  destruct (Importer.check importer) as [r imp].
  destruct (negb (truthy r) && negb (Importer.errored imp));
    [apply appends_ret|].
  destruct (negb (Importer.errored imp)); [apply appends_append|].
  apply appends_bind; [apply appends_lift|]. intros importer2.
  destruct (Importer.check importer2) as [r2 imp2].
  destruct (negb (truthy r2) && negb (Importer.errored imp2));
    [apply appends_ret|].
  destruct (negb (Importer.errored imp2)); apply appends_append.
Qed.

Lemma appends_existing_events : appends_only (add_existing_events_importers R B).
Proof.
  intros self. unfold add_existing_events_importers.
  apply (appends_for_each (session_indexes R self)
           (fun '(subject, experiment, session, index) =>
              bind (lift (build_existing_event_importer_kwargs R self subject
                            experiment session index true))
                   (fun kw => existing_events_importer B kw))).
  intros [[[subject experiment] session] index].
  apply appends_bind; [apply appends_lift|].
  intros kw. apply appends_existing_events_importer.
Qed.

Lemma appends_existing_montage : appends_only (add_existing_montage_importers R B).
Proof.
  intros self. unfold add_existing_montage_importers.
  refine (appends_for_each (subjects R (index self) ∅) _ _ self).
  intros subject. apply appends_for_each. intros montage.
  apply appends_bind; [apply appends_lift|]. intros num.
  apply appends_bind; [apply appends_lift|]. intros code.
  apply appends_bind; [apply appends_lift|]. intros importer.
  destruct (Importer.check importer) as [r imp].
  destruct (truthy r || Importer.errored imp || INCLUDE_TRANSFERRED);
    [apply appends_append|apply appends_ret].
Qed.

Lemma appends_future_events : appends_only (add_future_events_importers R B).
Proof.
  intros self. unfold add_future_events_importers.
  refine (appends_for_each (subjects R (index self) ∅) _ _ self).
  intros subject.
  apply appends_bind; [apply appends_lift|]. intros max_montage.
  apply appends_for_each. intros experiment.
  apply appends_bind; [apply appends_lift|]. intros kw.
  apply appends_bind; [apply appends_lift|]. intros importer.
  destruct (Importer.check importer) as [r imp].
  destruct (truthy r); [apply appends_append|apply appends_ret].
Qed.

(** C9, amended.  [populate_importers] runs the phase for existing sessions
    first, the montage phase second and the phase for future sessions last.
    When it returns, the list holds what it held before, then the handles
    retained for existing sessions, then those retained for montages, then
    those retained for future sessions; nothing is removed or merged. *)
Theorem populate_importers_order (self : t (I:=I)) :
  fst (populate_importers R B self) = inr tt ->
  fst (add_existing_events_importers R B (restart self)) = inr tt /\
  fst (add_existing_montage_importers R B (restart self)) = inr tt /\
  fst (add_future_events_importers R B (restart self)) = inr tt /\
  importers (snd (populate_importers R B self)) =
    importers self ++
    survivors (add_existing_events_importers R B) self ++
    survivors (add_existing_montage_importers R B) self ++
    survivors (add_future_events_importers R B) self.
Proof.
  unfold populate_importers, bind, survivors.
  rewrite (appends_existing_events self).
  destruct (add_existing_events_importers R B (restart self)) as [[e1|[]] s1];
    simpl; [discriminate|].
  rewrite (appends_existing_montage (mk _ _ _)).
  change (restart (mk (protocol self) (index self) (importers self ++ importers s1)))
    with (restart self).
  destruct (add_existing_montage_importers R B (restart self)) as [[e2|[]] s2];
    simpl; [discriminate|].
  rewrite (appends_future_events (mk _ _ _)).
  change (restart (mk (protocol self) (index self)
                     ((importers self ++ importers s1) ++ importers s2)))
    with (restart self).
  destruct (add_future_events_importers R B (restart self)) as [[e3|[]] s3];
    simpl; [discriminate|].
  intros _. repeat (split; [reflexivity|]).
  rewrite <- !app_assoc. reflexivity.
Qed.

End Phases.

(** C9 as stated fails: on the sample index, with builders whose pipelines
    all ask for a transfer, the montage handle comes after the four handles
    for existing sessions, not before them. *)
Lemma populate_importers_not_montage_first :
  fst (Automator.populate_importers Sample.reader
         (Sample.builders_of (Sample.steady true)) Sample.automator) = inr tt /\
  List.map Importer.label
    (Automator.importers
       (snd (Automator.populate_importers Sample.reader
               (Sample.builders_of (Sample.steady true)) Sample.automator))) =
    [ "Events Builder"; "Events Builder"; "Events Builder"; "Events Builder";
      "Montage Importer"; "Events Builder" ]%string /\
  List.map Importer.label
    (montage_first_order Sample.reader
       (Sample.builders_of (Sample.steady true)) Sample.automator) =
    [ "Montage Importer"; "Events Builder"; "Events Builder";
      "Events Builder"; "Events Builder"; "Events Builder" ]%string /\
  Automator.importers
    (snd (Automator.populate_importers Sample.reader
            (Sample.builders_of (Sample.steady true)) Sample.automator)) <>
  montage_first_order Sample.reader
    (Sample.builders_of (Sample.steady true)) Sample.automator.
Proof.
  split; [vm_compute; reflexivity|].
  split; [vm_compute; reflexivity|].
  split; [vm_compute; reflexivity|].
  intros H. apply (f_equal (List.map Importer.label)) in H.
  vm_compute in H. discriminate H.
Qed.

Lemma populate_importers_order_witness :
  fst (Automator.populate_importers Sample.reader
         (Sample.builders_of (Sample.steady true)) Sample.automator) = inr tt /\
  Automator.importers
    (snd (Automator.populate_importers Sample.reader
            (Sample.builders_of (Sample.steady true)) Sample.automator)) =
    Automator.importers Sample.automator ++
    survivors (Automator.add_existing_events_importers Sample.reader
                 (Sample.builders_of (Sample.steady true))) Sample.automator ++
    survivors (Automator.add_existing_montage_importers Sample.reader
                 (Sample.builders_of (Sample.steady true))) Sample.automator ++
    survivors (Automator.add_future_events_importers Sample.reader
                 (Sample.builders_of (Sample.steady true))) Sample.automator.
Proof.
  assert (fst (Automator.populate_importers Sample.reader
                 (Sample.builders_of (Sample.steady true)) Sample.automator) =
          inr tt) as H by (vm_compute; reflexivity).
  split; [exact H|].
  exact (proj2 (proj2 (proj2
    (populate_importers_order Sample.reader
       (Sample.builders_of (Sample.steady true)) Sample.automator H)))).
Defined.

(** ** The ordering of sort keys *)

Section Ordering.

Lemma string_cmp_refl (s : string) : String.compare s s = Eq.
Proof.
  induction s as [|a s IH]; simpl; [reflexivity|].
  unfold Ascii.compare. rewrite N.compare_refl. exact IH.
Qed.

Lemma string_cmp_lt_trans (a b c : string) :
  String.compare a b = Lt -> String.compare b c = Lt -> String.compare a c = Lt.
Proof.
  revert b c. induction a as [|x a IH]; intros [|y b] [|z c]; simpl;
    try congruence.
  destruct (Ascii.compare x y) eqn:Exy; [|clear IH|congruence].
  - apply Ascii.compare_eq_iff in Exy. subst y.
    destruct (Ascii.compare x z); [apply IH|reflexivity|congruence].
  - intros _.
    destruct (Ascii.compare y z) eqn:Eyz; [|intros _|congruence].
    + apply Ascii.compare_eq_iff in Eyz. subst z. rewrite Exy. reflexivity.
    + assert (Ascii.compare x z = Lt) as ->; [|reflexivity].
      unfold Ascii.compare in *. rewrite N.compare_lt_iff in *. lia.
Qed.

Lemma py_cmp_refl (a : value) : py_cmp a a = Eq.
Proof.
  destruct a; simpl; auto using Z.compare_refl, string_cmp_refl.
Qed.

Lemma py_cmp_antisym (a b : value) : py_cmp a b = CompOpp (py_cmp b a).
Proof.
  destruct a, b; simpl; auto using Z.compare_antisym, String.compare_antisym.
Qed.

(** Values that compare equal compare alike with every third value. *)
Lemma py_cmp_eq_l (a b c : value) :
  py_cmp a b = Eq -> py_cmp a c = py_cmp b c.
Proof.
  destruct a, b; simpl; try discriminate; intros H;
    try (apply Z.compare_eq_iff in H; destruct c; simpl; rewrite ?H;
         reflexivity);
    try (apply String.compare_eq_iff in H; subst; reflexivity).
  reflexivity.
Qed.

Lemma py_cmp_lt_trans (a b c : value) :
  py_cmp a b = Lt -> py_cmp b c = Lt -> py_cmp a c = Lt.
Proof.
  destruct a, b, c; simpl; try congruence;
    rewrite ?Z.compare_lt_iff; try lia.
  apply string_cmp_lt_trans.
Qed.

Lemma list_cmp_refl (k : list value) : list_cmp k k = Eq.
Proof.
  induction k as [|a k IH]; simpl; [reflexivity|].
  rewrite py_cmp_refl. exact IH.
Qed.

Lemma list_cmp_antisym (k1 k2 : list value) :
  list_cmp k1 k2 = CompOpp (list_cmp k2 k1).
Proof.
  revert k2. induction k1 as [|a k1 IH]; intros [|b k2]; simpl;
    try reflexivity.
  rewrite (py_cmp_antisym a b).
  destruct (py_cmp b a); simpl; auto.
Qed.

Lemma list_cmp_eq_l (k1 k2 k3 : list value) :
  list_cmp k1 k2 = Eq -> list_cmp k1 k3 = list_cmp k2 k3.
Proof.
  revert k2 k3. induction k1 as [|a k1 IH]; intros [|b k2] k3; simpl;
    try discriminate; [reflexivity|].
  destruct (py_cmp a b) eqn:Eab; try discriminate.
  intros H. destruct k3 as [|c k3]; [reflexivity|].
  rewrite (py_cmp_eq_l a b c Eab).
  destruct (py_cmp b c); auto.
Qed.

Lemma list_cmp_lt_trans (k1 k2 k3 : list value) :
  list_cmp k1 k2 = Lt -> list_cmp k2 k3 = Lt -> list_cmp k1 k3 = Lt.
Proof.
  revert k2 k3. induction k1 as [|a k1 IH]; intros [|b k2] [|c k3]; simpl;
    try congruence.
  destruct (py_cmp a b) eqn:Eab; try discriminate.
  - rewrite (py_cmp_eq_l a b c Eab).
    destruct (py_cmp b c); try discriminate; [apply IH|reflexivity].
  - intros _. destruct (py_cmp b c) eqn:Ebc; try discriminate.
    + intros _.
      assert (py_cmp c b = Eq) as Ecb
        by (rewrite py_cmp_antisym, Ebc; reflexivity).
      rewrite py_cmp_antisym, (py_cmp_eq_l c b a Ecb), py_cmp_antisym, Eab.
      reflexivity.
    + intros _. rewrite (py_cmp_lt_trans a b c Eab Ebc). reflexivity.
Qed.

Lemma key_le_refl (k : list value) : key_le k k = true.
Proof. unfold key_le, key_lt. rewrite list_cmp_refl. reflexivity. Qed.

Lemma key_lt_le (k1 k2 : list value) : key_lt k1 k2 = true -> key_le k1 k2 = true.
Proof.
  unfold key_le, key_lt. rewrite (list_cmp_antisym k2 k1).
  destruct (list_cmp k1 k2); simpl; congruence.
Qed.

Lemma key_le_trans (k1 k2 k3 : list value) :
  key_le k1 k2 = true -> key_le k2 k3 = true -> key_le k1 k3 = true.
Proof.
  unfold key_le, key_lt. intros H12 H23.
  destruct (list_cmp k3 k1) eqn:E31; try reflexivity.
  exfalso.
  assert (list_cmp k1 k3 = Gt) as E13
    by (rewrite list_cmp_antisym, E31; reflexivity).
  destruct (list_cmp k2 k1) eqn:E21; try discriminate.
  - rewrite list_cmp_antisym, (list_cmp_eq_l k2 k1 k3 E21), E13 in H23.
    discriminate.
  - assert (list_cmp k1 k2 = Lt) as E12
      by (rewrite list_cmp_antisym, E21; reflexivity).
    destruct (list_cmp k3 k2) eqn:E32; try discriminate.
    + rewrite (list_cmp_eq_l k3 k2 k1 E32) in E31. congruence.
    + assert (list_cmp k2 k3 = Lt) as E23
        by (rewrite list_cmp_antisym, E32; reflexivity).
      pose proof (list_cmp_lt_trans k1 k2 k3 E12 E23). congruence.
Qed.

(** A key that is strictly smaller than another is not equivalent to what
    the other is equivalent to. *)
Lemma key_lt_not_equiv (k1 k2 k : list value) :
  key_lt k1 k2 = true -> key_equiv k2 k = true -> key_equiv k1 k = false.
Proof.
  unfold key_lt, key_equiv.
  destruct (list_cmp k1 k2) eqn:E12; try discriminate. intros _.
  destruct (list_cmp k2 k) eqn:E2; try discriminate. intros _.
  destruct (list_cmp k1 k) eqn:E1; try reflexivity.
  assert (list_cmp k k2 = Eq) as Ek2
    by (rewrite list_cmp_antisym, E2; reflexivity).
  assert (list_cmp k k1 = Eq) as Ek1
    by (rewrite list_cmp_antisym, E1; reflexivity).
  rewrite list_cmp_antisym, <- (list_cmp_eq_l k k2 k1 Ek2), Ek1 in E12.
  discriminate.
Qed.

End Ordering.

(** ** sorted() *)

Section Sorting.
Context {A : Type} (key : A -> list value).

Lemma insert_by_perm (x : A) (l : list A) :
  Permutation (insert_by key x l) (x :: l).
Proof.
  induction l as [|y l IH]; simpl; [reflexivity|].
  destruct (key_lt (key y) (key x)); [|reflexivity].
  rewrite IH. apply perm_swap.
Qed.

Lemma sorted_perm (l : list A) : Permutation (sorted l key) l.
Proof.
  induction l as [|x l IH]; simpl; [reflexivity|].
  rewrite insert_by_perm, IH. reflexivity.
Qed.

Lemma insert_by_sorted (x : A) (l : list A) :
  StronglySorted (fun a b => key_le (key a) (key b) = true) l ->
  StronglySorted (fun a b => key_le (key a) (key b) = true) (insert_by key x l).
Proof.
  induction l as [|y l IH]; simpl; intros Hs.
  - repeat constructor.
  - inversion Hs as [|? ? Hl Hy]; subst.
    destruct (key_lt (key y) (key x)) eqn:E.
    + constructor; [apply IH; exact Hl|].
      rewrite insert_by_perm. constructor; [apply key_lt_le; exact E|exact Hy].
    + assert (key_le (key x) (key y) = true) as Hxy
        by (unfold key_le; rewrite E; reflexivity).
      constructor; [exact Hs|].
      constructor; [exact Hxy|].
      eapply List.Forall_impl; [|exact Hy].
      intros z Hz. simpl in Hz. eapply key_le_trans; eassumption.
Qed.

Lemma sorted_sorted (l : list A) :
  StronglySorted (fun a b => key_le (key a) (key b) = true) (sorted l key).
Proof.
  induction l as [|x l IH]; simpl; [constructor|].
  apply insert_by_sorted, IH.
Qed.

Lemma insert_by_stable (k : list value) (x : A) (l : list A) :
  List.filter (fun a => key_equiv (key a) k) (insert_by key x l) =
  List.filter (fun a => key_equiv (key a) k) (x :: l).
Proof.
  induction l as [|y l IH]; [reflexivity|].
  simpl insert_by.
  destruct (key_lt (key y) (key x)) eqn:E; [|reflexivity].
  simpl List.filter at 1. rewrite IH. simpl.
  destruct (key_equiv (key x) k) eqn:Ex; [|reflexivity].
  rewrite (key_lt_not_equiv _ _ _ E Ex). reflexivity.
Qed.

Lemma sorted_stable (k : list value) (l : list A) :
  List.filter (fun a => key_equiv (key a) k) (sorted l key) =
  List.filter (fun a => key_equiv (key a) k) l.
Proof.
  induction l as [|x l IH]; [reflexivity|].
  simpl sorted. rewrite insert_by_stable. simpl. rewrite IH. reflexivity.
Qed.

(** In a sorted list an element is not greater than any later one. *)
Lemma sorted_lookup_le (l : list A) (i j : nat) (a b : A) :
  StronglySorted (fun a b => key_le (key a) (key b) = true) l ->
  l !! i = Some a -> l !! j = Some b -> (i <= j)%nat ->
  key_le (key a) (key b) = true.
Proof.
  intros Hs. revert i j.
  induction Hs as [|x l Hl IH Hx]; intros i j Hi Hj Hij; [discriminate|].
  destruct i as [|i], j as [|j]; simpl in *; try lia.
  - injection Hi as <-. injection Hj as <-. apply key_le_refl.
  - injection Hi as <-.
    rewrite List.Forall_forall in Hx. apply Hx.
    apply list_elem_of_In. eapply list_elem_of_lookup_2. exact Hj.
  - apply (IH i j Hi Hj). lia.
Qed.

End Sorting.

(** ** sorted_importers() *)

Section Report.
Import Importer.

Lemma sorted_all_before (first later : t -> bool) (l : list t) :
  StronglySorted
    (fun a b => key_le (Automator.sort_key a) (Automator.sort_key b) = true) l ->
  (forall a b, first a = true -> later b = true ->
     key_le (Automator.sort_key b) (Automator.sort_key a) = false) ->
  all_before first later l.
Proof.
  intros Hs Hgt i j a b Hi Hj Hf Hl.
  destruct (le_lt_dec j i) as [Hji|Hij]; [|exact Hij].
  pose proof (sorted_lookup_le Automator.sort_key l j i b a Hs Hj Hi Hji) as H.
  rewrite (Hgt a b Hf Hl) in H. discriminate H.
Qed.

(** C8 as stated fails: of two initialized handles, the one whose check
    raised is sorted after the one that is free of errors. *)
Lemma errored_do_not_sort_first :
  Automator.sorted_importers
    (Automator.mk "r1" Sample.rows
       [Sample.check_failed_handle; Sample.clean_handle]) =
    [Sample.clean_handle; Sample.check_failed_handle] /\
  errored Sample.check_failed_handle = true /\
  errored Sample.clean_handle = false /\
  ~ errored_sort_first
      (Automator.sorted_importers
         (Automator.mk "r1" Sample.rows
            [Sample.check_failed_handle; Sample.clean_handle])).
Proof.
  split; [reflexivity|]. split; [reflexivity|]. split; [reflexivity|].
  intros H.
  specialize (H 1%nat 0%nat Sample.check_failed_handle Sample.clean_handle
                eq_refl eq_refl eq_refl eq_refl).
  lia.
Qed.

(** C8, amended.  [sorted_importers] returns the handles of the list, each
    as it is, in ascending order of the list (initialized, errored,
    _should_transfer, transferred, processed, subject), and handles with
    equal lists keep the order they have in [self.importers].  [None] sorts
    before false and false before true.  Hence handles that failed to
    initialize sort first, and among the handles with the same value of
    [initialized] those free of errors sort before those that errored. *)
Theorem sorted_importers_order {I : Type} (self : Automator.t (I:=I)) :
  Permutation (Automator.sorted_importers self) (Automator.importers self) /\
  StronglySorted
    (fun a b => key_le (Automator.sort_key a) (Automator.sort_key b) = true)
    (Automator.sorted_importers self) /\
  (forall k : list value,
     List.filter (fun a => key_equiv (Automator.sort_key a) k)
       (Automator.sorted_importers self) =
     List.filter (fun a => key_equiv (Automator.sort_key a) k)
       (Automator.importers self)) /\
  (py_cmp VNone (VBool false) = Lt /\ py_cmp (VBool false) (VBool true) = Lt) /\
  all_before (fun a => negb (initialized a)) initialized
    (Automator.sorted_importers self) /\
  (forall ini : bool,
     all_before
       (fun a => Bool.eqb (initialized a) ini && negb (errored a))
       (fun b => Bool.eqb (initialized b) ini && errored b)
       (Automator.sorted_importers self)).
Proof.
  unfold Automator.sorted_importers.
  pose proof (sorted_sorted Automator.sort_key (Automator.importers self)) as Hs.
  split; [apply sorted_perm|]. split; [exact Hs|].
  split; [intros k; apply sorted_stable|].
  split; [split; reflexivity|].
  split.
  - apply sorted_all_before; [exact Hs|].
    intros a b Ha Hb. unfold Automator.sort_key.
    destruct (initialized a); [discriminate|]. rewrite Hb. reflexivity.
  - intros ini. apply sorted_all_before; [exact Hs|].
    intros a b Ha Hb. unfold Automator.sort_key.
    apply andb_prop in Ha as [Ha1 Ha2]. apply andb_prop in Hb as [Hb1 Hb2].
    apply Bool.eqb_prop in Ha1, Hb1. rewrite Ha1, Hb1, Hb2.
    destruct (errored a); [discriminate|].
    destruct ini; reflexivity.
Qed.

End Report.

(** * Further properties of automation.py *)

(** ** The constructor *)

Section Constructor.
Import Importer.

Lemma unregistered_type (B : Builders) (type : Z) :
  type < 1 \/ 5 < type -> PIPELINE_BUILDERS B !! type = None.
Proof.
  intros H. unfold PIPELINE_BUILDERS, MONTAGE, BUILD_EVENTS, BUILD_EPHYS,
    CONVERT_EVENTS, CONVERT_EPHYS.
  rewrite !lookup_insert_ne by lia. apply lookup_singleton_ne. lia.
Qed.

(** X1.  [Importer(type, **kwargs)] raises [UnTransferrableException],
    naming the type, when the type is none of the five registered ones, and
    [KeyError] when the type is registered but the keyword arguments have no
    ['subject'].  In every other case it returns a handle, whether the builder
    returns or raises: what the builder raises ends in the init slot of a
    handle that is errored and not initialized. *)
Theorem constructor_raises_only_for_bad_arguments (B : Builders) (type : Z)
    (kw : dict) :
  (type < 1 \/ 5 < type ->
   __init__ B type kw =
     inl (Exn UnTransferrableException
            ("Cannot build importer for type " +:+ pretty type))) /\
  (1 <= type <= 5 -> kw !! "subject"%string = None ->
   __init__ B type kw = inl (Exn KeyError "'subject'")) /\
  (1 <= type <= 5 -> is_Some (kw !! "subject"%string) ->
   exists (h : t) (build : builder),
     __init__ B type kw = inr h /\
     PIPELINE_BUILDERS B !! type = Some build /\
     kwargs h = kw /\ kw !! "subject"%string = Some (subject h) /\
     match build kw with
     | inr p =>
         initialized h = true /\ errored h = false /\ pipeline h = Some p /\
         errors h = no_errors
     | inl e =>
         initialized h = false /\ errored h = true /\ pipeline h = None /\
         errors h = mkErrors (Some e) None None None
     end).
Proof.
  split; [|split].
  - intros H. unfold __init__.
    pose proof (unregistered_type B type H) as Hnone.
    match goal with
    | |- context [match ?x with Some _ => _ | None => _ end] =>
        destruct x as [build|] eqn:E
    end; [|reflexivity].
    exfalso. assert (Some build = None) as Habs
      by (rewrite <- E; exact Hnone).
    discriminate Habs.
  - intros Hty Hs. unfold __init__. rewrite Hs.
    assert (type = 1 \/ type = 2 \/ type = 3 \/ type = 4 \/ type = 5)
      as Hc by lia.
    destruct Hc as [->|[->|[->|[->| ->]]]]; reflexivity.
  - intros Hty [subj Hs]. unfold __init__. rewrite Hs.
    assert (type = 1 \/ type = 2 \/ type = 3 \/ type = 4 \/ type = 5)
      as Hc by lia.
    destruct Hc as [->|[->|[->|[->| ->]]]];
      match goal with
      | |- context [PIPELINE_BUILDERS B !! ?n] =>
          let b := eval vm_compute in (PIPELINE_BUILDERS B !! n) in
          change (PIPELINE_BUILDERS B !! n) with b
      end;
      match goal with
      | |- context [LABELS !! ?n] =>
          let b := eval vm_compute in (LABELS !! n) in
          change (LABELS !! n) with b
      end; cbv beta iota;
      match goal with
      | |- context [match ?b kw with _ => _ end] =>
          destruct (b kw) eqn:E; eexists; exists b; rewrite ?E
      end; simpl; repeat split; reflexivity.
Qed.

End Constructor.

(** ** The errored flag *)

Section Errored.
Import Importer.

Lemma errored_step (h : t) (o : op) :
  errored h = any_error (errors h) ->
  errored (step h o) = any_error (errors (step h o)).
Proof.
  intros H. destruct h as [lbl kw subj [e1 e2 e3 e4] st err pr tr [p|] ini];
    unfold any_error in *; simpl in H; subst err;
    destruct o; simpl;
    unfold should_transfer, check, run, transferer, check_checksums,
      pipeline_run; simpl;
    repeat match goal with
           | |- context [if ?b then _ else _] => destruct b; simpl
           | |- context [match ?x with inl _ => _ | inr _ => _ end] =>
               destruct x; simpl
           end;
    unfold any_error; simpl; rewrite ?orb_true_r; reflexivity.
Qed.

(** X2.  In every state that a handle reaches from its constructor through
    [check()], reads of [should_transfer] and [run()], [errored] is true
    exactly when one of the four error slots holds an exception. *)
Theorem errored_iff_some_slot (B : Builders) (type : Z) (kw : dict) (h0 : t)
    (ops : list op) :
  __init__ B type kw = inr h0 ->
  errored (exec ops h0) = any_error (errors (exec ops h0)).
Proof.
  intros H.
  assert (errored h0 = any_error (errors h0)) as H0
    by (apply init_inv in H as (lbl & subj & _ & _ & [[p ->]|[e ->]]);
        reflexivity).
  clear H. unfold exec. revert h0 H0.
  induction ops as [|o ops IH]; simpl; intros h0 H0; [exact H0|].
  apply IH, errored_step, H0.
Qed.

Lemma errored_iff_some_slot_witness :
  __init__ (Sample.builders_of Sample.flaky_run) BUILD_EVENTS
    Sample.kw_subject = inr (Sample.handle_of Sample.flaky_run) /\
  errored (exec [OpCheck; OpRun; OpRun] (Sample.handle_of Sample.flaky_run)) =
  any_error (errors
    (exec [OpCheck; OpRun; OpRun] (Sample.handle_of Sample.flaky_run))).
Proof.
  split; [reflexivity|].
  exact (errored_iff_some_slot (Sample.builders_of Sample.flaky_run)
           BUILD_EVENTS Sample.kw_subject (Sample.handle_of Sample.flaky_run)
           [OpCheck; OpRun; OpRun] eq_refl).
Defined.

End Errored.

(** ** run_all_imports() *)

Section RunAll.
Import Importer.

Lemma run_settles (h : t) :
  (processed (run h) = true /\ transferred (run h) = true) \/
  (errored (run h) = true /\
   (slot_set (err_transfer (errors (run h))) ||
    slot_set (err_processing (errors (run h))) = true)).
Proof.
  unfold run, pipeline_run.
  destruct (pipeline h) as [p|]; simpl.
  - destruct (on_run p (calls p)) as [e|u]; simpl.
    + destruct (is_UnTransferrable e); simpl; right; split; try reflexivity.
      apply orb_true_r.
    + left. split; reflexivity.
  - right. split; [reflexivity|apply orb_true_r].
Qed.

Lemma run_frame (h : t) :
  label (run h) = label h /\ kwargs (run h) = kwargs h /\
  subject (run h) = subject h /\ initialized (run h) = initialized h /\
  _should_transfer (run h) = _should_transfer h.
Proof.
  unfold run, pipeline_run.
  destruct (pipeline h) as [p|]; simpl.
  - destruct (on_run p (calls p)) as [e|u]; simpl;
      [destruct (is_UnTransferrable e)|]; repeat split.
  - repeat split.
Qed.

(** X3.  [run_all_imports] runs every handle of the list, whatever happens
    to the others: the list keeps its length and order, the i-th handle is
    the former i-th handle after [run()], with the same label, keyword
    arguments and checksum decision, and afterwards every handle is either
    processed and transferred or errored with a transfer or processing error
    recorded. *)
Theorem run_all_imports_settles {I : Type} (self : Automator.t (I:=I)) :
  Automator.protocol (Automator.run_all_imports self) = Automator.protocol self /\
  Automator.index (Automator.run_all_imports self) = Automator.index self /\
  length (Automator.importers (Automator.run_all_imports self)) =
    length (Automator.importers self) /\
  (forall (i : nat) (h : t),
     Automator.importers self !! i = Some h ->
     Automator.importers (Automator.run_all_imports self) !! i = Some (run h) /\
     label (run h) = label h /\ kwargs (run h) = kwargs h /\
     _should_transfer (run h) = _should_transfer h) /\
  (forall h : t,
     In h (Automator.importers (Automator.run_all_imports self)) ->
     (processed h = true /\ transferred h = true) \/
     (errored h = true /\
      (slot_set (err_transfer (errors h)) ||
       slot_set (err_processing (errors h)) = true))).
Proof.
  unfold Automator.run_all_imports; simpl.
  split; [reflexivity|]. split; [reflexivity|].
  split; [apply List.length_map|]. split.
  - intros i h Hi. split.
    + change (List.map run (Automator.importers self))
        with (run <$> Automator.importers self).
      rewrite list_lookup_fmap, Hi. reflexivity.
    + destruct (run_frame h) as (? & ? & _ & _ & ?). auto.
  - intros h Hin. apply List.in_map_iff in Hin as (h' & <- & _).
    apply run_settles.
Qed.

End RunAll.

(** ** What the phases retain *)

Section CheckFacts.
Import Importer.

(** [check()] returns what it stores, always stores a boolean, and leaves
    the identity of the handle alone. *)
Lemma check_stores (h : t) :
  fst (check h) = _should_transfer (snd (check h)) /\
  _should_transfer (snd (check h)) <> None /\
  label (snd (check h)) = label h /\ kwargs (snd (check h)) = kwargs h /\
  initialized (snd (check h)) = initialized h.
Proof.
  unfold check, transferer, check_checksums.
  destruct (pipeline h) as [p|]; simpl;
    [destruct (on_check_checksums p (calls p)) as [e|b]; simpl|];
    repeat split; discriminate.
Qed.

Lemma truthy_true (v : option bool) : truthy v = true -> v = Some true.
Proof. destruct v as [[]|]; simpl; congruence. Qed.

Lemma init_label (B : Builders) (type : Z) (kw : dict) (h : t) :
  __init__ B type kw = inr h ->
  LABELS !! type = Some (label h) /\ kwargs h = kw.
Proof.
  intros H. apply init_inv in H as (lbl & subj & L & _ & [[p ->]|[e ->]]);
    split; assumption || reflexivity.
Qed.

End CheckFacts.

Section Retention.
Import Automator.
Context {I : Type} (R : IndexReader I) (B : Builders).
Variable P : Importer.t -> Prop.

Lemma retains_ret {A} (a : A) : retains (I:=I) P (ret a).
Proof. intros self H. exact H. Qed.

Lemma retains_lift {A} (r : exn + A) : retains (I:=I) P (lift r).
Proof. intros self H. exact H. Qed.

Lemma retains_append (imp : Importer.t) : P imp -> retains (I:=I) P (append imp).
Proof.
  intros Himp self H. simpl. apply Forall_app. split; [exact H|].
  constructor; [exact Himp|constructor].
Qed.

Lemma retains_bind {A C} (m : M (I:=I) A) (k : A -> M (I:=I) C) :
  retains P m -> (forall a, retains P (k a)) -> retains P (bind m k).
Proof.
  intros Hm Hk self H. unfold bind.
  specialize (Hm self H).
  destruct (m self) as [[e|a] s]; simpl in *; [exact Hm|].
  apply Hk, Hm.
Qed.

Lemma retains_for_each {X} (l : list X) (body : X -> M (I:=I) unit) :
  (forall x, retains P (body x)) -> retains P (for_each l body).
Proof.
  intros Hb. induction l as [|x l IH]; simpl.
  - apply retains_ret.
  - apply retains_bind; [apply Hb|intros _; exact IH].
Qed.

End Retention.

Section PhaseRetention.
Import Automator.
Context {I : Type} (R : IndexReader I) (B : Builders).

Lemma retains_bind_lift {A C} (P : Importer.t -> Prop) (r : exn + A)
    (k : A -> M (I:=I) C) :
  (forall a, r = inr a -> retains P (k a)) -> retains P (bind (lift r) k).
Proof.
  intros Hk self H. unfold bind, lift.
  destruct r as [e|a]; simpl; [exact H|].
  apply (Hk a eq_refl), H.
Qed.

(** What [check()] leaves of a handle that the constructor just returned. *)
Lemma checked_new (type : Z) (kw : dict) (h imp : Importer.t)
    (r : option bool) :
  Importer.__init__ B type kw = inr h ->
  Importer.check h = (r, imp) ->
  Importer.LABELS !! type = Some (Importer.label imp) /\
  Importer.kwargs imp = kw /\
  r = Importer._should_transfer imp /\
  Importer._should_transfer imp <> None.
Proof.
  intros Hinit Hc.
  destruct (init_label B type kw h Hinit) as [Hl Hk].
  destruct (check_stores h) as (H1 & H2 & H3 & H4 & _).
  rewrite Hc in *; simpl in *.
  rewrite H3, H4. auto.
Qed.

(** X4.  Every handle that the montage phase retains is a montage importer
    on which [check()] has run, and either its check asked for a transfer or
    the handle is errored: with [INCLUDE_TRANSFERRED] off, an error-free
    montage whose checksums match is never retained. *)
Theorem montage_phase_retains (self : t (I:=I)) :
  Forall
    (fun h =>
       Importer.label h = "Montage Importer"%string /\
       Importer._should_transfer h <> None /\
       (Importer._should_transfer h = Some true \/ Importer.errored h = true))
    (survivors (add_existing_montage_importers R B) self).
Proof.
  unfold survivors.
  assert (retains
            (fun h =>
               Importer.label h = "Montage Importer"%string /\
               Importer._should_transfer h <> None /\
               (Importer._should_transfer h = Some true \/
                Importer.errored h = true))
            (add_existing_montage_importers R B)) as Hret.
  { intros s. unfold add_existing_montage_importers.
    refine (retains_for_each _ (subjects R (index s) ∅) _ _ s).
    intros subject. apply retains_for_each. intros montage.
    apply retains_bind; [apply retains_lift|]. intros num.
    apply retains_bind; [apply retains_lift|]. intros code.
    apply retains_bind_lift. intros importer Hinit.
    destruct (Importer.check importer) as [r imp] eqn:Hc.
    destruct (checked_new _ _ _ _ _ Hinit Hc) as (Hl & _ & Hr & Hn).
    vm_compute in Hl. injection Hl as Hl.
    destruct (truthy r) eqn:Ht; simpl.
    - apply retains_append. split; [auto|]. split; [exact Hn|].
      left. rewrite <- Hr. apply truthy_true, Ht.
    - destruct (Importer.errored imp) eqn:He; simpl.
      + apply retains_append. auto.
      + apply retains_ret. }
  apply Hret. constructor.
Qed.

(** X5.  Every handle that the future-session phase retains is an events
    builder whose check asked for a transfer, built with [do_compare] off;
    a handle whose check raised is dropped by this phase, errored or not. *)
Theorem future_phase_retains (self : t (I:=I)) :
  Forall
    (fun h =>
       Importer.label h = "Events Builder"%string /\
       Importer._should_transfer h = Some true /\
       Importer.kwargs h !! "do_compare"%string = Some (VBool false))
    (survivors (add_future_events_importers R B) self).
Proof.
  unfold survivors.
  assert (retains
            (fun h =>
               Importer.label h = "Events Builder"%string /\
               Importer._should_transfer h = Some true /\
               Importer.kwargs h !! "do_compare"%string = Some (VBool false))
            (add_future_events_importers R B)) as Hret.
  { intros s. unfold add_future_events_importers.
    refine (retains_for_each _ (subjects R (index s) ∅) _ _ s).
    intros subject.
    apply retains_bind; [apply retains_lift|]. intros max_montage.
    apply retains_for_each. intros experiment.
    apply retains_bind_lift. intros kw Hkw.
    apply retains_bind_lift. intros importer Hinit.
    destruct (Importer.check importer) as [r imp] eqn:Hc.
    destruct (checked_new _ _ _ _ _ Hinit Hc) as (Hl & Hk & Hr & Hn).
    vm_compute in Hl. injection Hl as Hl.
    destruct (truthy r) eqn:Ht; [|apply retains_ret].
    apply retains_append. split; [auto|].
    split; [rewrite <- Hr; apply truthy_true, Ht|].
    rewrite Hk. clear - Hkw.
    unfold future_events_importer_kwargs in Hkw.
    destruct (match sessions R _ ∅ with [] => _ | _ :: _ => _ end)
      as [?|[[session os] oe]]; [discriminate|].
    destruct (getitem _ 1) as [?|num]; [discriminate|].
    destruct (get_value R _ _ _) as [?|code]; [discriminate|].
    injection Hkw as <-. reflexivity. }
  apply Hret. constructor.
Qed.

(** X6.  Every handle that the phase for existing sessions retains has been
    checked and was built with [do_compare] on; it is either an error-free
    events builder or events converter whose check asked for a transfer, or
    an errored events builder.  An events converter that errored is never
    retained. *)
Theorem existing_phase_retains (self : t (I:=I)) :
  Forall
    (fun h =>
       Importer._should_transfer h <> None /\
       Importer.kwargs h !! "do_compare"%string = Some (VBool true) /\
       ((Importer.errored h = false /\
         Importer._should_transfer h = Some true /\
         (Importer.label h = "Events Builder"%string \/
          Importer.label h = "Events Converter"%string)) \/
        (Importer.errored h = true /\
         Importer.label h = "Events Builder"%string)))
    (survivors (add_existing_events_importers R B) self).
Proof.
  unfold survivors.
  set (P := fun h =>
       Importer._should_transfer h <> None /\
       Importer.kwargs h !! "do_compare"%string = Some (VBool true) /\
       ((Importer.errored h = false /\
         Importer._should_transfer h = Some true /\
         (Importer.label h = "Events Builder"%string \/
          Importer.label h = "Events Converter"%string)) \/
        (Importer.errored h = true /\
         Importer.label h = "Events Builder"%string))).
  assert (retains P (add_existing_events_importers R B)) as Hret.
  { intros s. unfold add_existing_events_importers.
    refine (retains_for_each _ (session_indexes R s) _ _ s).
    intros [[[subject experiment] session] index].
    apply retains_bind_lift. intros kw Hkw.
    assert (kw !! "do_compare"%string = Some (VBool true)) as Hdc.
    { clear - Hkw. unfold build_existing_event_importer_kwargs in Hkw.
      destruct (getitem _ _) as [?|montage]; [discriminate|].
      destruct (get_value R index "subject_alias" ∅) as [?|code];
        [discriminate|].
      destruct (except_KeyError (get_value_int _ _ _ _) _) as [?|os];
        [discriminate|].
      destruct (except_KeyError (get_value _ _ _ _) _) as [?|oe];
        [discriminate|].
      injection Hkw as <-. reflexivity. }
    unfold existing_events_importer.
    apply retains_bind_lift. intros importer Hinit.
    destruct (Importer.check importer) as [r imp] eqn:Hc.
    destruct (checked_new _ _ _ _ _ Hinit Hc) as (Hl & Hk & Hr & Hn).
    vm_compute in Hl. injection Hl as Hl.
    destruct (truthy r) eqn:Ht, (Importer.errored imp) eqn:He; simpl;
      try apply retains_ret.
    2: { apply retains_append. unfold P. rewrite Hk.
         split; [exact Hn|]. split; [exact Hdc|]. left.
         split; [exact He|]. split; [|auto].
         rewrite <- Hr. apply truthy_true, Ht. }
    all: apply retains_bind_lift; intros importer2 Hinit2;
      destruct (Importer.check importer2) as [r2 imp2] eqn:Hc2;
      destruct (checked_new _ _ _ _ _ Hinit2 Hc2) as (Hl2 & Hk2 & Hr2 & Hn2);
      vm_compute in Hl2; injection Hl2 as Hl2;
      destruct (truthy r2) eqn:Ht2, (Importer.errored imp2) eqn:He2; simpl;
      try apply retains_ret;
      apply retains_append; unfold P; rewrite ?Hk, ?Hk2;
      (split; [assumption|]); (split; [exact Hdc|]);
      first [ right; split; [assumption|auto; fail]
            | left; split; [assumption|];
              split; [rewrite <- Hr2; apply truthy_true, Ht2|auto] ]. }
  apply Hret. constructor.
Qed.

End PhaseRetention.

(** ** The experiments of the future-session phase *)

Section FutureExperiments.
Import Automator.
Context {I : Type} (R : IndexReader I) (B : Builders).

Lemma retains_for_each_In {X} (P : Importer.t -> Prop) (l : list X)
    (body : X -> M (I:=I) unit) :
  (forall x, In x l -> retains P (body x)) -> retains P (for_each l body).
Proof.
  induction l as [|x l IH]; intros Hb; simpl.
  - apply retains_ret.
  - apply retains_bind; [apply Hb; left; reflexivity|].
    intros _. apply IH. intros y Hy. apply Hb. right. exact Hy.
Qed.

(** The loop [for experiment in self.EXPERIMENTS] goes through the keys of
    the dictionary, so every handle of the phase is built for the
    experiment named r1. *)
Lemma future_phase_new_experiment (self : t (I:=I)) :
  Forall
    (fun h =>
       Importer.kwargs h !! "new_experiment"%string = Some (VStr "r1"))
    (survivors (add_future_events_importers R B) self).
Proof.
  unfold survivors.
  assert (retains
            (fun h =>
               Importer.kwargs h !! "new_experiment"%string =
                 Some (VStr "r1"))
            (add_future_events_importers R B)) as Hret.
  { intros s. unfold add_future_events_importers.
    refine (retains_for_each _ (subjects R (index s) ∅) _ _ s).
    intros subject.
    apply retains_bind; [apply retains_lift|]. intros max_montage.
    apply retains_for_each_In. intros experiment Hexp.
    rewrite future_phase_experiments in Hexp.
    destruct Hexp as [<-|[]].
    apply retains_bind_lift. intros kw Hkw.
    apply retains_bind_lift. intros importer Hinit.
    destruct (Importer.check importer) as [r imp] eqn:Hc.
    destruct (checked_new B _ _ _ _ _ Hinit Hc) as (_ & Hk & _).
    destruct (truthy r); [|apply retains_ret].
    apply retains_append. rewrite Hk.
    exact (proj1 (proj2 (future_kwargs_session_numbers R B s _ _ _ _ _ Hkw))). }
  apply Hret. constructor.
Qed.

End FutureExperiments.

(** C7, evaluated where it fails.  The index holds sessions 0 and 1 of FR1
    for subject R1001P, and FR1 is one of the experiments that [EXPERIMENTS]
    lists for protocol r1.  The future-session phase returns with exactly
    one handle, built for an experiment named r1 with session 0 and original
    session 0: it builds no handle for session 2 of FR1.  This is so on
    every index: the loop [for experiment in self.EXPERIMENTS] goes through
    the keys of the dictionary, which are protocol names, so every handle
    that the phase retains is built for the experiment named r1 and none for
    an experiment that [EXPERIMENTS] lists. *)
Theorem future_phase_skips_experiments :
  (exists experiments : list string,
     Automator.EXPERIMENTS !! "r1"%string = Some experiments /\
     In "FR1"%string experiments) /\
  sessions Sample.reader
    (filtered Sample.reader
       (filtered Sample.reader Sample.rows_FR1
          {[ "subject"%string := VStr "R1001P" ]})
       {[ "montage"%string := VStr "0.0";
          "experiment"%string := VStr "FR1" ]}) ∅ = [0; 1] /\
  fst (Automator.add_future_events_importers Sample.reader
         (Sample.builders_of (Sample.steady true)) Sample.automator_FR1) =
    inr tt /\
  List.map Importer.kwargs
    (Automator.importers
       (snd (Automator.add_future_events_importers Sample.reader
               (Sample.builders_of (Sample.steady true))
               Sample.automator_FR1))) = [Sample.kw_future_r1] /\
  Sample.kw_future_r1 !! "new_experiment"%string = Some (VStr "r1") /\
  Sample.kw_future_r1 !! "session"%string = Some (VInt 0) /\
  Sample.kw_future_r1 !! "original_session"%string = Some (VInt 0) /\
  (forall (I : Type) (R : IndexReader I) (B : Builders)
          (self : Automator.t (I:=I)),
     Forall
       (fun h =>
          Importer.kwargs h !! "new_experiment"%string = Some (VStr "r1") /\
          forall (experiments : list string) (experiment : string),
            Automator.EXPERIMENTS !! "r1"%string = Some experiments ->
            In experiment experiments ->
            Importer.kwargs h !! "new_experiment"%string <>
              Some (VStr experiment))
       (survivors (Automator.add_future_events_importers R B) self)).
Proof.
  split.
  { eexists. split; [reflexivity|]. left. reflexivity. }
  split; [vm_compute; reflexivity|].
  split; [vm_compute; reflexivity|].
  split; [vm_compute; reflexivity|].
  split; [reflexivity|]. split; [reflexivity|]. split; [reflexivity|].
  intros I R B self.
  eapply List.Forall_impl; [|apply future_phase_new_experiment].
  intros h Hh. split; [exact Hh|].
  intros experiments experiment [= <-] Hin. rewrite Hh. intros [= <-].
  vm_compute in Hin. repeat (destruct Hin as [Hin|Hin]; [discriminate Hin|]).
  exact Hin.
Qed.

(** ** populate_importers() when a phase raises *)

Section PopulateErrors.
Import Automator.
Context {I : Type} (R : IndexReader I) (B : Builders).

Lemma appends_populate : appends_only (populate_importers R B).
Proof.
  unfold populate_importers.
  apply appends_bind; [apply (appends_existing_events R B)|]. intros _.
  apply appends_bind; [apply (appends_existing_montage R B)|]. intros _.
  apply (appends_future_events R B).
Qed.

(** X7.  [populate_importers] only ever appends: whether it returns or
    raises, the handles that were in the list are still there, in the same
    places, and the protocol and the index are untouched.  When the phase
    for existing sessions raises, the exception leaves [populate_importers]
    with what that phase had appended, and no later phase runs; likewise
    when the montage phase raises after the first phase returned. *)
Theorem populate_importers_only_appends (self : t (I:=I)) :
  protocol (snd (populate_importers R B self)) = protocol self /\
  index (snd (populate_importers R B self)) = index self /\
  (exists added : list Importer.t,
     importers (snd (populate_importers R B self)) = importers self ++ added) /\
  (forall e : exn,
     fst (add_existing_events_importers R B (restart self)) = inl e ->
     fst (populate_importers R B self) = inl e /\
     importers (snd (populate_importers R B self)) =
       importers self ++ survivors (add_existing_events_importers R B) self) /\
  (forall e : exn,
     fst (add_existing_events_importers R B (restart self)) = inr tt ->
     fst (add_existing_montage_importers R B (restart self)) = inl e ->
     fst (populate_importers R B self) = inl e /\
     importers (snd (populate_importers R B self)) =
       importers self ++ survivors (add_existing_events_importers R B) self ++
       survivors (add_existing_montage_importers R B) self).
Proof.
  split; [|split; [|split; [|split]]].
  - rewrite (appends_populate self). reflexivity.
  - rewrite (appends_populate self). reflexivity.
  - rewrite (appends_populate self). eexists. reflexivity.
  - intros e He. unfold populate_importers, bind, survivors.
    rewrite (appends_existing_events R B self).
    destruct (add_existing_events_importers R B (restart self)) as [r1 s1].
    simpl in He. subst r1. simpl. split; reflexivity.
  - intros e H1 H2. unfold populate_importers, bind, survivors.
    rewrite (appends_existing_events R B self).
    destruct (add_existing_events_importers R B (restart self)) as [r1 s1].
    simpl in H1. subst r1. simpl.
    rewrite (appends_existing_montage R B (mk _ _ _)).
    change (restart (mk (protocol self) (index self)
                       (importers self ++ importers s1)))
      with (restart self).
    destruct (add_existing_montage_importers R B (restart self)) as [r2 s2].
    simpl in H2. subst r2. simpl. rewrite <- app_assoc. split; reflexivity.
Qed.

End PopulateErrors.

(** ** Keyword arguments for an existing session *)

Section ExistingKwargs.
Import Automator.
Context {I : Type} (R : IndexReader I).

(** X8.  When [build_existing_event_importer_kwargs] returns, the keyword
    arguments carry the subject, the session, the protocol and [do_compare]
    as given, the first montage of the session, the experiment's name as
    [new_experiment], and [do_math] according to membership in
    [MATH_TASKS].  [original_session] is the recorded one, or the session
    itself when the lookup raised [KeyError]; [experiment] is the recorded
    original experiment, or the experiment's name when the lookup raised
    [KeyError].  A lookup that raised anything else did not let the function
    return. *)
Theorem existing_kwargs_remap (self : t (I:=I)) (subject experiment : string)
    (session : Z) (index : I) (do_compare : bool) (kw : dict) :
  build_existing_event_importer_kwargs R self subject experiment session index
    do_compare = inr kw ->
  kw !! "subject"%string = Some (VStr subject) /\
  kw !! "session"%string = Some (VInt session) /\
  kw !! "new_experiment"%string = Some (VStr experiment) /\
  kw !! "protocol"%string = Some (VStr (protocol self)) /\
  kw !! "do_compare"%string = Some (VBool do_compare) /\
  kw !! "do_math"%string =
    Some (VBool (bool_decide (experiment ∈ MATH_TASKS))) /\
  (exists montage rest,
     montages R index ∅ = montage :: rest /\
     kw !! "montage"%string = Some (VStr montage)) /\
  (exists code,
     get_value R index "subject_alias" ∅ = inr code /\
     kw !! "code"%string = Some (VStr code)) /\
  match get_value_int R index "original_session" ∅ with
  | inr v => kw !! "original_session"%string = Some (VInt v)
  | inl e =>
      is_KeyError e = true /\
      kw !! "original_session"%string = Some (VInt session)
  end /\
  match get_value R index "original_experiment" ∅ with
  | inr x => kw !! "experiment"%string = Some (VStr x)
  | inl e =>
      is_KeyError e = true /\
      kw !! "experiment"%string = Some (VStr experiment)
  end.
Proof.
  unfold build_existing_event_importer_kwargs, getitem.
  destruct (montages R index ∅) as [|montage rest]; simpl; [discriminate|].
  destruct (get_value R index "subject_alias" ∅) as [?|code]; [discriminate|].
  destruct (get_value_int R index "original_session" ∅) as [e1|v]; simpl;
    [destruct (is_KeyError e1); [|discriminate]|];
    (destruct (get_value R index "original_experiment" ∅) as [e2|x]; simpl;
     [destruct (is_KeyError e2); [|discriminate]|]);
    intros [= <-];
    repeat (split; [reflexivity|]);
    (split; [exists montage, rest; split; reflexivity|]);
    (split; [exists code; split; reflexivity|]);
    repeat split; reflexivity.
Qed.

(** X9.  [build_existing_event_importer_kwargs] raises [IndexError] for a
    session without montage, and lets through every exception other than
    [KeyError] that the lookup of the original session raises. *)
Theorem existing_kwargs_raises (self : t (I:=I)) (subject experiment : string)
    (session : Z) (index : I) (do_compare : bool) :
  (montages R index ∅ = [] ->
   build_existing_event_importer_kwargs R self subject experiment session
     index do_compare = inl (Exn IndexError "list index out of range")) /\
  (forall e : exn,
     montages R index ∅ <> [] ->
     get_value R index "subject_alias" ∅ = inl e ->
     build_existing_event_importer_kwargs R self subject experiment session
       index do_compare = inl e) /\
  (forall (e : exn) (code : string),
     montages R index ∅ <> [] ->
     get_value R index "subject_alias" ∅ = inr code ->
     get_value_int R index "original_session" ∅ = inl e ->
     is_KeyError e = false ->
     build_existing_event_importer_kwargs R self subject experiment session
       index do_compare = inl e).
Proof.
  unfold build_existing_event_importer_kwargs, getitem.
  split; [|split].
  - intros ->. reflexivity.
  - intros e Hm Ha. destruct (montages R index ∅); [congruence|]. simpl.
    rewrite Ha. reflexivity.
  - intros e code Hm Ha He Hk.
    destruct (montages R index ∅); [congruence|]. simpl.
    rewrite Ha, He. simpl. rewrite Hk. reflexivity.
Qed.

End ExistingKwargs.

Lemma existing_kwargs_remap_witness :
  Automator.build_existing_event_importer_kwargs Sample.reader
    Sample.automator "R1001P" "FR1" 0 Sample.index_FR1_0 true =
    inr Sample.kw_FR1_0 /\
  Sample.kw_FR1_0 !! "original_session"%string = Some (VInt 0) /\
  Sample.kw_FR1_0 !! "experiment"%string = Some (VStr "FR1").
Proof.
  assert (Automator.build_existing_event_importer_kwargs Sample.reader
            Sample.automator "R1001P" "FR1" 0 Sample.index_FR1_0 true =
          inr Sample.kw_FR1_0) as Hkw by (vm_compute; reflexivity).
  split; [exact Hkw|].
  pose proof (existing_kwargs_remap Sample.reader Sample.automator "R1001P"
                "FR1" 0 Sample.index_FR1_0 true Sample.kw_FR1_0 Hkw)
    as (_ & _ & _ & _ & _ & _ & _ & _ & Hos & Hoe).
  split; [exact (proj2 Hos)|exact (proj2 Hoe)].
Defined.

Lemma existing_kwargs_raises_witness :
  Automator.build_existing_event_importer_kwargs Sample.failing_reader
    Sample.automator "R1001P" "FR1" 0 Sample.index_FR1_0 true =
  inl Sample.io_error.
Proof.
  apply (proj2 (proj2 (existing_kwargs_raises Sample.failing_reader
           Sample.automator "R1001P" "FR1" 0 Sample.index_FR1_0 true))
           Sample.io_error "R1001P").
  - vm_compute. discriminate.
  - vm_compute. reflexivity.
  - reflexivity.
  - reflexivity.
Defined.

(** ** describe() *)

Section Describe.
Import Importer.
Variable items : dict -> list (string * value).

(** The handle after a read of the property holds a value or is not
    initialized, and differs from the one before in nothing that the first
    lines of the description show. *)
Lemma should_transfer_settles (h : t) :
  (initialized (snd (should_transfer h)) = false \/
   _should_transfer (snd (should_transfer h)) <> None) /\
  fst (should_transfer h) = _should_transfer (snd (should_transfer h)) /\
  label (snd (should_transfer h)) = label h /\
  kwargs (snd (should_transfer h)) = kwargs h /\
  initialized (snd (should_transfer h)) = initialized h.
Proof.
  unfold should_transfer.
  destruct (initialized h) eqn:Hi; simpl.
  - destruct (bool_decide (_should_transfer h = None)) eqn:Hd; simpl.
    + destruct (check_stores h) as (_ & Hn & Hl & Hk & Hini).
      rewrite Hl, Hk, Hini. auto.
    + apply bool_decide_eq_false in Hd. rewrite Hi. auto.
  - rewrite Hi. auto.
Qed.

Lemma describe_state (h : t) :
  snd (ImporterReport.describe items h) = snd (should_transfer h).
Proof.
  unfold ImporterReport.describe.
  destruct (should_transfer h) as [v h1]. reflexivity.
Qed.

Lemma describe_stored (h : t) :
  initialized h = false \/ _should_transfer h <> None ->
  snd (ImporterReport.describe items h) = h.
Proof.
  intros H. rewrite describe_state, should_transfer_stored by exact H.
  reflexivity.
Qed.

(** X10.  [describe()] is not a pure read: it reads the [should_transfer]
    property, so on an initialized handle without stored value it computes
    the checksums, once.  On a handle that holds a value or is not
    initialized it changes nothing, and a second [describe()] returns the
    same text as the first and changes nothing. *)
Theorem describe_idempotent (h : t) :
  snd (ImporterReport.describe items h) = snd (should_transfer h) /\
  (initialized h = false \/ _should_transfer h <> None ->
   snd (ImporterReport.describe items h) = h) /\
  ImporterReport.describe items (snd (ImporterReport.describe items h)) =
    ImporterReport.describe items h.
Proof.
  split; [apply describe_state|]. split.
  - intros H. rewrite describe_state, should_transfer_stored by exact H.
    reflexivity.
  - rewrite describe_state.
    destruct (should_transfer_settles h) as (Hset & Hv & Hl & Hk & Hi).
    unfold ImporterReport.describe.
    rewrite (should_transfer_stored _ Hset).
    destruct (should_transfer h) as [v h1]; simpl in *.
    rewrite Hl, Hk, Hi, <- Hv. reflexivity.
Qed.

End Describe.

Section Sentinel.
Variable items : dict -> list (string * value).

Lemma has_newline_app (a b : string) :
  has_newline (a +:+ b) = has_newline a || has_newline b.
Proof.
  induction a as [|c a IH]; simpl; [reflexivity|].
  rewrite IH, orb_assoc. reflexivity.
Qed.

Lemma join_head_newline (sep x : string) (l : list string) :
  has_newline x = true -> has_newline (join sep (x :: l)) = true.
Proof.
  intros H. destruct l as [|y l]; simpl; [exact H|].
  rewrite has_newline_app, H. reflexivity.
Qed.

Lemma describe_has_newline (h : Importer.t) :
  has_newline (fst (ImporterReport.describe items h)) = true.
Proof.
  unfold ImporterReport.describe.
  destruct (Importer.should_transfer h) as [v h1]. simpl.
  rewrite !has_newline_app. simpl. apply orb_true_r.
Qed.

(** X11.  The orchestrator's [describe()] returns the text "No Importers"
    exactly when the list of handles is empty: the description of even one
    handle has several lines and so is a different text. *)
Theorem describe_sentinel_iff {I : Type} (self : Automator.t (I:=I)) :
  fst (AutomatorReport.describe items self) = "No Importers"%string <->
  Automator.importers self = [].
Proof.
  unfold AutomatorReport.describe.
  destruct (Automator.importers self) as [|h l] eqn:E; simpl.
  - split; reflexivity.
  - split; [|discriminate]. intros H. exfalso.
    assert (has_newline "No Importers" = false) as Hn by reflexivity.
    rewrite <- H in Hn. clear H.
    pose proof (sorted_perm Automator.sort_key (Automator.importers self)) as Hp.
    unfold Automator.sorted_importers in Hn.
    destruct (sorted (Automator.importers self) Automator.sort_key)
      as [|x xs] eqn:Es.
    + rewrite E in Hp. apply Permutation_nil in Hp. discriminate Hp.
    + change (List.map
                (fun importer => fst (ImporterReport.describe items importer))
                (x :: xs))
        with (fst (ImporterReport.describe items x) ::
              List.map
                (fun importer => fst (ImporterReport.describe items importer))
                xs) in Hn.
      rewrite join_head_newline in Hn by apply describe_has_newline.
      discriminate Hn.
Qed.

End Sentinel.

(** ** Reporting after population *)

Section ReportAfterPopulate.
Import Automator.
Context {I : Type} (R : IndexReader I) (B : Builders).
Variable items : dict -> list (string * value).

Lemma map_fixed {X} (f : X -> X) (l : list X) :
  Forall (fun x => f x = x) l -> List.map f l = l.
Proof.
  induction 1 as [|x l Hx _ IH]; simpl; [reflexivity|].
  rewrite Hx, IH. reflexivity.
Qed.

(** Every handle that [populate_importers] appends has been checked. *)
Lemma populate_checks (self : t (I:=I)) :
  Forall (fun h => Importer._should_transfer h <> None) (importers self) ->
  Forall (fun h => Importer._should_transfer h <> None)
    (importers (snd (populate_importers R B self))).
Proof.
  revert self.
  change (retains (fun h => Importer._should_transfer h <> None)
            (populate_importers R B)).
  assert (forall (h imp : Importer.t) (r : option bool),
            Importer.check h = (r, imp) ->
            Importer._should_transfer imp <> None) as Hchecked.
  { intros h imp r Hc. destruct (check_stores h) as (_ & Hn & _).
    rewrite Hc in Hn. exact Hn. }
  unfold populate_importers.
  apply retains_bind; [|intros _; apply retains_bind; [|intros _]].
  - intros s. unfold add_existing_events_importers.
    refine (retains_for_each _ (session_indexes R s) _ _ s).
    intros [[[subject experiment] session] index].
    apply retains_bind; [apply retains_lift|]. intros kw.
    unfold existing_events_importer.
    apply retains_bind; [apply retains_lift|]. intros importer.
    destruct (Importer.check importer) as [r imp] eqn:Hc.
    pose proof (Hchecked _ _ _ Hc) as Hn.
    destruct (negb (truthy r) && negb (Importer.errored imp));
      [apply retains_ret|].
    destruct (negb (Importer.errored imp));
      [apply retains_append; exact Hn|].
    apply retains_bind; [apply retains_lift|]. intros importer2.
    destruct (Importer.check importer2) as [r2 imp2] eqn:Hc2.
    pose proof (Hchecked _ _ _ Hc2) as Hn2.
    destruct (negb (truthy r2) && negb (Importer.errored imp2));
      [apply retains_ret|].
    destruct (negb (Importer.errored imp2)); apply retains_append; assumption.
  - intros s. unfold add_existing_montage_importers.
    refine (retains_for_each _ (subjects R (index s) ∅) _ _ s).
    intros subject. apply retains_for_each. intros montage.
    apply retains_bind; [apply retains_lift|]. intros num.
    apply retains_bind; [apply retains_lift|]. intros code.
    apply retains_bind; [apply retains_lift|]. intros importer.
    destruct (Importer.check importer) as [r imp] eqn:Hc.
    pose proof (Hchecked _ _ _ Hc) as Hn.
    destruct (truthy r || Importer.errored imp || INCLUDE_TRANSFERRED);
      [apply retains_append; exact Hn|apply retains_ret].
  - intros s. unfold add_future_events_importers.
    refine (retains_for_each _ (subjects R (index s) ∅) _ _ s).
    intros subject.
    apply retains_bind; [apply retains_lift|]. intros max_montage.
    apply retains_for_each. intros experiment.
    apply retains_bind; [apply retains_lift|]. intros kw.
    apply retains_bind; [apply retains_lift|]. intros importer.
    destruct (Importer.check importer) as [r imp] eqn:Hc.
    pose proof (Hchecked _ _ _ Hc) as Hn.
    destruct (truthy r); [apply retains_append; exact Hn|apply retains_ret].
Qed.

(** X12.  Every handle that [populate_importers] puts into the list has had
    [check()] called on it.  So when the handles that were in the list
    before hold a checksum decision too, the orchestrator's [describe()]
    after [populate_importers] computes no checksums and leaves the
    orchestrator, with every handle, as it is. *)
Theorem describe_after_populate_is_a_read (self : t (I:=I)) :
  Forall (fun h => Importer._should_transfer h <> None) (importers self) ->
  Forall (fun h => Importer._should_transfer h <> None)
    (importers (snd (populate_importers R B self))) /\
  snd (AutomatorReport.describe items (snd (populate_importers R B self))) =
    snd (populate_importers R B self).
Proof.
  intros H. pose proof (populate_checks self H) as Hc.
  split; [exact Hc|].
  destruct (snd (populate_importers R B self)) as [proto ix imps].
  simpl in Hc. unfold AutomatorReport.describe.
  cbn [importers protocol index snd].
  destruct imps as [|h l]; [reflexivity|]. cbn [snd]. f_equal.
  apply map_fixed.
  eapply List.Forall_impl; [|exact Hc].
  intros x Hx. simpl.
  apply describe_stored. right. exact Hx.
Qed.

End ReportAfterPopulate.

Lemma describe_after_populate_is_a_read_witness :
  Forall (fun h => Importer._should_transfer h <> None)
    (Automator.importers Sample.automator) /\
  snd (AutomatorReport.describe map_to_list
         (snd (Automator.populate_importers Sample.reader
                 Sample.builders_fallback Sample.automator))) =
    snd (Automator.populate_importers Sample.reader Sample.builders_fallback
           Sample.automator).
Proof.
  assert (Forall (fun h => Importer._should_transfer h <> None)
            (Automator.importers Sample.automator)) as H by constructor.
  split; [exact H|].
  exact (proj2 (describe_after_populate_is_a_read Sample.reader
                  Sample.builders_fallback map_to_list Sample.automator H)).
Defined.

(** * Properties of vox_mother_converter.py *)

(** ** Contact names *)

Section ContactNames.

Lemma digit_not_newline (c : ascii) : is_digit c = true -> is_newline c = false.
Proof.
  unfold is_digit, is_newline. intros H.
  destruct (Ascii.eqb_spec c "010") as [->|]; [discriminate H|reflexivity].
Qed.

Lemma digits_to_end_digits (ds : string) :
  ds <> EmptyString -> all_digits ds = true -> digits_to_end ds = Some ds.
Proof.
  induction ds as [|c ds IH]; [congruence|]. intros _ H. simpl in H.
  apply andb_prop in H as [Hc Hds]. simpl. rewrite Hc.
  destruct ds as [|c' ds']; [reflexivity|].
  assert (digits_to_end (String c' ds') = Some (String c' ds')) as E
    by (apply IH; [discriminate|exact Hds]).
  destruct ds' as [|c'' ds''].
  - simpl in Hds. apply andb_prop in Hds as [Hc' _].
    rewrite (digit_not_newline c' Hc'), E. reflexivity.
  - rewrite E. reflexivity.
Qed.

Lemma digits_to_end_sound (s ds : string) :
  digits_to_end s = Some ds ->
  ds <> EmptyString /\ all_digits ds = true /\
  (s = ds \/ s = ds +:+ newline).
Proof.
  revert ds. induction s as [|c s IH]; intros ds; [discriminate|].
  simpl. destruct (is_digit c) eqn:Hc; [|discriminate].
  assert (forall ds', digits_to_end s = Some ds' ->
            String c ds' <> EmptyString /\
            all_digits (String c ds') = true /\
            (String c s = String c ds' \/
             String c s = String c ds' +:+ newline)) as Hrec.
  { intros ds' E. destruct (IH ds' E) as (_ & Hd & Hs).
    split; [discriminate|]. split; [simpl; rewrite Hc; exact Hd|].
    destruct Hs as [->| ->]; [left|right]; reflexivity. }
  destruct s as [|c' [|c'' s'']].
  - intros [= <-]. split; [discriminate|]. split; [simpl; rewrite Hc|];
      auto.
  - destruct (is_newline c') eqn:Hn.
    + intros [= <-]. split; [discriminate|].
      split; [simpl; rewrite Hc; reflexivity|]. right.
      unfold is_newline in Hn. apply Ascii.eqb_eq in Hn. subst c'.
      reflexivity.
    + destruct (digits_to_end (String c' "")) as [ds'|] eqn:E; [|discriminate].
      intros [= <-]. apply Hrec. reflexivity.
  - destruct (digits_to_end (String c' (String c'' s''))) as [ds'|] eqn:E;
      [|discriminate].
    intros [= <-]. apply Hrec. reflexivity.
Qed.

(** A character that is no digit and is followed by something is where
    [\d+$] fails. *)
Lemma digits_to_end_blocked (p : string) (c : ascii) (rest : string) :
  is_digit c = false -> rest <> EmptyString ->
  digits_to_end (p +:+ String c rest) = None.
Proof.
  intros Hc Hrest.
  destruct (digits_to_end (p +:+ String c rest)) as [ds|] eqn:E;
    [|reflexivity].
  exfalso. apply digits_to_end_sound in E as (_ & Hd & Hs).
  assert (forall a b x y, all_digits a = true -> is_digit x = false ->
            y <> EmptyString ->
            a = b +:+ String x y \/ a +:+ newline = b +:+ String x y ->
            False) as Habs.
  { clear. intros a b. revert a. induction b as [|cb b IH]; intros a x y Ha Hx Hy.
    - simpl. intros [->|H].
      + simpl in Ha. rewrite Hx in Ha. discriminate.
      + destruct a as [|ca a]; simpl in H.
        * injection H as _ H. congruence.
        * injection H as -> H. simpl in Ha. rewrite Hx in Ha. discriminate.
    - simpl. intros [->|H].
      + simpl in Ha. apply andb_prop in Ha as [_ Ha].
        apply (IH _ x y Ha Hx Hy). left. reflexivity.
      + destruct a as [|ca a]; simpl in H.
        * injection H as _ H. destruct b; discriminate.
        * injection H as _ H. simpl in Ha. apply andb_prop in Ha as [_ Ha].
          apply (IH _ x y Ha Hx Hy). right. exact H. }
  apply (Habs ds p c rest Hd Hc Hrest).
  destruct Hs as [Hs|Hs]; [left|right]; congruence.
Qed.

(** [int] reads a non-empty string of digits as the number it denotes. *)
Lemma int_digits (ds : string) :
  ds <> EmptyString -> all_digits ds = true ->
  int ds = inr (int_of_digits 0 ds).
Proof.
  intros Hne Hds. unfold int. destruct ds as [|d ds']; [congruence|].
  simpl in Hds. apply andb_prop in Hds as [Hd Hds'].
  assert (all_digits (String d ds') = true) as Hall
    by (simpl; rewrite Hd; exact Hds').
  destruct d as [[] [] [] [] [] [] [] []]; try discriminate Hd;
    rewrite Hall; f_equal; lia.
Qed.

(** X13.  A contact name made of a lead name and a number is split where
    the number starts: when the lead name is not empty, has no line feed and
    does not end in a digit, and the number is a non-empty string of digits,
    the pattern matches the name with the lead name as first group and the
    digits as second, and [int] of the digits does not raise. *)
Theorem match_contact_name_splits (p : string) (c : ascii) (ds : string) :
  has_line_feed (p +:+ String c EmptyString) = false ->
  is_digit c = false ->
  ds <> EmptyString -> all_digits ds = true ->
  match_contact_name (p +:+ String c ds) =
    Some (p +:+ String c EmptyString, ds) /\
  int ds = inr (int_of_digits 0 ds).
Proof.
  intros Hnl Hc Hne Hds. split.
  - induction p as [|a p IH]; simpl in *.
    + rewrite orb_false_r in Hnl. rewrite Hnl.
      rewrite (digits_to_end_digits ds Hne Hds). reflexivity.
    + apply orb_false_elim in Hnl as [Ha Hp]. rewrite Ha.
      rewrite (digits_to_end_blocked p c ds Hc Hne).
      rewrite (IH Hp). reflexivity.
  - apply int_digits; assumption.
Qed.

Lemma match_contact_name_splits_witness :
  match_contact_name "LA12" = Some ("LA"%string, "12"%string) /\
  int "12" = inr 12.
Proof.
  exact (match_contact_name_splits "L" "A" "12" eq_refl eq_refl
           ltac:(discriminate) eq_refl).
Defined.

End ContactNames.

Section ContactNamesSound.

Lemma digits_to_end_newline (ds : string) :
  ds <> EmptyString -> all_digits ds = true ->
  digits_to_end (ds +:+ newline) = Some ds.
Proof.
  induction ds as [|c ds IH]; [congruence|]. intros _ H. simpl in H.
  apply andb_prop in H as [Hc Hds]. simpl. rewrite Hc.
  destruct ds as [|c' ds']; [reflexivity|].
  assert (digits_to_end (String c' ds' +:+ newline) = Some (String c' ds'))
    as E by (apply IH; [discriminate|exact Hds]).
  simpl in E |- *. destruct (ds' +:+ newline) eqn:En.
  - destruct ds'; discriminate En.
  - rewrite E. reflexivity.
Qed.

Lemma append_single_inv (p : string) (c x : ascii) :
  p +:+ String c EmptyString = String x EmptyString -> p = EmptyString.
Proof.
  destruct p as [|a p]; [reflexivity|]. simpl. intros [= _ H].
  destruct p; discriminate H.
Qed.

(** The second group of a match is a non-empty string of digits at the end
    of the name. *)
Lemma match_contact_name_digits (s lead ds : string) :
  match_contact_name s = Some (lead, ds) ->
  ds <> EmptyString /\ all_digits ds = true /\
  (s = lead +:+ ds \/ s = lead +:+ ds +:+ newline).
Proof.
  revert lead. induction s as [|a s IH]; intros lead; [discriminate|].
  simpl. destruct (is_newline a); [discriminate|].
  destruct (digits_to_end s) as [ds'|] eqn:Ed.
  - intros [= <- <-].
    destruct (digits_to_end_sound s ds' Ed) as (Hne & Hd & [->| ->]); auto.
  - destruct (match_contact_name s) as [[lead' ds']|]; [|discriminate].
    intros [= <- <-].
    destruct (IH lead' eq_refl) as (Hne & Hd & [->| ->]); auto.
Qed.

(** X14.  When the pattern matches a name, the first group is not empty and
    has no line feed, the second is a non-empty string of digits on which
    [int] does not raise, and the name is the first group followed by the
    second and at most a final line feed.  The first group is as short as
    can be: unless it is a single character, it does not end in a digit. *)
Theorem match_contact_name_sound (s lead ds : string) :
  match_contact_name s = Some (lead, ds) ->
  lead <> EmptyString /\ has_line_feed lead = false /\
  ds <> EmptyString /\ all_digits ds = true /\
  (s = lead +:+ ds \/ s = lead +:+ ds +:+ newline) /\
  (forall (p : string) (c : ascii),
     lead = p +:+ String c EmptyString -> p <> EmptyString ->
     is_digit c = false).
Proof.
  revert lead. induction s as [|a s IH]; intros lead; [discriminate|].
  simpl. destruct (is_newline a) eqn:Ha; [discriminate|].
  destruct (digits_to_end s) as [ds'|] eqn:Ed.
  - intros [= <- <-].
    destruct (digits_to_end_sound s ds' Ed) as (Hne & Hd & Hs).
    split; [discriminate|]. split; [simpl; rewrite Ha; reflexivity|].
    split; [exact Hne|]. split; [exact Hd|]. split.
    + destruct Hs as [->| ->]; [left|right]; reflexivity.
    + intros p c Hp Hpne. symmetry in Hp.
      apply append_single_inv in Hp. congruence.
  - destruct (match_contact_name s) as [[lead' ds']|] eqn:Em; [|discriminate].
    intros [= <- <-].
    destruct (IH lead' eq_refl) as (Hl & Hnl & Hne & Hd & Hs & Hmin).
    split; [discriminate|]. split; [simpl; rewrite Ha; exact Hnl|].
    split; [exact Hne|]. split; [exact Hd|]. split.
    + destruct Hs as [->| ->]; [left|right]; reflexivity.
    + intros p c Hp Hpne.
      destruct p as [|b p]; [congruence|]. simpl in Hp.
      injection Hp as _ Hp.
      destruct p as [|b' p'].
      * simpl in Hp. subst lead'.
        destruct (is_digit c) eqn:Hc; [|reflexivity]. exfalso.
        assert (all_digits (String c ds') = true) as Hall
          by (simpl; rewrite Hc; exact Hd).
        destruct Hs as [->| ->]; simpl in Ed.
        -- change (digits_to_end (String c ds') = None) in Ed.
           rewrite digits_to_end_digits in Ed by (discriminate || exact Hall).
           discriminate Ed.
        -- change (digits_to_end (String c ds' +:+ newline) = None) in Ed.
           rewrite digits_to_end_newline in Ed by (discriminate || exact Hall).
           discriminate Ed.
      * apply (Hmin (String b' p') c Hp). discriminate.
Qed.

Lemma match_contact_name_sound_witness :
  match_contact_name "A1B22" = Some ("A1B"%string, "22"%string) /\
  ("A1B22"%string = "A1B" +:+ "22" \/ "A1B22"%string = "A1B" +:+ "22" +:+ newline).
Proof.
  split; [reflexivity|].
  exact (proj1 (proj2 (proj2 (proj2 (proj2
    (match_contact_name_sound "A1B22" "A1B" "22" eq_refl)))))).
Defined.

Lemma last_char_app (a b : string) :
  b <> EmptyString -> last_char (a +:+ b) = last_char b.
Proof.
  intros Hb. induction a as [|c a IH]; [reflexivity|].
  change (String c a +:+ b) with (String c (a +:+ b)).
  destruct (a +:+ b) as [|x y] eqn:E.
  - destruct a; simpl in E; [contradiction|discriminate].
  - rewrite <- IH. reflexivity.
Qed.

Lemma last_char_digit (ds : string) (c : ascii) :
  all_digits ds = true -> last_char ds = Some c -> is_digit c = true.
Proof.
  induction ds as [|d ds IH]; [discriminate|]. simpl.
  intros H. apply andb_prop in H as [Hd Hds].
  destruct ds; [intros [= <-]; exact Hd|]. apply IH, Hds.
Qed.

(** X15.  A name that ends in a character which is neither a digit nor a
    line feed has no match, whatever comes before. *)
Theorem match_contact_name_needs_number (s : string) (c : ascii) :
  last_char s = Some c -> is_digit c = false -> is_newline c = false ->
  match_contact_name s = None.
Proof.
  intros Hl Hc Hn.
  destruct (match_contact_name s) as [[lead ds]|] eqn:E; [|reflexivity].
  exfalso.
  destruct (match_contact_name_digits s lead ds E) as (Hne & Hd & Hs).
  destruct Hs as [->| ->].
  - rewrite last_char_app in Hl by exact Hne.
    rewrite (last_char_digit ds c Hd Hl) in Hc. discriminate.
  - rewrite last_char_app in Hl by (destruct ds; discriminate).
    rewrite last_char_app in Hl by discriminate.
    injection Hl as <-. discriminate Hn.
Qed.

Lemma match_contact_name_needs_number_witness :
  match_contact_name "LA12x" = None.
Proof.
  exact (match_contact_name_needs_number "LA12x" "x" eq_refl eq_refl eq_refl).
Defined.

End ContactNamesSound.

(** ** read_mother() *)

Section ReadMother.
Import VoxMother.

Lemma int_of_digits_nonneg (ds : string) (acc : Z) :
  all_digits ds = true -> 0 <= acc -> 0 <= int_of_digits acc ds.
Proof.
  revert acc. induction ds as [|c ds IH]; simpl; intros acc H Hacc;
    [exact Hacc|].
  apply andb_prop in H as [Hc Hds]. apply IH; [exact Hds|].
  unfold is_digit in Hc. apply andb_prop in Hc as [Hc _].
  apply Nat.leb_le in Hc. lia.
Qed.

Lemma ints_length (l : list string) (zs : list Z) :
  ints l = inr zs -> length zs = length l.
Proof.
  revert zs. induction l as [|x l IH]; simpl; intros zs.
  - intros [= <-]. reflexivity.
  - destruct (int x) as [?|z]; [discriminate|].
    destruct (ints l) as [?|zs']; [discriminate|].
    intros [= <-]. simpl. rewrite (IH zs' eq_refl). reflexivity.
Qed.

(** What a line that [read_mother] accepts gives. *)
Lemma read_mother_line_inv (line lead_name : string) (n : Z) (c : Contact) :
  read_mother_line line = inr (lead_name, n, c) ->
  num c = n /\ 0 <= n /\
  (exists ds, match_contact_name (name c) = Some (lead_name, ds) /\
              int ds = inr n) /\
  grid_group c = None /\ jack_num c = None /\ grid_loc c = None /\
  (length (coords c) <= 3)%nat /\ (length (grid_size c) <= 2)%nat.
Proof.
  unfold read_mother_line.
  destruct (getitem _ 0) as [?|contact_name]; [discriminate|].
  destruct (ints (take 3 _)) as [?|cs] eqn:Ec; [discriminate|].
  destruct (getitem _ 4) as [?|ty]; [discriminate|].
  destruct (ints (take 2 _)) as [?|sz] eqn:Es; [discriminate|].
  destruct (match_contact_name contact_name) as [[ln ds]|] eqn:Em;
    [|discriminate].
  destruct (match_contact_name_digits _ _ _ Em) as (Hne & Hd & _).
  rewrite (int_digits ds Hne Hd). intros [= <- <- <-]. simpl.
  split; [reflexivity|].
  split; [apply int_of_digits_nonneg; [exact Hd|lia]|].
  split; [exists ds; split; [exact Em|apply int_digits; assumption]|].
  repeat (split; [reflexivity|]).
  apply ints_length in Ec, Es. rewrite Ec, Es, !length_take. lia.
Qed.

(** X16.  In the leads that [read_mother] returns, every contact is filed
    under the lead name and the number that the pattern finds in the
    contact's own name; the number is not negative and is the contact's
    [num]; the contact has at most three coordinates and at most two grid
    sizes, and no grid group, grid location or jack number yet. *)
Theorem read_mother_files_by_name (lines : list string)
    (leads : gmap string (gmap Z Contact)) :
  read_mother lines = inr leads ->
  forall (lead_name : string) (contacts : gmap Z Contact) (n : Z)
         (c : Contact),
    leads !! lead_name = Some contacts -> contacts !! n = Some c ->
    num c = n /\ 0 <= n /\
    (exists ds, match_contact_name (name c) = Some (lead_name, ds) /\
                int ds = inr n) /\
    grid_group c = None /\ jack_num c = None /\ grid_loc c = None /\
    (length (coords c) <= 3)%nat /\ (length (grid_size c) <= 2)%nat.
Proof.
  unfold read_mother.
  assert (forall (acc : gmap string (gmap Z Contact)),
            (forall ln cs n c, acc !! ln = Some cs -> cs !! n = Some c ->
               num c = n /\ 0 <= n /\
               (exists ds, match_contact_name (name c) = Some (ln, ds) /\
                           int ds = inr n) /\
               grid_group c = None /\ jack_num c = None /\
               grid_loc c = None /\
               (length (coords c) <= 3)%nat /\
               (length (grid_size c) <= 2)%nat) ->
            read_mother_lines lines acc = inr leads ->
            forall ln cs n c, leads !! ln = Some cs -> cs !! n = Some c ->
               num c = n /\ 0 <= n /\
               (exists ds, match_contact_name (name c) = Some (ln, ds) /\
                           int ds = inr n) /\
               grid_group c = None /\ jack_num c = None /\
               grid_loc c = None /\
               (length (coords c) <= 3)%nat /\
               (length (grid_size c) <= 2)%nat) as Hgen.
  { induction lines as [|line lines IH]; simpl; intros acc Hacc.
    - intros [= <-]. exact Hacc.
    - destruct (read_mother_line line) as [?|[[ln0 n0] c0]] eqn:El;
        [discriminate|].
      apply IH. intros ln cs n c Hl Hn.
      destruct (decide (ln0 = ln)) as [->|Hne].
      + rewrite lookup_insert_eq in Hl. injection Hl as <-.
        destruct (decide (n0 = n)) as [->|Hne'].
        * rewrite lookup_insert_eq in Hn. injection Hn as <-.
          apply (read_mother_line_inv _ _ _ _ El).
        * rewrite lookup_insert_ne in Hn by exact Hne'.
          destruct (acc !! ln) as [cs0|] eqn:Ea; simpl in Hn.
          -- apply (Hacc ln cs0 n c Ea Hn).
          -- rewrite lookup_empty in Hn. discriminate.
      + rewrite lookup_insert_ne in Hl by exact Hne.
        apply (Hacc ln cs n c Hl Hn). }
  intros H. apply (Hgen ∅); [|exact H].
  intros ln cs n c Hl. rewrite lookup_empty in Hl. discriminate.
Qed.

Lemma read_mother_files_by_name_witness :
  read_mother ["LA1 10 20 30 G 4 8"; "LA2 11 21 31 G 4 8"]%string =
    inr ({[ "LA"%string :=
              {[ 1 := Contact_init "LA1" 1 [10; 20; 30] "G" [4; 8];
                 2 := Contact_init "LA2" 2 [11; 21; 31] "G" [4; 8] ]} ]}) /\
  num (Contact_init "LA2" 2 [11; 21; 31] "G" [4; 8]) = 2.
Proof.
  assert (read_mother ["LA1 10 20 30 G 4 8"; "LA2 11 21 31 G 4 8"]%string =
          inr ({[ "LA"%string :=
                    {[ 1 := Contact_init "LA1" 1 [10; 20; 30] "G" [4; 8];
                       2 := Contact_init "LA2" 2 [11; 21; 31] "G" [4; 8] ]} ]}))
    as H by (vm_compute; reflexivity).
  split; [exact H|].
  refine (proj1 (read_mother_files_by_name _ _ H "LA" _ 2 _ _ _));
    vm_compute; reflexivity.
Defined.

Lemma blank_line_no_words (line : string) :
  all_space line = true -> split_ws (strip line) = [].
Proof.
  intros H. unfold strip. assert (lstrip line = EmptyString) as ->.
  { induction line as [|c line IH]; [reflexivity|]. simpl in *.
    apply andb_prop in H as [Hc Hl]. rewrite Hc. apply IH, Hl. }
  reflexivity.
Qed.

(** X17.  A blank line stops [read_mother] with [IndexError], also as the
    last line of the file, provided the lines before it could be read: a
    file must not contain blank lines. *)
Theorem read_mother_blank_line (good rest : list string) (blank : string) :
  all_space blank = true ->
  Forall (fun line => exists r, read_mother_line line = inr r) good ->
  read_mother (good ++ blank :: rest) =
    inl (Exn IndexError "list index out of range").
Proof.
  intros Hb Hg. unfold read_mother. generalize (∅ : gmap string (gmap Z Contact)).
  induction Hg as [|line good [[[ln n] c] Hl] _ IH]; intros acc; simpl.
  - unfold read_mother_line. rewrite (blank_line_no_words blank Hb).
    reflexivity.
  - rewrite Hl. apply IH.
Qed.

Lemma read_mother_blank_line_witness :
  read_mother (["LA1 10 20 30 G 4 8"%string] ++ newline :: []) =
    inl (Exn IndexError "list index out of range").
Proof.
  apply (read_mother_blank_line ["LA1 10 20 30 G 4 8"%string] [] newline).
  - reflexivity.
  - constructor; [|constructor]. eexists. vm_compute. reflexivity.
Defined.

End ReadMother.

(** ** add_jacksheet() and leads_to_dict() *)

Section Jacksheet.
Import VoxMother.

Lemma amodify_view {V} (view : Contact -> V) (f : Contact -> Contact)
    (k : Z) (contacts : lead_t) :
  (forall c, view (f c) = view c) ->
  List.map (fun '(k', c) => (k', view c)) (amodify k f contacts) =
  List.map (fun '(k', c) => (k', view c)) contacts.
Proof.
  intros Hf. unfold amodify. rewrite List.map_map. apply List.map_ext.
  intros [k' c]. destruct (decide (k = k')); [rewrite Hf|]; reflexivity.
Qed.

Lemma amodify_viewmap {V} (view : Contact -> V) (g : lead_t -> lead_t)
    (lead_name : string) (leads : leads_t) :
  (forall contacts,
     List.map (fun '(k, c) => (k, view c)) (g contacts) =
     List.map (fun '(k, c) => (k, view c)) contacts) ->
  viewmap view (amodify lead_name g leads) = viewmap view leads.
Proof.
  intros Hg. unfold viewmap, amodify. rewrite List.map_map.
  apply List.map_ext. intros [n contacts].
  destruct (decide (lead_name = n)); [rewrite Hg|]; reflexivity.
Qed.

Lemma jacksheet_line_view {V} (view : Contact -> V) (line : string)
    (st : jack_state) :
  (forall j c, view (set_jack_num j c) = view c) ->
  viewmap view (j_leads (snd (add_jacksheet_line line st))) =
  viewmap view (j_leads st).
Proof.
  intros Hv. unfold add_jacksheet_line.
  destruct (getitem _ 0) as [?|jack]; [reflexivity|].
  destruct (getitem _ 1) as [?|contact_name]; [reflexivity|].
  destruct (match_contact_name contact_name) as [[ln ds]|]; [|reflexivity].
  destruct (int ds) as [?|n]; [reflexivity|].
  destruct (alookup ln (j_leads st)) as [contacts|].
  - destruct (alookup n contacts); [|reflexivity]. simpl.
    apply amodify_viewmap. intros cs. apply amodify_view. apply Hv.
  - destruct (bool_decide (ln ∈ j_skipped st)); reflexivity.
Qed.

Lemma jacksheet_view {V} (view : Contact -> V) (lines : list string)
    (st : jack_state) :
  (forall j c, view (set_jack_num j c) = view c) ->
  viewmap view (j_leads (snd (add_jacksheet_lines lines st))) =
  viewmap view (j_leads st).
Proof.
  intros Hv. revert st. induction lines as [|line lines IH]; intros st;
    [reflexivity|].
  simpl. pose proof (jacksheet_line_view view line st Hv) as Hl.
  destruct (add_jacksheet_line line st) as [[e|u] st']; simpl in *.
  - exact Hl.
  - rewrite IH. exact Hl.
Qed.

Lemma fold_left_map {X Y Acc} (f : Acc -> Y -> Acc) (g : X -> Y) (l : list X)
    (a : Acc) :
  fold_left f (List.map g l) a = fold_left (fun a x => f a (g x)) l a.
Proof. revert a. induction l as [|x l IH]; simpl; intros a; auto. Qed.

Lemma leads_to_dict_entries (leads : leads_t) :
  leads_to_dict leads =
  fold_left (fun out_dict '(k, v) => <[k := v]> out_dict) (entries leads) ∅.
Proof.
  unfold leads_to_dict, entries.
  generalize (∅ : gmap string (gmap string jvalue)).
  induction leads as [|[n contacts] leads IH]; intros acc; [reflexivity|].
  simpl. rewrite fold_left_app, IH. f_equal.
  rewrite fold_left_map. clear.
  revert acc. induction contacts as [|[k c] contacts IH]; intros acc;
    [reflexivity|].
  simpl. apply IH.
Qed.

Lemma entries_view (leads : leads_t) :
  entries leads =
  flat_map (fun '(_, vs) => List.map snd vs)
    (viewmap (fun c => (name c, to_dict c)) leads).
Proof.
  unfold entries, viewmap. induction leads as [|[n contacts] leads IH];
    [reflexivity|].
  simpl. rewrite IH. f_equal. rewrite List.map_map.
  apply List.map_ext. intros [k c]. reflexivity.
Qed.

(** X18.  [add_jacksheet] writes jack numbers and nothing else: whatever
    the lines of the jack sheet are, and whether it returns or raises, the
    leads keep their names, their contacts and the order of both, and every
    contact keeps its name, coordinates, number, type, grid size, grid group
    and grid location.  Since [to_dict] leaves the jack number out, the
    dictionary that [leads_to_dict] builds is the same as without the jack
    sheet. *)
Theorem add_jacksheet_only_sets_jack_num (leads : leads_t)
    (lines : list string) :
  viewmap (fun c => (located c, grid_group c, grid_loc c))
    (j_leads (snd (add_jacksheet leads lines))) =
  viewmap (fun c => (located c, grid_group c, grid_loc c)) leads /\
  leads_to_dict (j_leads (snd (add_jacksheet leads lines))) =
  leads_to_dict leads.
Proof.
  unfold add_jacksheet. split.
  - rewrite jacksheet_view; [reflexivity|]. intros j c. reflexivity.
  - rewrite !leads_to_dict_entries, !entries_view.
    rewrite jacksheet_view; [reflexivity|]. intros j c. reflexivity.
Qed.

End Jacksheet.

(** ** add_grid_loc() *)

Section GridLoc.
Import VoxMother.

Lemma alookup_amodify (k n : Z) (f : Contact -> Contact) (l : lead_t) :
  alookup k (amodify n f l) =
  if decide (n = k) then f <$> alookup k l else alookup k l.
Proof.
  induction l as [|[k' c] l IH]; simpl.
  - destruct (decide (n = k)); reflexivity.
  - destruct (decide (n = k')) as [->|Hn]; simpl.
    + destruct (decide (k = k')) as [->|Hk].
      * rewrite decide_True by reflexivity. reflexivity.
      * rewrite IH. reflexivity.
    + destruct (decide (k = k')) as [->|Hk].
      * rewrite decide_False by exact Hn. reflexivity.
      * exact IH.
Qed.

Lemma alookup_In (k : Z) (l : lead_t) (c : Contact) :
  alookup k l = Some c -> In k (List.map fst l).
Proof.
  induction l as [|[k' c'] l IH]; simpl; [discriminate|].
  destruct (decide (k = k')) as [->|]; auto.
Qed.

Lemma assign_grid_view {V} (view : Contact -> V) (prev nums : list Z)
    (g s : Z) (l : lead_t) :
  (forall loc c, view (set_grid_loc loc c) = view c) ->
  (forall gr c, view (set_grid_group gr c) = view c) ->
  List.map (fun '(k, c) => (k, view c)) (snd (assign_grid prev nums g s l)) =
  List.map (fun '(k, c) => (k, view c)) l.
Proof.
  intros H1 H2. revert g s l.
  induction nums as [|num nums IH]; intros g s l; [reflexivity|].
  simpl. destruct (alookup num l) as [contact|]; [|reflexivity].
  destruct (bool_decide (grid_size contact <> prev));
    (destruct (getitem (grid_size contact) 0) as [?|w]; [reflexivity|]);
    (destruct (getitem (grid_size contact) 1) as [?|h]; [reflexivity|]);
    match goal with
    | |- context [if ?b then (_, _) else (_, _)] => destruct b
    end;
    (destruct (w =? 0); [reflexivity|]);
    rewrite IH; apply amodify_view; intros c; rewrite H2, H1; reflexivity.
Qed.

Lemma add_grid_loc_lead_view {V} (view : Contact -> V) (l : lead_t) :
  (forall loc c, view (set_grid_loc loc c) = view c) ->
  (forall gr c, view (set_grid_group gr c) = view c) ->
  List.map (fun '(k, c) => (k, view c)) (snd (add_grid_loc_lead l)) =
  List.map (fun '(k, c) => (k, view c)) l.
Proof.
  intros H1 H2. unfold add_grid_loc_lead.
  destruct (remove_dups _) as [|ty [|ty' tys]]; try reflexivity.
  assert (List.map (fun '(k, c) => (k, view c))
            (if negb (ty =? "G")%string
             then List.map (fun '(k, contact) =>
                              (k, set_grid_loc (1, num contact) contact)) l
             else l) =
          List.map (fun '(k, c) => (k, view c)) l) as Hfirst.
  { destruct (negb _); [|reflexivity]. rewrite List.map_map.
    apply List.map_ext. intros [k c]. rewrite H1. reflexivity. }
  destruct (getitem _ 0) as [?|first]; [exact Hfirst|].
  destruct (alookup first _) as [contact|]; [|exact Hfirst].
  rewrite assign_grid_view by assumption. exact Hfirst.
Qed.

(** X19.  [add_grid_loc] writes grid locations and grid groups and nothing
    else: whether it returns or raises, the leads keep their names, their
    contacts and the order of both, and every contact keeps its name,
    coordinates, number, type, grid size and jack number. *)
Theorem add_grid_loc_only_sets_grid (leads : leads_t) :
  viewmap (fun c => (located c, jack_num c)) (snd (add_grid_loc leads)) =
  viewmap (fun c => (located c, jack_num c)) leads.
Proof.
  induction leads as [|[n l] leads IH]; [reflexivity|].
  simpl.
  pose proof (add_grid_loc_lead_view (fun c => (located c, jack_num c)) l
                ltac:(reflexivity) ltac:(reflexivity)) as Hl.
  destruct (add_grid_loc_lead l) as [[e|u] l']; simpl in *.
  - rewrite Hl. reflexivity.
  - destruct (add_grid_loc leads) as [r rest']. simpl in *.
    rewrite Hl, IH. reflexivity.
Qed.

End GridLoc.

Section GridBounds.
Import VoxMother.

Lemma key_le_int (a b : Z) : key_le [VInt a] [VInt b] = true -> a <= b.
Proof.
  unfold key_le, key_lt. simpl.
  destruct (Z.compare_spec b a); simpl; intros Hle; try lia; discriminate.
Qed.

Lemma sorted_keys_increasing (l : list Z) :
  NoDup l -> StronglySorted Z.lt (sorted l (fun n => [VInt n])).
Proof.
  intros Hnd.
  pose proof (sorted_sorted (fun n => [VInt n]) l) as Hs.
  pose proof (sorted_perm (fun n => [VInt n]) l) as Hp.
  rewrite <- Hp in Hnd. clear Hp.
  induction Hs as [|x l' Hl IH Hx]; [constructor|].
  apply NoDup_cons in Hnd as [Hnin Hnd].
  constructor; [apply IH, Hnd|].
  rewrite List.Forall_forall in Hx |- *. intros b Hb.
  specialize (Hx b Hb). apply key_le_int in Hx.
  assert (x <> b) by (intros ->; apply Hnin, list_elem_of_In, Hb). lia.
Qed.

Lemma placed_weaken (g g' : Z) (c : Contact) :
  g <= g' -> placed g' c -> placed g c.
Proof.
  intros Hg (w & h & rest & x & y & gr & H1 & H2 & H3 & H4 & H5 & H6).
  exists w, h, rest, x, y, gr. repeat (split; [assumption|]).
  split; [lia|exact H6].
Qed.

Lemma getitem_size (sz : list Z) (w h : Z) :
  getitem sz 0 = inr w -> getitem sz 1 = inr h ->
  exists rest, sz = w :: h :: rest.
Proof.
  destruct sz as [|a [|b rest]]; try discriminate.
  intros [= <-] [= <-]. eauto.
Qed.

Lemma cell_in_grid (w h d : Z) :
  0 <= d -> d < w * h -> 0 < w -> 0 < h ->
  0 <= d mod w < w /\ 0 <= d / w < h.
Proof.
  intros Hd Hlt Hw Hh. split; [apply Z.mod_pos_bound; lia|].
  split; [apply Z.div_pos; lia|].
  apply Z.div_lt_upper_bound; lia.
Qed.

Lemma assign_grid_places (prev nums : list Z) :
  forall (g s : Z) (l l' : lead_t),
    assign_grid prev nums g s l = (inr tt, l') ->
    StronglySorted Z.lt nums ->
    (forall n, In n nums -> s <= n) ->
    (forall k, ~ In k nums -> alookup k l' = alookup k l) /\
    (forall n, In n nums -> exists c', alookup n l' = Some c' /\ placed g c') /\
    (forall n1 n2 c1 c2 g1 g2,
       In n1 nums -> In n2 nums -> n1 <= n2 ->
       alookup n1 l' = Some c1 -> alookup n2 l' = Some c2 ->
       grid_group c1 = Some g1 -> grid_group c2 = Some g2 -> g1 <= g2).
Proof.
  induction nums as [|num nums IH]; intros g s l l' Ha Hs Hge.
  - simpl in Ha. injection Ha as <-.
    split; [reflexivity|]. split; [intros n []|intros ? ? ? ? ? ? []].
  - simpl in Ha.
    destruct (alookup num l) as [contact|] eqn:Ec; [|discriminate].
    set (gs1 := if bool_decide (grid_size contact <> prev)
                then (g + 1, num) else (g, s)) in Ha.
    assert (g <= fst gs1 /\ snd gs1 <= num) as [Hg1 Hs1].
    { unfold gs1. destruct (bool_decide _); simpl; split; try lia.
      apply Hge. left. reflexivity. }
    destruct gs1 as [g1 s1]. simpl in Hg1, Hs1.
    destruct (getitem (grid_size contact) 0) as [?|w] eqn:Ew; [discriminate|].
    destruct (getitem (grid_size contact) 1) as [?|h] eqn:Eh; [discriminate|].
    destruct (getitem_size _ _ _ Ew Eh) as [rest Hsize].
    set (gs2 := if w * h <=? num - s1 then (g1 + 1, num) else (g1, s1)) in Ha.
    assert (g1 <= fst gs2 /\ snd gs2 <= num /\
            (0 < w -> 0 < h -> num - snd gs2 < w * h)) as (Hg2 & Hs2 & Hd).
    { unfold gs2. destruct (Z.leb_spec (w * h) (num - s1)); simpl;
        repeat split; intros; first [lia | nia]. }
    destruct gs2 as [g2 s2]. simpl in Hg2, Hs2, Hd.
    destruct (Z.eqb_spec w 0) as [|Hw]; [discriminate|].
    apply StronglySorted_inv in Hs as [Hs Hlt].
    rewrite List.Forall_forall in Hlt.
    assert (~ In num nums) as Hnin
      by (intros Hin; specialize (Hlt num Hin); lia).
    destruct (IH g2 s2 _ l' Ha Hs) as (Hout & Hin & Hmono).
    { intros n Hn. specialize (Hlt n Hn). lia. }
    assert (exists c', alookup num l' = Some c' /\ grid_group c' = Some g2 /\
                       placed g c') as (cn & Hcn & Hgn & Hpn).
    { eexists. split; [|split].
      - rewrite (Hout num Hnin), alookup_amodify, decide_True by reflexivity.
        rewrite Ec. reflexivity.
      - reflexivity.
      - exists w, h, rest, ((num - s2) mod w), ((num - s2) / w), g2.
        repeat (split; [assumption || reflexivity|]).
        split; [lia|]. intros Hw0 Hh0.
        apply cell_in_grid; first [lia | apply Hd; assumption]. }
    split; [|split].
    + intros k Hk. simpl in Hk.
      rewrite (Hout k) by tauto.
      rewrite alookup_amodify, decide_False by tauto. reflexivity.
    + intros n [<-|Hn].
      * exists cn. auto.
      * destruct (Hin n Hn) as (c' & Hc' & Hp). exists c'. split; [exact Hc'|].
        apply (placed_weaken g g2); [lia|exact Hp].
    + intros n1 n2 c1 c2 ga gb [<-|H1] [<-|H2] Hle Hc1 Hc2 Hga Hgb.
      * assert (ga = gb) by congruence. lia.
      * rewrite Hcn in Hc1. injection Hc1 as <-.
        destruct (Hin n2 H2) as (c' & Hc' & Hp).
        rewrite Hc2 in Hc'. injection Hc' as <-.
        destruct Hp as (? & ? & ? & ? & ? & gr & _ & _ & _ & Hgr & Hle' & _).
        rewrite Hgn in Hga. injection Hga as <-.
        rewrite Hgr in Hgb. injection Hgb as <-. exact Hle'.
      * specialize (Hlt n1 H1). lia.
      * apply (Hmono n1 n2 c1 c2 ga gb); assumption.
Qed.

End GridBounds.

Section GridTheorems.
Import VoxMother.

Lemma keys_of_view {V} (view : Contact -> V) (a b : lead_t) :
  List.map (fun '(k, c) => (k, view c)) a =
  List.map (fun '(k, c) => (k, view c)) b ->
  List.map fst a = List.map fst b.
Proof.
  intros H. apply (f_equal (List.map fst)) in H.
  rewrite !List.map_map in H.
  assert (forall l : lead_t,
            List.map (fun x => fst (let '(k, c) := x in (k, view c))) l =
            List.map fst l) as E
    by (intros l; apply List.map_ext; intros [k c]; reflexivity).
  rewrite !E in H. exact H.
Qed.

Lemma add_grid_loc_lead_ok (l l' : lead_t) :
  add_grid_loc_lead l = (inr tt, l') -> numbered l -> grid_ok l'.
Proof.
  unfold add_grid_loc_lead. intros Ha [Hnd Hpos].
  destruct (remove_dups _) as [|ty [|ty' tys]]; try discriminate.
  set (l1 := if negb (ty =? "G")%string
             then List.map (fun '(k, contact) =>
                              (k, set_grid_loc (1, num contact) contact)) l
             else l) in *.
  assert (List.map fst l1 = List.map fst l) as Hk1.
  { unfold l1. destruct (negb _); [|reflexivity].
    rewrite List.map_map. apply List.map_ext. intros [k c]. reflexivity. }
  rewrite Hk1 in Ha.
  destruct (getitem _ 0) as [?|first]; [discriminate|].
  destruct (alookup first l1) as [contact|]; [|discriminate].
  pose proof (assign_grid_view (fun _ => tt) (grid_size contact)
                (sorted (List.map fst l) (fun n => [VInt n])) 0 1 l1
                ltac:(reflexivity) ltac:(reflexivity)) as Hv.
  rewrite Ha in Hv. simpl in Hv. apply keys_of_view in Hv.
  pose proof (sorted_perm (fun n => [VInt n]) (List.map fst l)) as Hp.
  destruct (assign_grid_places _ _ _ _ _ _ Ha
              (sorted_keys_increasing _ Hnd)) as (_ & Hin & Hmono).
  { intros n Hn. apply Hpos. eapply Permutation_in; [exact Hp|exact Hn]. }
  assert (forall n c, alookup n l' = Some c ->
            In n (sorted (List.map fst l) (fun n => [VInt n]))) as Hmem.
  { intros n c Hc. apply alookup_In in Hc. rewrite Hv, Hk1 in Hc.
    eapply Permutation_in; [symmetry; exact Hp|exact Hc]. }
  split.
  - intros n c Hc. destruct (Hin n (Hmem n c Hc)) as (c' & Hc' & Hpl).
    rewrite Hc in Hc'. injection Hc' as <-. exact Hpl.
  - intros n1 n2 c1 c2 g1 g2 H1 H2 Hle Hg1 Hg2.
    apply (Hmono n1 n2 c1 c2 g1 g2 (Hmem n1 c1 H1) (Hmem n2 c2 H2) Hle H1 H2
             Hg1 Hg2).
Qed.

(** X20.  When [add_grid_loc] returns on leads whose contact numbers are at
    least 1, every contact has a grid location and a grid group of at least
    0, its grid size has a width other than zero, the location lies within
    the grid (column from 0 below the width, row from 0 below the height)
    whenever width and height are positive, and within a lead the group
    numbers do not decrease as the contact numbers grow. *)
Theorem add_grid_loc_places_contacts (leads leads' : leads_t) :
  add_grid_loc leads = (inr tt, leads') ->
  Forall (fun nl => numbered (snd nl)) leads ->
  Forall (fun nl => grid_ok (snd nl)) leads'.
Proof.
  revert leads'. induction leads as [|[n l] leads IH]; intros leads' Ha Hn.
  - simpl in Ha. injection Ha as <-. constructor.
  - simpl in Ha. apply Forall_cons in Hn as [Hl Hn].
    destruct (add_grid_loc_lead l) as [[e|[]] l'] eqn:El; [discriminate|].
    destruct (add_grid_loc leads) as [r rest'] eqn:Er.
    injection Ha as -> <-.
    constructor; [exact (add_grid_loc_lead_ok l l' El Hl)|].
    apply IH; [reflexivity|exact Hn].
Qed.

Lemma add_grid_loc_places_contacts_witness :
  add_grid_loc VoxSample.la = (inr tt, VoxSample.la_located) /\
  Forall (fun nl => numbered (snd nl)) VoxSample.la /\
  Forall (fun nl => grid_ok (snd nl)) VoxSample.la_located.
Proof.
  assert (add_grid_loc VoxSample.la = (inr tt, VoxSample.la_located)) as Ha
    by (vm_compute; reflexivity).
  assert (Forall (fun nl => numbered (snd nl)) VoxSample.la) as Hn.
  { constructor; [|constructor]. split.
    - simpl. repeat constructor; rewrite ?elem_of_cons, ?elem_of_nil; lia.
    - simpl. intros k [<-|[<-|[<-|[]]]]; lia. }
  split; [exact Ha|]. split; [exact Hn|].
  exact (add_grid_loc_places_contacts VoxSample.la VoxSample.la_located Ha Hn).
Defined.

End GridTheorems.

Section GridErrors.
Import VoxMother.

Lemma remove_dups_two (l : list string) (a b : string) :
  a ∈ l -> b ∈ l -> a <> b ->
  exists x y rest, remove_dups l = x :: y :: rest.
Proof.
  intros Ha Hb Hne.
  apply elem_of_remove_dups in Ha, Hb.
  destruct (remove_dups l) as [|x [|y rest]]; [|exfalso|eauto].
  - apply elem_of_nil in Ha. destruct Ha.
  - apply list_elem_of_singleton in Ha, Hb. congruence.
Qed.

Lemma mixed_lead_raises (l : lead_t) :
  (exists k1 c1 k2 c2,
     In (k1, c1) l /\ In (k2, c2) l /\ type c1 <> type c2) ->
  add_grid_loc_lead l =
    (inl (Exn OtherException "Cannot convert lead with multiple types"), l).
Proof.
  intros (k1 & c1 & k2 & c2 & H1 & H2 & Hne). unfold add_grid_loc_lead.
  destruct (remove_dups_two
              (List.map (fun '(_, contact) => type contact) l)
              (type c1) (type c2)) as (x & y & rest & ->);
    [| |exact Hne|reflexivity].
  - apply list_elem_of_In, List.in_map_iff. exists (k1, c1). auto.
  - apply list_elem_of_In, List.in_map_iff. exists (k2, c2). auto.
Qed.

(** X21.  A lead whose contacts are not all of one type makes
    [add_grid_loc] raise the exception "Cannot convert lead with multiple
    types".  When the leads before it could be located, they are located
    then; the lead itself and the leads after it are as they were. *)
Theorem add_grid_loc_stops_at_mixed_lead (before after : leads_t)
    (lead_name : string) (mixed : lead_t) :
  Forall (fun nl => fst (add_grid_loc_lead (snd nl)) = inr tt) before ->
  (exists k1 c1 k2 c2,
     In (k1, c1) mixed /\ In (k2, c2) mixed /\ type c1 <> type c2) ->
  add_grid_loc (before ++ (lead_name, mixed) :: after) =
    (inl (Exn OtherException "Cannot convert lead with multiple types"),
     List.map (fun nl => (fst nl, snd (add_grid_loc_lead (snd nl)))) before ++
     (lead_name, mixed) :: after).
Proof.
  intros Hb Hm. induction Hb as [|[n l] before Hl _ IH]; simpl.
  - rewrite (mixed_lead_raises mixed Hm). reflexivity.
  - simpl in Hl. destruct (add_grid_loc_lead l) as [r l']. simpl in Hl.
    subst r. rewrite IH. reflexivity.
Qed.

Lemma add_grid_loc_stops_at_mixed_lead_witness :
  add_grid_loc (VoxSample.la ++ ("LB"%string, VoxSample.mixed) :: VoxSample.la) =
    (inl (Exn OtherException "Cannot convert lead with multiple types"),
     VoxSample.la_located ++ ("LB"%string, VoxSample.mixed) :: VoxSample.la).
Proof.
  apply (add_grid_loc_stops_at_mixed_lead VoxSample.la VoxSample.la "LB"
           VoxSample.mixed).
  - constructor; [vm_compute; reflexivity|constructor].
  - eexists 1, _, 2, _. split; [left; reflexivity|].
    split; [right; left; reflexivity|]. simpl. discriminate.
Defined.

Lemma remove_dups_const (l : list string) (ty : string) :
  l <> [] -> (forall x, In x l -> x = ty) -> remove_dups l = [ty].
Proof.
  induction l as [|x l IH]; [congruence|]. intros _ H.
  assert (x = ty) as -> by (apply H; left; reflexivity).
  destruct l as [|y l]; [reflexivity|].
  assert (y = ty) as -> by (apply H; right; left; reflexivity).
  change (remove_dups (ty :: ty :: l))
    with (if decide_rel elem_of ty (ty :: l)
          then remove_dups (ty :: l) else ty :: remove_dups (ty :: l)).
  destruct (decide_rel elem_of ty (ty :: l)) as [_|Hn].
  - apply IH; [discriminate|]. intros z Hz. apply H. right. exact Hz.
  - exfalso. apply Hn, elem_of_cons. left. reflexivity.
Qed.

Lemma In_alookup (k : Z) (l : lead_t) :
  In k (List.map fst l) -> exists c, alookup k l = Some c.
Proof.
  induction l as [|[k' c] l IH]; simpl; [intros []|].
  destruct (decide (k = k')) as [->|Hne]; [eauto|].
  intros [Heq|Hin]; [congruence|apply IH, Hin].
Qed.

Lemma alookup_map (k : Z) (f : Z -> Contact -> Contact) (l : lead_t) :
  alookup k (List.map (fun '(k', c) => (k', f k' c)) l) = f k <$> alookup k l.
Proof.
  induction l as [|[k' c] l IH]; simpl; [reflexivity|].
  destruct (decide (k = k')) as [->|]; [reflexivity|exact IH].
Qed.

Lemma assign_grid_zero (prev nums : list Z) :
  forall (g s : Z) (l : lead_t),
    (forall n, In n nums -> exists c, alookup n l = Some c) ->
    (forall n c, alookup n l = Some c -> (2 <= length (grid_size c))%nat) ->
    (exists n c, In n nums /\ alookup n l = Some c /\
                 exists h rest, grid_size c = 0 :: h :: rest) ->
    fst (assign_grid prev nums g s l) =
      inl (Exn OtherException "integer division or modulo by zero").
Proof.
  induction nums as [|num nums IH]; intros g s l Hall Hlen Hzero.
  - destruct Hzero as (n & c & [] & _).
  - simpl. destruct (Hall num (or_introl eq_refl)) as [contact Ec].
    rewrite Ec. pose proof (Hlen num contact Ec) as Hl.
    destruct (grid_size contact) as [|w [|h rest]] eqn:Es;
      simpl in Hl; try lia.
    simpl.
    destruct (bool_decide (w :: h :: rest <> prev));
      match goal with
      | |- context [if ?b then (_, _) else (_, _)] => destruct b
      end;
      (destruct (Z.eqb_spec w 0) as [->|Hw]; [reflexivity|]);
      (apply IH;
       [ intros n Hn; rewrite alookup_amodify;
         destruct (Hall n (or_intror Hn)) as [c Hc]; rewrite Hc;
         destruct (decide (num = n)); eauto
       | intros n c; rewrite alookup_amodify;
         destruct (decide (num = n)) as [->|];
         [ rewrite Ec; intros [= <-]; simpl; rewrite Es; simpl; lia
         | apply Hlen ]
       | destruct Hzero as (n & c & [<-|Hn] & Hc & h0 & rest0 & Hs);
         [ rewrite Ec in Hc; injection Hc as <-; congruence
         | exists n; rewrite alookup_amodify, Hc;
           destruct (decide (num = n));
           eexists; (split; [exact Hn|]); (split; [reflexivity|]);
           simpl; eauto ] ]).
Qed.

(** For one lead: contacts of one type that all have a grid width and a
    grid height, one of them with the width 0. *)
Lemma zero_width_lead_raises (l : lead_t) (ty : string) (k : Z)
    (c : Contact) (h : Z) (rest : list Z) :
  (forall k' c', In (k', c') l -> type c' = ty) ->
  (forall k' c', alookup k' l = Some c' -> (2 <= length (grid_size c'))%nat) ->
  alookup k l = Some c -> grid_size c = 0 :: h :: rest ->
  fst (add_grid_loc_lead l) =
    inl (Exn OtherException "integer division or modulo by zero").
Proof.
  intros Hty Hlen Hk Hsize. unfold add_grid_loc_lead.
  rewrite (remove_dups_const _ ty).
  2: { destruct l; [discriminate Hk|discriminate]. }
  2: { intros x Hx. apply List.in_map_iff in Hx as ([k' c'] & <- & Hin).
       apply (Hty k' c' Hin). }
  set (l1 := if negb (ty =? "G")%string
             then List.map (fun '(k, contact) =>
                              (k, set_grid_loc (1, num contact) contact)) l
             else l).
  assert (forall n, exists f, alookup n l1 = f <$> alookup n l /\
                              forall x, grid_size (f x) = grid_size x) as Hl1.
  { intros n. unfold l1. destruct (negb _).
    - exists (fun c => set_grid_loc (1, num c) c). split; [|reflexivity].
      apply (alookup_map n (fun _ c => set_grid_loc (1, num c) c)).
    - exists (fun c => c). split; [|reflexivity].
      destruct (alookup n l); reflexivity. }
  assert (List.map fst l1 = List.map fst l) as Hk1.
  { unfold l1. destruct (negb _); [|reflexivity].
    rewrite List.map_map. apply List.map_ext. intros [k' c']. reflexivity. }
  pose proof (sorted_perm (fun n => [VInt n]) (List.map fst l1)) as Hp.
  assert (In k (sorted (List.map fst l1) (fun n => [VInt n]))) as Hin.
  { eapply Permutation_in; [symmetry; exact Hp|].
    rewrite Hk1. eapply alookup_In, Hk. }
  destruct (sorted (List.map fst l1) (fun n => [VInt n])) as [|first nums]
    eqn:Es; [destruct Hin|].
  change (getitem (first :: nums) 0) with (@inr exn Z first). cbv beta iota.
  assert (forall n, In n (first :: nums) -> exists c, alookup n l1 = Some c)
    as Hall.
  { intros n Hn. apply In_alookup.
    eapply Permutation_in; [exact Hp|exact Hn]. }
  destruct (Hall first (or_introl eq_refl)) as [contact Hc]. rewrite Hc.
  apply assign_grid_zero.
  - exact Hall.
  - intros n c' Hc'. destruct (Hl1 n) as (f & Hf & Hs). rewrite Hf in Hc'.
    destruct (alookup n l) as [c0|] eqn:E0; [|discriminate].
    injection Hc' as <-. rewrite Hs. apply (Hlen n c0 E0).
  - destruct (Hl1 k) as (f & Hf & Hs). rewrite Hk in Hf.
    exists k, (f c). split; [exact Hin|]. split; [exact Hf|].
    rewrite Hs, Hsize. eauto.
Qed.

(** [add_grid_loc] raises what the first lead that cannot be located
    raises. *)
Lemma add_grid_loc_raises_at (before after : leads_t) (lead_name : string)
    (l : lead_t) (e : exn) :
  Forall (fun nl => fst (add_grid_loc_lead (snd nl)) = inr tt) before ->
  fst (add_grid_loc_lead l) = inl e ->
  fst (add_grid_loc (before ++ (lead_name, l) :: after)) = inl e.
Proof.
  intros Hb He. induction Hb as [|[n l0] before Hl _ IH]; simpl.
  - destruct (add_grid_loc_lead l) as [r l']. simpl in He. subst r.
    reflexivity.
  - simpl in Hl. destruct (add_grid_loc_lead l0) as [r l']. simpl in Hl.
    subst r. destruct (add_grid_loc (before ++ _)) as [r rest'].
    exact IH.
Qed.

(** X22.  A lead of one type whose contacts all have a grid width and a grid
    height stops [add_grid_loc] with [ZeroDivisionError] as soon as one of
    its contacts has the grid width 0, when the leads before it could be
    located. *)
Theorem add_grid_loc_zero_width (before after : leads_t)
    (lead_name : string) (l : lead_t) (ty : string) (k : Z) (c : Contact)
    (h : Z) (rest : list Z) :
  Forall (fun nl => fst (add_grid_loc_lead (snd nl)) = inr tt) before ->
  (forall k' c', In (k', c') l -> type c' = ty) ->
  (forall k' c', alookup k' l = Some c' -> (2 <= length (grid_size c'))%nat) ->
  alookup k l = Some c -> grid_size c = 0 :: h :: rest ->
  fst (add_grid_loc (before ++ (lead_name, l) :: after)) =
    inl (Exn OtherException "integer division or modulo by zero").
Proof.
  intros Hb Hty Hlen Hk Hsize.
  apply add_grid_loc_raises_at; [exact Hb|].
  exact (zero_width_lead_raises l ty k c h rest Hty Hlen Hk Hsize).
Qed.

Lemma add_grid_loc_zero_width_witness :
  fst (add_grid_loc (VoxSample.la ++ [("LC"%string, VoxSample.flat)])) =
    inl (Exn OtherException "integer division or modulo by zero").
Proof.
  apply (add_grid_loc_zero_width VoxSample.la [] "LC" VoxSample.flat "S" 2
           (Contact_init "LC2" 2 [1; 2; 4] "S" [0; 4]) 4 []).
  - constructor; [vm_compute; reflexivity|constructor].
  - intros k' c' [[= <- <-]|[[= <- <-]|[]]]; reflexivity.
  - intros k' c'. unfold VoxSample.flat. simpl.
    destruct (decide (k' = 1)); [intros [= <-]; simpl; lia|].
    destruct (decide (k' = 2)); [intros [= <-]; simpl; lia|discriminate].
  - reflexivity.
  - reflexivity.
Defined.

End GridErrors.

Section GridResize.
Import VoxMother.

Lemma assign_grid_outside (prev nums : list Z) :
  forall (g s : Z) (l : lead_t) (k : Z),
    ~ In k nums ->
    alookup k (snd (assign_grid prev nums g s l)) = alookup k l.
Proof.
  induction nums as [|num nums IH]; intros g s l k Hk; [reflexivity|].
  simpl. destruct (alookup num l) as [contact|]; [|reflexivity].
  destruct (bool_decide (grid_size contact <> prev));
    (destruct (getitem (grid_size contact) 0) as [?|w]; [reflexivity|]);
    (destruct (getitem (grid_size contact) 1) as [?|h]; [reflexivity|]);
    match goal with
    | |- context [if ?b then (_, _) else (_, _)] => destruct b
    end;
    (destruct (w =? 0); [reflexivity|]);
    (rewrite IH by (intros Hin; apply Hk; right; exact Hin));
    rewrite alookup_amodify, decide_False
      by (intros ->; apply Hk; left; reflexivity);
    reflexivity.
Qed.

Lemma assign_grid_resized (prev nums : list Z) :
  forall (g s : Z) (l l' : lead_t) (n : Z) (c' : Contact),
    assign_grid prev nums g s l = (inr tt, l') ->
    StronglySorted Z.lt nums ->
    In n nums -> alookup n l' = Some c' -> grid_size c' <> prev ->
    grid_loc c' = Some (0, 0).
Proof.
  induction nums as [|num nums IH]; intros g s l l' n c' Ha Hs Hn Hc Hsz;
    [destruct Hn|].
  apply StronglySorted_inv in Hs as [Hs Hlt].
  rewrite List.Forall_forall in Hlt.
  assert (~ In num nums) as Hnin
    by (intros Hin; specialize (Hlt num Hin); lia).
  simpl in Ha.
  destruct (alookup num l) as [contact|] eqn:Ec; [|discriminate].
  destruct (getitem (grid_size contact) 0) as [?|w] eqn:Ew;
    [destruct (bool_decide _); discriminate|].
  destruct (getitem (grid_size contact) 1) as [?|h] eqn:Eh;
    [destruct (bool_decide _); discriminate|].
  destruct Hn as [<-|Hn].
  - destruct (bool_decide (grid_size contact <> prev)) eqn:Ed.
    + destruct (w * h <=? num - num);
        (destruct (Z.eqb_spec w 0); [discriminate|]);
        match type of Ha with
        | assign_grid _ _ ?g' ?s' ?l0 = _ =>
            pose proof (assign_grid_outside prev nums g' s' l0 num Hnin) as Ho
        end;
        rewrite Ha in Ho; simpl in Ho;
        rewrite alookup_amodify, decide_True, Ec in Ho by reflexivity;
        rewrite Hc in Ho; injection Ho as ->; simpl;
        rewrite Z.sub_diag, Zmod_0_l, Zdiv_0_l; reflexivity.
    + exfalso. apply bool_decide_eq_false in Ed. apply Hsz.
      assert (grid_size c' = grid_size contact) as ->;
        [|destruct (decide (grid_size contact = prev));
          [assumption|contradiction]].
      destruct (w * h <=? num - s);
        (destruct (Z.eqb_spec w 0); [discriminate|]);
        match type of Ha with
        | assign_grid _ _ ?g' ?s' ?l0 = _ =>
            pose proof (assign_grid_outside prev nums g' s' l0 num Hnin) as Ho
        end;
        rewrite Ha in Ho; simpl in Ho;
        rewrite alookup_amodify, decide_True, Ec in Ho by reflexivity;
        rewrite Hc in Ho; injection Ho as ->; reflexivity.
  - destruct (bool_decide (grid_size contact <> prev));
      match type of Ha with
      | context [if ?b then (_, _) else (_, _)] => destruct b
      end;
      (destruct (Z.eqb_spec w 0); [discriminate|]);
      eapply IH; eauto.
Qed.

Lemma alookup_view {V} (view : Contact -> V) (a b : lead_t) (k : Z) :
  List.map (fun '(k, c) => (k, view c)) a =
  List.map (fun '(k, c) => (k, view c)) b ->
  view <$> alookup k a = view <$> alookup k b.
Proof.
  revert b. induction a as [|[ka ca] a IH]; intros [|[kb cb] b]; simpl;
    try discriminate; [reflexivity|].
  intros [= -> Hv Hrest].
  destruct (decide (k = kb)); simpl; [rewrite Hv; reflexivity|].
  apply IH, Hrest.
Qed.

(** For one lead: the grid location of a contact whose grid size differs
    from that of the lowest-numbered contact. *)
Lemma resized_contact_restarts (l l' : lead_t) (k0 n : Z)
    (c0 c' : Contact) :
  add_grid_loc_lead l = (inr tt, l') ->
  NoDup (List.map fst l) ->
  alookup k0 l' = Some c0 ->
  (forall k, In k (List.map fst l) -> k0 <= k) ->
  alookup n l' = Some c' ->
  grid_size c' <> grid_size c0 ->
  grid_loc c' = Some (0, 0).
Proof.
  unfold add_grid_loc_lead. intros Ha Hnd Hk0 Hlow Hn Hsz.
  destruct (remove_dups _) as [|ty [|ty' tys]]; try discriminate.
  set (l1 := if negb (ty =? "G")%string
             then List.map (fun '(k, contact) =>
                              (k, set_grid_loc (1, num contact) contact)) l
             else l) in *.
  assert (List.map fst l1 = List.map fst l) as Hk1.
  { unfold l1. destruct (negb _); [|reflexivity].
    rewrite List.map_map. apply List.map_ext. intros [k c]. reflexivity. }
  rewrite Hk1 in Ha.
  pose proof (sorted_perm (fun n => [VInt n]) (List.map fst l)) as Hp.
  pose proof (sorted_keys_increasing _ Hnd) as Hs.
  destruct (sorted (List.map fst l) (fun n => [VInt n])) as [|first nums]
    eqn:Es; [discriminate|].
  change (getitem (first :: nums) 0) with (@inr exn Z first) in Ha.
  cbv beta iota in Ha.
  destruct (alookup first l1) as [contact|] eqn:Ec; [|discriminate].
  pose proof (assign_grid_view (fun c => grid_size c) (grid_size contact)
                (first :: nums) 0 1 l1 ltac:(reflexivity) ltac:(reflexivity))
    as Hv.
  rewrite Ha in Hv. simpl snd in Hv.
  assert (forall k c, alookup k l' = Some c -> In k (first :: nums)) as Hmem.
  { intros k c Hc. apply alookup_In in Hc.
    rewrite (keys_of_view _ _ _ Hv), Hk1 in Hc.
    eapply Permutation_in; [symmetry; exact Hp|exact Hc]. }
  assert (k0 = first) as ->.
  { destruct (Hmem k0 c0 Hk0) as [<-|Hin]; [reflexivity|].
    apply StronglySorted_inv in Hs as [_ Hlt].
    rewrite List.Forall_forall in Hlt. specialize (Hlt k0 Hin).
    assert (k0 <= first); [|lia].
    apply Hlow. eapply Permutation_in; [exact Hp|]. left. reflexivity. }
  assert (grid_size c0 = grid_size contact) as Hsame.
  { pose proof (alookup_view _ _ _ first Hv) as Hf.
    rewrite Hk0, Ec in Hf. simpl in Hf. congruence. }
  rewrite Hsame in Hsz.
  exact (assign_grid_resized _ _ _ _ _ _ n c' Ha Hs (Hmem n c' Hn) Hn Hsz).
Qed.

(** When [add_grid_loc] returns, each lead of its result is what the body
    of its loop made of a lead of that name. *)
Lemma add_grid_loc_leadwise (leads leads' : leads_t) (lead_name : string)
    (l' : lead_t) :
  add_grid_loc leads = (inr tt, leads') ->
  In (lead_name, l') leads' ->
  exists l : lead_t,
    In (lead_name, l) leads /\ add_grid_loc_lead l = (inr tt, l').
Proof.
  revert leads'. induction leads as [|[n l] leads IH]; intros leads' Ha Hin.
  - simpl in Ha. injection Ha as <-. destruct Hin.
  - simpl in Ha.
    destruct (add_grid_loc_lead l) as [[e|[]] l1] eqn:El; [discriminate|].
    destruct (add_grid_loc leads) as [r rest'] eqn:Er.
    injection Ha as -> <-.
    destruct Hin as [[= <- <-]|Hin].
    + exists l. split; [left; reflexivity|exact El].
    + destruct (IH rest' eq_refl Hin) as (l0 & Hl0 & E0).
      exists l0. split; [right; exact Hl0|exact E0].
Qed.

(** X23.  [add_grid_loc] compares every grid size with that of the
    lowest-numbered contact of the lead and never with that of the contact
    before.  So when it returns, in every lead every contact whose grid size
    differs from that of the lowest-numbered contact of the lead has the
    grid location (0, 0). *)
Theorem add_grid_loc_resized (leads leads' : leads_t) (lead_name : string)
    (l' : lead_t) (k0 n : Z) (c0 c' : Contact) :
  add_grid_loc leads = (inr tt, leads') ->
  In (lead_name, l') leads' ->
  NoDup (List.map fst l') ->
  alookup k0 l' = Some c0 ->
  (forall k, In k (List.map fst l') -> k0 <= k) ->
  alookup n l' = Some c' ->
  grid_size c' <> grid_size c0 ->
  grid_loc c' = Some (0, 0).
Proof.
  intros Ha Hin Hnd Hk0 Hlow Hn Hsz.
  destruct (add_grid_loc_leadwise leads leads' lead_name l' Ha Hin)
    as (l & _ & El).
  assert (List.map fst l' = List.map fst l) as Hkeys.
  { pose proof (add_grid_loc_lead_view (fun _ => tt) l
                  ltac:(reflexivity) ltac:(reflexivity)) as Hv.
    rewrite El in Hv. exact (keys_of_view _ _ _ Hv). }
  rewrite Hkeys in Hnd, Hlow.
  exact (resized_contact_restarts l l' k0 n c0 c' El Hnd Hk0 Hlow Hn Hsz).
Qed.

Lemma add_grid_loc_resized_witness :
  add_grid_loc (VoxSample.la ++ [("LD"%string, VoxSample.resized)]) =
    (inr tt,
     VoxSample.la_located ++ [("LD"%string, VoxSample.resized_located)]) /\
  grid_loc (mkContact "LD4" [1; 2; 6] 4 "G" [1; 3] (Some 2) None (Some (0, 0))) =
    Some (0, 0).
Proof.
  assert (add_grid_loc (VoxSample.la ++ [("LD"%string, VoxSample.resized)]) =
          (inr tt,
           VoxSample.la_located ++ [("LD"%string, VoxSample.resized_located)]))
    as Ha by (vm_compute; reflexivity).
  split; [exact Ha|].
  refine (add_grid_loc_resized _ _ "LD" VoxSample.resized_located 1 4
            (mkContact "LD1" [1; 2; 3] 1 "G" [2; 1] (Some 0) None (Some (0, 0)))
            _ Ha _ _ _ _ _ _).
  - right. left. reflexivity.
  - simpl. repeat constructor; rewrite ?elem_of_cons, ?elem_of_nil; lia.
  - reflexivity.
  - simpl. intros k [<-|[<-|[<-|[<-|[]]]]]; lia.
  - reflexivity.
  - simpl. discriminate.
Defined.

End GridResize.

(** ** The warnings of add_jacksheet() *)

Section JacksheetWarnings.
Import VoxMother.

Lemma count_occ_snoc (l : list string) (x y : string) :
  count_occ string_dec (l ++ [y]) x =
  (count_occ string_dec l x + (if string_dec y x then 1 else 0))%nat.
Proof.
  rewrite count_occ_app. simpl. destruct (string_dec y x); reflexivity.
Qed.

Lemma append_inj_l (p a b : string) : p +:+ a = p +:+ b -> a = b.
Proof.
  induction p as [|c p IH]; simpl; [auto|]. intros [= H]. apply IH, H.
Qed.

Lemma jacksheet_line_warns_once (line : string) (st : jack_state) :
  (forall x, count_occ string_dec (j_printed st) (skipping_lead x) =
             if bool_decide (x ∈ j_skipped st) then 1%nat else 0%nat) ->
  forall x,
    count_occ string_dec (j_printed (snd (add_jacksheet_line line st)))
      (skipping_lead x) =
    if bool_decide (x ∈ j_skipped (snd (add_jacksheet_line line st)))
    then 1%nat else 0%nat.
Proof.
  intros Hinv x. unfold add_jacksheet_line.
  destruct (getitem _ 0) as [?|jack]; [apply Hinv|].
  destruct (getitem _ 1) as [?|contact_name]; [apply Hinv|].
  destruct (match_contact_name contact_name) as [[ln ds]|].
  - destruct (int ds) as [?|n]; [apply Hinv|].
    destruct (alookup ln (j_leads st)) as [contacts|].
    + destruct (alookup n contacts); simpl; [apply Hinv|].
      rewrite count_occ_snoc, Hinv.
      destruct (string_dec _ _) as [E|_]; [discriminate E|]. lia.
    + destruct (bool_decide (ln ∈ j_skipped st)) eqn:Hs; [apply Hinv|].
      simpl. rewrite count_occ_snoc, Hinv.
      apply bool_decide_eq_false in Hs.
      destruct (string_dec _ _) as [E|Hne].
      * assert (ln = x) as Heq by (eapply append_inj_l; exact E).
        subst x. clear E.
        rewrite (bool_decide_eq_false_2 _ Hs).
        rewrite bool_decide_eq_true_2
          by (apply elem_of_app; right; apply list_elem_of_singleton;
              reflexivity).
        reflexivity.
      * assert (x <> ln) as Hx by (intros ->; apply Hne; reflexivity).
        rewrite Nat.add_0_r.
        destruct (bool_decide (x ∈ j_skipped st)) eqn:Hb.
        -- apply bool_decide_eq_true in Hb.
           rewrite bool_decide_eq_true_2
             by (apply elem_of_app; left; exact Hb). reflexivity.
        -- apply bool_decide_eq_false in Hb.
           rewrite bool_decide_eq_false_2; [reflexivity|].
           rewrite elem_of_app, list_elem_of_singleton. tauto.
  - simpl. rewrite count_occ_snoc, Hinv.
    destruct (string_dec _ _) as [E|_]; [discriminate E|]. lia.
Qed.

(** X24.  [add_jacksheet] prints its warning about a lead that it skips at
    most once for each lead name, however many lines of the jack sheet name
    contacts of that lead. *)
Theorem add_jacksheet_warns_once (leads : leads_t) (lines : list string)
    (lead_name : string) :
  (count_occ string_dec (j_printed (snd (add_jacksheet leads lines)))
     (skipping_lead lead_name) <= 1)%nat.
Proof.
  unfold add_jacksheet.
  assert (forall st,
            (forall x, count_occ string_dec (j_printed st) (skipping_lead x) =
                       if bool_decide (x ∈ j_skipped st) then 1%nat else 0%nat) ->
            forall x,
              count_occ string_dec
                (j_printed (snd (add_jacksheet_lines lines st)))
                (skipping_lead x) =
              if bool_decide (x ∈ j_skipped (snd (add_jacksheet_lines lines st)))
              then 1%nat else 0%nat) as Hgen.
  { induction lines as [|line lines IH]; intros st Hinv; [exact Hinv|].
    simpl. pose proof (jacksheet_line_warns_once line st Hinv) as Hl.
    destruct (add_jacksheet_line line st) as [[e|u] st']; simpl in *.
    - exact Hl.
    - apply IH, Hl. }
  rewrite (Hgen (mkJack leads [] [])).
  - destruct (bool_decide _); lia.
  - intros x. reflexivity.
Qed.

End JacksheetWarnings.

(** ** leads_to_dict() *)

Section LeadsToDict.
Import VoxMother.

Lemma fold_insert_other (l : list (string * gmap string jvalue))
    (acc : gmap string (gmap string jvalue)) (k : string) :
  ~ In k (List.map fst l) ->
  fold_left (fun out_dict '(k, v) => <[k := v]> out_dict) l acc !! k = acc !! k.
Proof.
  revert acc. induction l as [|[k0 v0] l IH]; intros acc Hk; [reflexivity|].
  simpl in *. rewrite IH by tauto.
  apply lookup_insert_ne. intros ->. apply Hk. left. reflexivity.
Qed.

Lemma fold_insert_lookup (l : list (string * gmap string jvalue))
    (acc : gmap string (gmap string jvalue)) (k : string)
    (v : gmap string jvalue) :
  NoDup (List.map fst l) -> In (k, v) l ->
  fold_left (fun out_dict '(k, v) => <[k := v]> out_dict) l acc !! k = Some v.
Proof.
  revert acc. induction l as [|[k0 v0] l IH]; intros acc Hnd Hin; [destruct Hin|].
  simpl in *. apply NoDup_cons in Hnd as [Hk0 Hnd].
  destruct Hin as [[= -> ->]|Hin].
  - rewrite fold_insert_other by (rewrite <- list_elem_of_In; exact Hk0).
    apply lookup_insert_eq.
  - apply IH; assumption.
Qed.

(** X25.  When no two contacts of the leads have the same name, the
    dictionary that [leads_to_dict] returns maps the name of every contact
    to that contact's [to_dict()], and it has no other keys. *)
Theorem leads_to_dict_lookup (leads : leads_t) :
  NoDup (List.map fst (entries leads)) ->
  (forall (lead_name : string) (contacts : lead_t) (k : Z) (c : Contact),
     In (lead_name, contacts) leads -> In (k, c) contacts ->
     leads_to_dict leads !! name c = Some (to_dict c)) /\
  (forall x : string,
     ~ In x (List.map fst (entries leads)) -> leads_to_dict leads !! x = None).
Proof.
  intros Hnd. rewrite leads_to_dict_entries. split.
  - intros lead_name contacts k c Hl Hc.
    apply fold_insert_lookup; [exact Hnd|].
    unfold entries. apply List.in_flat_map.
    exists (lead_name, contacts). split; [exact Hl|].
    apply List.in_map_iff. exists (k, c). split; [reflexivity|exact Hc].
  - intros x Hx. rewrite fold_insert_other by exact Hx. apply lookup_empty.
Qed.

Lemma leads_to_dict_lookup_witness :
  NoDup (List.map fst (entries VoxSample.la_located)) /\
  leads_to_dict VoxSample.la_located !! "LA3"%string =
    Some (to_dict (mkContact "LA3" [12; 22; 32] 3 "G" [2; 1] (Some 1) None
                     (Some (0, 0)))).
Proof.
  assert (NoDup (List.map fst (entries VoxSample.la_located))) as Hnd.
  { simpl. repeat constructor; rewrite ?elem_of_cons, ?elem_of_nil.
    - intros [H|[H|[]]]; discriminate H.
    - intros [H|[]]; discriminate H.
    - tauto. }
  split; [exact Hnd|].
  refine (proj1 (leads_to_dict_lookup VoxSample.la_located Hnd) "LA" _ 3
            (mkContact "LA3" [12; 22; 32] 3 "G" [2; 1] (Some 1) None
               (Some (0, 0))) _ _).
  - left. reflexivity.
  - right. right. left. reflexivity.
Defined.

End LeadsToDict.
